(** * EncryptedSearch: the searchable-encryption retrieval engine

    A shallow embedding of [src/lib/utils.ts], of the module that the others
    import as [./crypto] (the file [src/unnamed/part_003]), of
    [src/lib/cache.ts], of [src/lib/benchmark.ts] and of the ordering code of
    [src/app/page.tsx], with the properties of the specification stated and
    proved over it. The repository holds a second, earlier copy of the
    benchmark module ([src/unnamed/part_002]); the places where it differs
    are embedded in the module [Part002] below.

    Conventions of the embedding.
    - A JavaScript string is a [string]: a sequence of code units, here the
      code units below 256 (the Latin-1 range), on which [trim],
      [toLowerCase] and the regular expression class [\s] are defined below
      exactly as ECMAScript defines them.
    - A JavaScript number that holds a count or an index is a [Z], an [N]
      or a [nat]; a duration in milliseconds is a [Z] number of clock ticks.
    - A dataset id is a string that is not the name of a member that every
      object inherits from [Object.prototype] (see [getDatasetSize]).
    - [async] code is sequential: every [await] completes before the next
      statement runs, so a function is a state transformer over the [World]
      and may fail with an [Error] (a rejected promise).
    - Loops whose termination depends on their arguments ([chunk], the
      pagination loop of [fetchAllRecords]) take a [fuel] bound on the number
      of iterations and return [None] / [OutOfFuel] when it is exhausted. *)

From Stdlib Require Import ZArith Ascii String Lia.
From stdpp Require Import base list sorting gmap strings.

Local Open Scope Z_scope.

(** ** JavaScript built-ins used by the code *)

Module JS.

(** [Array.prototype.slice(start, end)] with both arguments given:
    negative indices count from the end, and both are clamped. *)
Definition slice {A} (l : list A) (start stop : Z) : list A :=
  let len := Z.of_nat (length l) in
  let k := if start <? 0 then Z.max (len + start) 0 else Z.min start len in
  let fin := if stop <? 0 then Z.max (len + stop) 0 else Z.min stop len in
  take (Z.to_nat (fin - k)) (drop (Z.to_nat k) l).

(** The code units matched by [\s] and stripped by [trim]: TAB, LF, VT, FF,
    CR, SPACE and NO-BREAK SPACE are the ones below 256. *)
Definition isWhiteSpace (c : ascii) : bool :=
  let n := N_of_ascii c in
  ((9 <=? n) && (n <=? 13) || (n =? 32) || (n =? 160))%N.

(** [toLowerCase] on one code unit below 256: A-Z and the upper-case
    letters U+00C0..U+00DE (without the multiplication sign U+00D7). *)
Definition toLowerCaseChar (c : ascii) : ascii :=
  let n := N_of_ascii c in
  if ((65 <=? n) && (n <=? 90)
      || (192 <=? n) && (n <=? 222) && negb (n =? 215))%N
  then ascii_of_N (n + 32) else c.

Fixpoint trimStart (l : list ascii) : list ascii :=
  match l with
  | [] => []
  | c :: l' => if isWhiteSpace c then trimStart l' else l
  end.

Definition trim (l : list ascii) : list ascii :=
  rev (trimStart (rev (trimStart l))).

Definition toLowerCase (l : list ascii) : list ascii :=
  map toLowerCaseChar l.

(** [replace(/\s+/g, " ")]: every maximal run of white space becomes one
    space. [inRun] tells that the previous code unit was white space. *)
Fixpoint collapseWhiteSpace (inRun : bool) (l : list ascii) : list ascii :=
  match l with
  | [] => []
  | c :: l' =>
      if isWhiteSpace c
      then (if inRun then collapseWhiteSpace true l'
            else " "%char :: collapseWhiteSpace true l')
      else c :: collapseWhiteSpace false l'
  end.

(** [s.slice(0, i)] on a string, for [0 <= i]. *)
Definition stringSlice0 (s : string) (i : nat) : string :=
  String.substring 0 i s.

(** [s.startsWith(q)]. *)
Definition startsWith (s q : string) : bool := String.prefix q s.

End JS.

(** ** src/lib/utils.ts *)

(** [chunk]: the [for] loop, one iteration per unit of fuel.
<<
  for (let i = 0; i < items.length; i += size) {
    out.push(items.slice(i, i + size));
  }
>> *)
Fixpoint chunk_loop {A} (fuel : nat) (items : list A) (size : Z)
    (i : Z) (out : list (list A)) : option (list (list A)) :=
  match fuel with
  | O => None
  | S fuel' =>
      if i <? Z.of_nat (length items)
      then chunk_loop fuel' items size (i + size)
             (out ++ [JS.slice items i (i + size)])
      else Some out
  end.

Definition chunk {A} (fuel : nat) (items : list A) (size : Z)
    : option (list (list A)) :=
  chunk_loop fuel items size 0 [].

(** Fuel that is enough for every positive chunk size. *)
Definition chunk_fuel {A} (items : list A) : nat := S (length items).

(** ** src/lib/crypto.ts: text *)

Definition normalize (value : string) : string :=
  string_of_list_ascii
    (JS.collapseWhiteSpace false
       (JS.toLowerCase (JS.trim (list_ascii_of_string value)))).

(** The loop of [prefixes]: [for (let i = 1; i <= cap; i += 1)
    out.push(norm.slice(0, i))]. [todo] counts the iterations that remain,
    [cap - i + 1] of them when the loop is entered at [i]. *)
Fixpoint prefixes_loop (todo : nat) (norm : string) (i : nat)
    (out : list string) : list string :=
  match todo with
  | O => out
  | S todo' =>
      prefixes_loop todo' norm (S i) (out ++ [JS.stringSlice0 norm i])
  end.

(** [prefixes(value, maxLen)]; [maxLen] is an integer, possibly negative. *)
Definition prefixes (value : string) (maxLen : Z) : list string :=
  let norm := normalize value in
  let cap := Z.min maxLen (Z.of_nat (String.length norm)) in
  prefixes_loop (Z.to_nat cap) norm 1 [].

(** [prefixes(value)], with the default [maxLen = 20]. *)
Definition prefixes_default (value : string) : list string :=
  prefixes value 20.

(** ** Errors and results

    A rejected promise or a thrown exception is an [Err]; the constructors
    are named after what the platform throws. [OutOfFuel] is not an error of
    the program: it marks a loop that was cut off by its fuel bound. *)

Inductive Error : Type :=
  | DataError              (* importKey: key material rejected *)
  | InvalidAccessError     (* a key used for an operation it does not allow *)
  | OperationError         (* AES-GCM: the authentication tag does not match;
                              PBKDF2: no iterations *)
  | TypeError              (* an argument outside the range of its type *)
  | InvalidCharacterError  (* atob: the input is not base64 *)
  | SyntaxError            (* JSON.parse; importKey: bad arguments *)
  | FirebaseError          (* a Firestore read failed *)
  | IDBError               (* an IndexedDB transaction failed *)
  | OutOfFuel.

Inductive Result (A : Type) : Type :=
  | Ok (a : A)
  | Err (e : Error).
Arguments Ok {A} a.
Arguments Err {A} e.

Definition result_bind {A B} (r : Result A) (f : A → Result B) : Result B :=
  match r with
  | Ok a => f a
  | Err e => Err e
  end.

Definition of_option {A} (o : option A) (e : Error) : Result A :=
  match o with
  | Some a => Ok a
  | None => Err e
  end.

Declare Scope result_scope.
Delimit Scope result_scope with result.
Notation "'let?' x := r 'in' k" := (result_bind r (λ x, k))
  (at level 10, x pattern, r at level 100, k at level 200) : result_scope.

(** ** src/lib/crypto.ts: keys, encryption and tokens *)

Abbreviation bytes := (list Byte.byte).

Inductive HashAlg : Type := SHA_256 | SHA_512.

Record KdfOptions : Type := {
  iterations : N;
  hmacHash : HashAlg;
}.

Definition DEFAULT_KDF : KdfOptions :=
  {| iterations := 100000; hmacHash := SHA_256 |}.

Definition PQ_KDF : KdfOptions :=
  {| iterations := 300000; hmacHash := SHA_512 |}.

(** The [CryptoKey] handles of the Web Crypto API. *)
Inductive KeyAlgorithm : Type :=
  | PBKDF2
  | AES_GCM
  | HMAC (hash : HashAlg).

Inductive KeyUsage : Type :=
  | UDeriveBits | UEncrypt | UDecrypt | USign.

Record CryptoKey : Type := {
  key_algorithm : KeyAlgorithm;
  key_extractable : bool;
  key_usages : list KeyUsage;
  key_raw : bytes;
}.

Global Instance HashAlg_eq_dec : EqDecision HashAlg.
Proof. solve_decision. Defined.
Global Instance KeyAlgorithm_eq_dec : EqDecision KeyAlgorithm.
Proof. solve_decision. Defined.
Global Instance KeyUsage_eq_dec : EqDecision KeyUsage.
Proof. solve_decision. Defined.

(** The primitives that the run-time platform supplies (Web Crypto,
    [TextEncoder]/[TextDecoder], [Buffer], [btoa]/[atob],
    [Number.prototype.toLocaleString]). They are not code of the repository;
    the development is parametric in them. *)
Class Platform : Type := {
  (** [TextEncoder.encode] and [TextDecoder.decode] (UTF-8). *)
  textEncode : string → bytes;
  textDecode : bytes → string;
  (** PBKDF2 (RFC 8018): the derived key is a prefix of the block stream
      T_1 || T_2 || ..., so the primitive gives its [i]-th byte from the
      hash, the password, the salt and the iteration count. *)
  pbkdf2_byte : HashAlg → bytes → bytes → N → nat → Byte.byte;
  hmac : HashAlg → bytes → bytes → bytes;
  (** AES-GCM under a raw key and an iv; the tag is part of the ciphertext.
      Decryption gives [None] when the tag check fails. *)
  aesGcmEncrypt : bytes → bytes → bytes → bytes;
  aesGcmDecrypt : bytes → bytes → bytes → option bytes;
  (** [typeof Buffer !== "undefined"], [Buffer.from(b).toString("base64")]
      and [Buffer.from(s, "base64")]. *)
  hasBuffer : bool;
  bufferToBase64 : bytes → string;
  bufferFromBase64 : string → bytes;
  (** [btoa] on a binary string, and [atob], which throws on bad input. *)
  btoa : string → string;
  atob : string → option string;
  (** [n.toLocaleString()] for a count. *)
  toLocaleString : Z → string;
}.

(** [JSON.stringify] and [JSON.parse] at a payload type [T], the type
    parameter of [decryptJson<T>]. *)
Class Json (T : Type) : Type := {
  JSON_stringify : T → string;
  JSON_parse : string → option T;
}.

Section Crypto.
Context `{Platform}.
Local Open Scope result_scope.

(** [crypto.subtle.importKey("raw", keyData, algorithm, extractable,
    usages)]: a PBKDF2 key cannot be extractable, an AES key must be 128,
    192 or 256 bits long and an HMAC key must not be empty. *)
Definition importKey (keyData : bytes) (alg : KeyAlgorithm)
    (extractable : bool) (usages : list KeyUsage) : Result CryptoKey :=
  let key := {| key_algorithm := alg; key_extractable := extractable;
                key_usages := usages; key_raw := keyData |} in
  match alg with
  | PBKDF2 => if extractable then Err SyntaxError else Ok key
  | AES_GCM =>
      let n := length keyData in
      if ((n =? 16) || (n =? 24) || (n =? 32))%nat then Ok key
      else Err DataError
  | HMAC _ =>
      if (length keyData =? 0)%nat then Err DataError else Ok key
  end.

Definition has_usage (u : KeyUsage) (key : CryptoKey) : bool :=
  bool_decide (u ∈ key_usages key).

(** The largest [unsigned long], the type of [iterations] in the
    parameters of PBKDF2. *)
Definition MAX_ITERATIONS : N := 4294967295.

(** [crypto.subtle.deriveBits({name: "PBKDF2", salt, iterations, hash},
    baseKey, length)]. The parameters are read first: an iteration count
    above [MAX_ITERATIONS] is a [TypeError]. The key is checked next, and
    the derivation itself refuses to run with no iterations. *)
Definition deriveBits (salt : bytes) (iters : N) (hash : HashAlg)
    (baseKey : CryptoKey) (len : nat) : Result bytes :=
  if (MAX_ITERATIONS <? iters)%N then Err TypeError
  else if bool_decide (key_algorithm baseKey = PBKDF2)
          && has_usage UDeriveBits baseKey
  then
    if (iters =? 0)%N then Err OperationError
    else Ok (map (pbkdf2_byte hash (key_raw baseKey) salt iters)
               (seq 0 (len / 8)))
  else Err InvalidAccessError.

Definition subtle_encrypt (iv : bytes) (key : CryptoKey) (data : bytes)
    : Result bytes :=
  if bool_decide (key_algorithm key = AES_GCM) && has_usage UEncrypt key
  then Ok (aesGcmEncrypt (key_raw key) iv data)
  else Err InvalidAccessError.

Definition subtle_decrypt (iv : bytes) (key : CryptoKey) (data : bytes)
    : Result bytes :=
  if bool_decide (key_algorithm key = AES_GCM) && has_usage UDecrypt key
  then of_option (aesGcmDecrypt (key_raw key) iv data) OperationError
  else Err InvalidAccessError.

Definition subtle_sign (key : CryptoKey) (data : bytes) : Result bytes :=
  match key_algorithm key with
  | HMAC hash =>
      if has_usage USign key then Ok (hmac hash (key_raw key) data)
      else Err InvalidAccessError
  | _ => Err InvalidAccessError
  end.

(** [bytesToBase64]: through [Buffer] when there is one, otherwise a
    binary string is built code unit by code unit and given to [btoa]. *)
Definition bytesToBase64 (b : bytes) : string :=
  if hasBuffer then bufferToBase64 b
  else btoa (string_of_list_ascii (map ascii_of_byte b)).

(** [base64ToBytes]: [atob] throws on input that is not base64. *)
Definition base64ToBytes (base64 : string) : Result bytes :=
  if hasBuffer then Ok (bufferFromBase64 base64)
  else
    let? binary := of_option (atob base64) InvalidCharacterError in
    Ok (map byte_of_ascii (list_ascii_of_string binary)).

(** [replace(/=+$/g, "")] on a list of code units. *)
Definition stripTrailingEquals (l : list ascii) : list ascii :=
  rev ((fix go (r : list ascii) : list ascii :=
          match r with
          | c :: r' => if Ascii.eqb c "=" then go r' else r
          | [] => []
          end) (rev l)).

Definition bytesToBase64Url (b : bytes) : string :=
  string_of_list_ascii
    (stripTrailingEquals
       (map (λ c : ascii, if Ascii.eqb c "/" then "_"%char else c)
          (map (λ c : ascii, if Ascii.eqb c "+" then "-"%char else c)
             (list_ascii_of_string (bytesToBase64 b))))).

(** [getSalt]: [process.env.NEXT_PUBLIC_KDF_SALT || "..."]; an unset and
    an empty variable both give the default. *)
Definition getSalt (envSalt : option string) : bytes :=
  let salt :=
    match envSalt with
    | Some s => if String.eqb s "" then "encrypted-search-demo-salt" else s
    | None => "encrypted-search-demo-salt"
    end in
  textEncode salt.

Record DerivedKeys : Type := {
  encKey : CryptoKey;
  indexKey : CryptoKey;
}.

Definition deriveKeys (passphrase : string) (salt : bytes)
    (options : KdfOptions) : Result DerivedKeys :=
  let? baseKey :=
    importKey (textEncode passphrase) PBKDF2 false [UDeriveBits] in
  let? bits := deriveBits salt (iterations options) SHA_256 baseKey 512 in
  let encKeyBytes := JS.slice bits 0 32 in
  let indexKeyBytes := JS.slice bits 32 64 in
  let? encKey :=
    importKey encKeyBytes AES_GCM false [UEncrypt; UDecrypt] in
  let? indexKey :=
    importKey indexKeyBytes (HMAC (hmacHash options)) false [USign] in
  Ok {| encKey := encKey; indexKey := indexKey |}.

Record Encrypted : Type := {
  enc_ct : string;
  enc_iv : string;
}.

(** [encryptJson]; [iv] is the value of
    [crypto.getRandomValues(new Uint8Array(12))]. *)
Definition encryptJson {T} `{Json T} (iv : bytes) (payload : T)
    (encKey : CryptoKey) : Result Encrypted :=
  let plaintext := textEncode (JSON_stringify payload) in
  let? ciphertext := subtle_encrypt iv encKey plaintext in
  Ok {| enc_ct := bytesToBase64 ciphertext; enc_iv := bytesToBase64 iv |}.

Definition decryptJson {T} `{Json T} (ct iv : string) (encKey : CryptoKey)
    : Result T :=
  let? ciphertext := base64ToBytes ct in
  let? ivBytes := base64ToBytes iv in
  let? plaintext := subtle_decrypt ivBytes encKey ciphertext in
  of_option (JSON_parse (textDecode plaintext)) SyntaxError.

Definition computeToken (normalizedQuery : string) (indexKey : CryptoKey)
    : Result string :=
  let data := textEncode normalizedQuery in
  let? signature := subtle_sign indexKey data in
  Ok (bytesToBase64Url signature).

Definition encodePrefixDocId (prefixValue : string) : string := prefixValue.

End Crypto.

(** ** src/lib/types.ts *)

Inductive Mode : Type :=
  | blindIndex | decryptScan | clientCache | plaintextIndex.

Global Instance Mode_eq_dec : EqDecision Mode.
Proof. solve_decision. Defined.

Definition Mode_to_nat (m : Mode) : nat :=
  match m with
  | blindIndex => 0 | decryptScan => 1 | clientCache => 2
  | plaintextIndex => 3
  end%nat.

Definition Mode_of_nat (n : nat) : option Mode :=
  match n with
  | 0 => Some blindIndex | 1 => Some decryptScan | 2 => Some clientCache
  | 3 => Some plaintextIndex | _ => None
  end%nat.

Global Instance Mode_countable : Countable Mode.
Proof.
  refine (inj_countable Mode_to_nat Mode_of_nat _).
  intros []; reflexivity.
Defined.

Record PersonRecord : Type := {
  person_id : string;
  person_name : string;
  person_email : string;
  person_city : string;
  person_company : string;
}.

Record BenchmarkBreakdown : Type := {
  indexMs : Z;
  fetchMs : Z;
  decryptMs : Z;
  scanMs : Z;
  cacheBuildMs : option Z;   (* [cacheBuildMs?: number] *)
}.

Record BenchmarkResult : Type := {
  mode : Mode;
  totalMs : Z;
  breakdown : BenchmarkBreakdown;
  resultCount : nat;
  sampleNote : option string;   (* [sampleNote?: string] *)
  hits : list PersonRecord;
}.

Record CachedDataset : Type := {
  cached_datasetId : string;
  cached_records : list PersonRecord;
  cached_builtAt : Z;
  cached_recordCount : nat;
  cached_cap : Z;
  cached_buildMs : option Z;   (* [buildMs?: number] *)
}.

(** ** The outside world: Firestore, IndexedDB and the clock *)

(** A document of [datasets/{id}/records] as the client reads it. *)
Record EncDoc : Type := {
  doc_id : string;
  doc_ct : string;
  doc_iv : string;
}.

(** The Firestore reads that the client issues. *)
Inductive Request : Type :=
  (** [getDoc(doc(db, path))] *)
  | GetDoc (path : string)
  (** [getDocs(query(collection(db, path), where(documentId(), "in", group)))] *)
  | GetDocsIn (path : string) (group : list string)
  (** [getDocs(query(collection(db, path), orderBy(documentId()),
      startAfter(cursor)?, limit(pageSize)))] *)
  | GetDocsPage (path : string) (cursor : option string) (pageSize : Z).

(** What the run cannot change: the clock readings, the contents of the
    (read-only) Firestore project, and which reads and transactions fail. *)
Record Env : Type := {
  (** the value returned by the [k]-th call of [now()] *)
  clock : nat → Z;
  (** the value of [Date.now()] after [k] calls of [now()] *)
  dateNow : nat → Z;
  (** [process.env.NEXT_PUBLIC_KDF_SALT] *)
  envSalt : option string;
  (** the documents of a collection of encrypted records, in the order of
      their document ids *)
  fsCollection : string → list EncDoc;
  (** the [recordIds] field of the index document at a path; [None] when the
      document or the field is absent *)
  fsRecordIds : string → option (list string);
  (** whether the [k]-th Firestore read, being this request, fails *)
  fsFails : nat → Request → bool;
  (** whether the [k]-th IndexedDB transaction fails *)
  idbFails : nat → bool;
}.

(** What the run changes: how often the clock was read, which Firestore
    reads were issued (oldest first), and the IndexedDB object store
    [datasets] with the number of transactions run on it. *)
Record World : Type := {
  nowCalls : nat;
  requests : list Request;
  idb : gmap string CachedDataset;
  idbOps : nat;
}.

(** An [async] function: a state transformer that may fail. *)
Definition M (A : Type) : Type := World → Result (A * World).

Definition ret {A} (a : A) : M A := λ w, Ok (a, w).

Definition bind {A B} (m : M A) (k : A → M B) : M B :=
  λ w, match m w with
       | Ok (a, w') => k a w'
       | Err e => Err e
       end.

Definition lift {A} (r : Result A) : M A :=
  λ w, match r with
       | Ok a => Ok (a, w)
       | Err e => Err e
       end.

Declare Scope m_scope.
Delimit Scope m_scope with M.
Notation "'let*' x := c 'in' k" := (bind c (λ x, k))
  (at level 10, x pattern, c at level 100, k at level 200) : m_scope.

(** [for (const x of xs) { acc = await f(acc, x) }] *)
Fixpoint foldM {A B} (f : B → A → M B) (acc : B) (xs : list A) : M B :=
  match xs with
  | [] => ret acc
  | x :: xs' => bind (f acc x) (λ acc', foldM f acc' xs')
  end.

Section World.
Context (E : Env).
Local Open Scope m_scope.

(** [now()] of [src/lib/utils.ts]: one reading of the clock. *)
Definition now : M Z :=
  λ w, Ok (clock E (nowCalls w),
           {| nowCalls := S (nowCalls w); requests := requests w;
              idb := idb w; idbOps := idbOps w |}).

Definition Date_now : M Z := λ w, Ok (dateNow E (nowCalls w), w).

(** A Firestore read: it fails, or it is logged and answered. *)
Definition firestore {A} (req : Request) (answer : A) : M A :=
  λ w, if fsFails E (length (requests w)) req then Err FirebaseError
       else Ok (answer,
                {| nowCalls := nowCalls w; requests := requests w ++ [req];
                   idb := idb w; idbOps := idbOps w |}).

(** [(await getDoc(doc(db, path))).data()?.recordIds] *)
Definition getDoc_recordIds (path : string) : M (option (list string)) :=
  firestore (GetDoc path) (fsRecordIds E path).

(** The documents whose id is one of [group], in document id order. *)
Definition getDocs_in (path : string) (group : list string)
    : M (list EncDoc) :=
  firestore (GetDocsIn path group)
    (List.filter (λ d, bool_decide (doc_id d ∈ group)) (fsCollection E path)).

(** The first [pageSize] documents, in document id order, whose id is
    greater than the cursor. *)
Definition page_of (docs : list EncDoc) (cursor : option string)
    (pageSize : Z) : list EncDoc :=
  take (Z.to_nat pageSize)
    (match cursor with
     | Some c => List.filter (λ d, String.ltb c (doc_id d)) docs
     | None => docs
     end).

Definition getDocs_page (path : string) (cursor : option string)
    (pageSize : Z) : M (list EncDoc) :=
  firestore (GetDocsPage path cursor pageSize)
    (page_of (fsCollection E path) cursor pageSize).

(** *** src/lib/cache.ts *)

(** [getCachedDataset]: a failed transaction is caught and gives [null]. *)
Definition getCachedDataset (datasetId : string)
    : M (option CachedDataset) :=
  λ w, let w' := {| nowCalls := nowCalls w; requests := requests w;
                    idb := idb w; idbOps := S (idbOps w) |} in
       if idbFails E (idbOps w) then Ok (None, w')
       else Ok (idb w !! datasetId, w').

(** [setCachedDataset]: [store.put(cache, cache.datasetId)]. *)
Definition setCachedDataset (cache : CachedDataset) : M unit :=
  λ w, if idbFails E (idbOps w) then Err IDBError
       else Ok (tt, {| nowCalls := nowCalls w; requests := requests w;
                       idb := <[cached_datasetId cache := cache]> (idb w);
                       idbOps := S (idbOps w) |}).

(** [clearCachedDataset]: [store.delete(datasetId)]. *)
Definition clearCachedDataset (datasetId : string) : M unit :=
  λ w, if idbFails E (idbOps w) then Err IDBError
       else Ok (tt, {| nowCalls := nowCalls w; requests := requests w;
                       idb := delete datasetId (idb w);
                       idbOps := S (idbOps w) |}).

End World.

(** The predicate of [searchCache] and of [scanRecords]. *)
Definition matchesQuery (normalizedQuery : string) (record : PersonRecord)
    : bool :=
  let name := normalize (person_name record) in
  let email := normalize (person_email record) in
  JS.startsWith name normalizedQuery || JS.startsWith email normalizedQuery.

Definition searchCache (records : list PersonRecord)
    (normalizedQuery : string) : list PersonRecord :=
  List.filter (matchesQuery normalizedQuery) records.

(** The world after [ticks] more readings of the clock and the Firestore
    reads [reqs]; IndexedDB is left alone. Used to state what a function
    does to the world. *)
Definition advance (w : World) (ticks : nat) (reqs : list Request) : World :=
  {| nowCalls := nowCalls w + ticks; requests := requests w ++ reqs;
     idb := idb w; idbOps := idbOps w |}.

(** ** src/lib/benchmark.ts *)

Definition CACHE_CAP : Z := 10000.
Definition MAX_HITS : nat := 20.
Definition FULL_SCAN_PAGE_SIZE : Z := 1000.
Definition MAX_RESULT_FETCH : nat := 50.

Definition DATASET_SIZES : list (string * Z) :=
  [("people-1k", 1000); ("people-10k", 10000); ("people-100k", 100000)].

(** The names that every plain object, [DATASET_SIZES] among them,
    inherits from [Object.prototype]. *)
Definition Object_prototype_names : list string :=
  ["constructor"; "__defineGetter__"; "__defineSetter__"; "hasOwnProperty";
   "__lookupGetter__"; "__lookupSetter__"; "isPrototypeOf";
   "propertyIsEnumerable"; "toString"; "valueOf"; "__proto__";
   "toLocaleString"].

(** [DATASET_SIZES[datasetId] ?? 1_000], for a [datasetId] that is not in
    [Object_prototype_names]: one of the three keys gives its size and
    another name gives [undefined], hence 1000. For an inherited name the
    lookup gives the inherited member, which is not a number and which
    [??] keeps; what is proved of the sizes is proved of the other ids. *)
Definition getDatasetSize (datasetId : string) : Z :=
  match List.find (λ kv, String.eqb (fst kv) datasetId) DATASET_SIZES with
  | Some kv => snd kv
  | None => 1000
  end.

Definition recordsPath (datasetId : string) : string :=
  "datasets/" +:+ datasetId +:+ "/records".

Definition indexPath (datasetId token : string) : string :=
  "datasets/" +:+ datasetId +:+ "/index/" +:+ token.

Definition plaintextIndexPath (datasetId docId : string) : string :=
  "datasets/" +:+ datasetId +:+ "/plaintextIndex/" +:+ docId.

(** [{ ...payload, id }] *)
Definition with_id (payload : PersonRecord) (id : string) : PersonRecord :=
  {| person_id := id; person_name := person_name payload;
     person_email := person_email payload;
     person_city := person_city payload;
     person_company := person_company payload |}.

(** [lastId ? ... : ...] and [!lastId]: [undefined] and [""] are falsy. *)
Definition truthy (lastId : option string) : bool :=
  match lastId with
  | Some s => negb (String.eqb s "")
  | None => false
  end.

(** [if (cached)]: [null] is falsy, an object is truthy. *)
Definition is_Some_b {A} (o : option A) : bool :=
  match o with
  | Some _ => true
  | None => false
  end.

Record Options : Type := {
  opt_datasetId : string;
  opt_query : string;
  opt_modes : list Mode;
  opt_passphrase : string;
  opt_pqMode : option bool;   (* [pqMode?: boolean], [false] when absent *)
}.

Section Benchmark.
Context `{Platform} `{Json PersonRecord} (E : Env).
Local Open Scope m_scope.

Definition fetchRecordsByIds (datasetId : string) (recordIds : list string)
    : M (list EncDoc * Z) :=
  let* start := now E in
  let* groups :=
    lift (of_option (chunk (chunk_fuel recordIds) recordIds 10) OutOfFuel) in
  let* docs :=
    foldM (λ docs group,
             let* snapshot := getDocs_in E (recordsPath datasetId) group in
             ret (docs ++ snapshot))
      [] groups in
  let* stop := now E in
  ret (docs, stop - start).

Definition fetchRecordPage (datasetId : string) (pageSize : Z)
    : M (list EncDoc * Z) :=
  let* start := now E in
  let* snapshot := getDocs_page E (recordsPath datasetId) None pageSize in
  let* stop := now E in
  ret (snapshot, stop - start).

Definition decryptRecords (docs : list EncDoc) (encKey : CryptoKey)
    : M (list PersonRecord * Z) :=
  let* start := now E in
  let* records :=
    foldM (λ records doc,
             let* payload :=
               lift (decryptJson (doc_ct doc) (doc_iv doc) encKey) in
             ret (records ++ [with_id payload (doc_id doc)]))
      [] docs in
  let* stop := now E in
  ret (records, stop - start).

Definition scanRecords (records : list PersonRecord)
    (normalizedQuery : string) : M (list PersonRecord * Z) :=
  let* start := now E in
  let matches := List.filter (matchesQuery normalizedQuery) records in
  let* stop := now E in
  ret (matches, stop - start).

(** The [while (true)] loop of [fetchAllRecords], one page per unit of
    fuel. *)
Fixpoint fetchAllRecords_loop (fuel : nat) (datasetId : string)
    (pageSize : Z) (lastId : option string) (docs : list EncDoc)
    : M (list EncDoc) :=
  match fuel with
  | O => lift (Err OutOfFuel)
  | S fuel' =>
      let cursor := if truthy lastId then lastId else None in
      let* snapshot :=
        getDocs_page E (recordsPath datasetId) cursor pageSize in
      let docs := docs ++ snapshot in
      if Z.of_nat (length snapshot) <? pageSize then ret docs
      else
        let lastId := doc_id <$> last snapshot in
        if negb (truthy lastId) then ret docs
        else fetchAllRecords_loop fuel' datasetId pageSize lastId docs
  end.

Definition fetchAllRecords (fuel : nat) (datasetId : string) (pageSize : Z)
    : M (list EncDoc * Z) :=
  let* start := now E in
  let* docs := fetchAllRecords_loop fuel datasetId pageSize None [] in
  let* stop := now E in
  ret (docs, stop - start).

(** The note of a capped index bucket. *)
Definition cappedNote (totalCount : nat) : string :=
  "Fetched first " +:+ toLocaleString (Z.of_nat MAX_RESULT_FETCH)
  +:+ " of " +:+ toLocaleString (Z.of_nat totalCount)
  +:+ " matches due to synthetic data repetition.".

(** What the Blind Index and the Plaintext Index branches do once the
    index document has been read. *)
Definition fetchBucket (mode : Mode) (datasetId : string)
    (encKey : CryptoKey) (indexMs : Z) (bucket : option (list string))
    : M BenchmarkResult :=
  let recordIds := default [] bucket in
  let totalCount := length recordIds in
  let cappedIds :=
    if (MAX_RESULT_FETCH <? totalCount)%nat
    then JS.slice recordIds 0 (Z.of_nat MAX_RESULT_FETCH)
    else recordIds in
  let sampleNote :=
    if (MAX_RESULT_FETCH <? totalCount)%nat
    then Some (cappedNote totalCount) else None in
  let* (docs, fetchMs) := fetchRecordsByIds datasetId cappedIds in
  let* (records, decryptMs) := decryptRecords docs encKey in
  ret {| mode := mode;
         totalMs := indexMs + fetchMs + decryptMs;
         breakdown := {| indexMs := indexMs; fetchMs := fetchMs;
                         decryptMs := decryptMs; scanMs := 0;
                         cacheBuildMs := None |};
         resultCount := totalCount;
         sampleNote := sampleNote;
         hits := JS.slice records 0 (Z.of_nat MAX_HITS) |}.

Definition runBlindIndex (datasetId normalizedQuery : string)
    (keys : DerivedKeys) : M BenchmarkResult :=
  let* indexStart := now E in
  let* token := lift (computeToken normalizedQuery (indexKey keys)) in
  let* bucket := getDoc_recordIds E (indexPath datasetId token) in
  let* indexStop := now E in
  fetchBucket blindIndex datasetId (encKey keys) (indexStop - indexStart)
    bucket.

Definition runPlaintextIndex (datasetId normalizedQuery : string)
    (keys : DerivedKeys) : M BenchmarkResult :=
  let* indexStart := now E in
  let docId := encodePrefixDocId normalizedQuery in
  let* bucket := getDoc_recordIds E (plaintextIndexPath datasetId docId) in
  let* indexStop := now E in
  fetchBucket plaintextIndex datasetId (encKey keys)
    (indexStop - indexStart) bucket.

Definition runDecryptScan (fuel : nat) (datasetId normalizedQuery : string)
    (keys : DerivedKeys) : M BenchmarkResult :=
  let* (docs, fetchMs) :=
    fetchAllRecords fuel datasetId FULL_SCAN_PAGE_SIZE in
  let* (records, decryptMs) := decryptRecords docs (encKey keys) in
  let* (matches, scanMs) := scanRecords records normalizedQuery in
  ret {| mode := decryptScan;
         totalMs := fetchMs + decryptMs + scanMs;
         breakdown := {| indexMs := 0; fetchMs := fetchMs;
                         decryptMs := decryptMs; scanMs := scanMs;
                         cacheBuildMs := None |};
         resultCount := length matches;
         sampleNote := None;
         hits := JS.slice matches 0 (Z.of_nat MAX_HITS) |}.

(** The cold branch of Client Cache: build the snapshot and persist it. *)
Definition buildCache (datasetId : string) (datasetSize : Z)
    (keys : DerivedKeys)
    : M (option Z * Z * Z * list PersonRecord * option string) :=
  let* cacheStart := now E in
  let* (docs, fetched) :=
    fetchRecordPage datasetId (Z.min datasetSize CACHE_CAP) in
  let* (decrypted, decMs) := decryptRecords docs (encKey keys) in
  let* cacheStop := now E in
  let cacheBuildMs := cacheStop - cacheStart in
  let* builtAt := Date_now E in
  let* _ :=
    setCachedDataset E
      {| cached_datasetId := datasetId; cached_records := decrypted;
         cached_builtAt := builtAt; cached_recordCount := length decrypted;
         cached_cap := CACHE_CAP;
         cached_buildMs := Some cacheBuildMs |} in
  let sampleNote :=
    if CACHE_CAP <? datasetSize
    then Some ("Cache capped at " +:+ toLocaleString CACHE_CAP
               +:+ " records.")
    else None in
  ret (Some cacheBuildMs, fetched, decMs, decrypted, sampleNote).

Definition runClientCache (datasetId normalizedQuery : string)
    (keys : DerivedKeys) : M BenchmarkResult :=
  let datasetSize := getDatasetSize datasetId in
  let* cacheReadStart := now E in
  let* cached := getCachedDataset E datasetId in
  let* cacheReadStop := now E in
  let cacheReadMs := cacheReadStop - cacheReadStart in
  let* (cacheBuildMs, fetchMs, decryptMs, records, sampleNote) :=
    match cached with
    | None => buildCache datasetId datasetSize keys
    | Some cached =>
        ret (cached_buildMs cached, 0, 0, cached_records cached,
             if Z.of_nat (cached_recordCount cached) <? datasetSize
             then Some ("Cache has "
                        +:+ toLocaleString
                              (Z.of_nat (cached_recordCount cached))
                        +:+ " records from a larger dataset.")
             else None)
    end in
  let* scanStart := now E in
  let matches := searchCache records normalizedQuery in
  let* scanStop := now E in
  let scanMs := scanStop - scanStart in
  let fetchMs := if is_Some_b cached then cacheReadMs else fetchMs in
  let totalMs :=
    if is_Some_b cached then cacheReadMs + scanMs
    else default 0 cacheBuildMs + scanMs in
  ret {| mode := clientCache;
         totalMs := totalMs;
         breakdown := {| indexMs := 0; fetchMs := fetchMs;
                         decryptMs := decryptMs; scanMs := scanMs;
                         cacheBuildMs := cacheBuildMs |};
         resultCount := length matches;
         sampleNote := sampleNote;
         hits := JS.slice matches 0 (Z.of_nat MAX_HITS) |}.

(** One iteration of [for (const mode of modes)]. *)
Definition runMode (fuel : nat) (datasetId normalizedQuery : string)
    (keys : DerivedKeys) (mode : Mode) : M BenchmarkResult :=
  match mode with
  | blindIndex => runBlindIndex datasetId normalizedQuery keys
  | plaintextIndex => runPlaintextIndex datasetId normalizedQuery keys
  | decryptScan => runDecryptScan fuel datasetId normalizedQuery keys
  | clientCache => runClientCache datasetId normalizedQuery keys
  end.

Definition runBenchmark (fuel : nat) (options : Options)
    : M (list BenchmarkResult) :=
  let normalizedQuery := normalize (opt_query options) in
  if String.eqb normalizedQuery "" then ret []
  else
    let salt := getSalt (envSalt E) in
    let kdf := if default false (opt_pqMode options)
               then PQ_KDF else DEFAULT_KDF in
    let* keys := lift (deriveKeys (opt_passphrase options) salt kdf) in
    foldM (λ results mode,
             let* result :=
               runMode fuel (opt_datasetId options) normalizedQuery keys
                 mode in
             ret (results ++ [result]))
      [] (opt_modes options).

End Benchmark.

(** What the loop of [decryptRecords] computes, without the clock: the
    records in the order of the documents, or the error of the first
    document that does not decrypt. *)
Fixpoint decryptAll `{Platform} `{Json PersonRecord} (docs : list EncDoc)
    (encKey : CryptoKey) : Result (list PersonRecord) :=
  match docs with
  | [] => Ok []
  | doc :: docs' =>
      (let? payload := decryptJson (doc_ct doc) (doc_iv doc) encKey in
       let? records := decryptAll docs' encKey in
       Ok (with_id payload (doc_id doc) :: records))%result
  end.

(** ** The earlier copy of the benchmark module

    [src/unnamed/part_002] is the same module at an earlier stage: the
    helpers are the same, without [fetchAllRecords]; the index modes fetch
    the whole bucket, Decrypt-and-Scan reads one sample page, and Client
    Cache does not time the cache read. The page imports the module above,
    not this one. *)

Module Part002.
Section Benchmark.
Context `{Platform} `{Json PersonRecord} (E : Env).
Local Open Scope m_scope.

Definition buildSampleNote (sampleSize datasetSize : Z) : option string :=
  if datasetSize <=? sampleSize then None
  else Some ("Sampled first " +:+ toLocaleString sampleSize +:+ " of ~"
             +:+ toLocaleString datasetSize +:+ " records.").

Definition fetchBucket (mode : Mode) (datasetId : string)
    (encKey : CryptoKey) (indexMs : Z) (bucket : option (list string))
    : M BenchmarkResult :=
  let recordIds := default [] bucket in
  let* (docs, fetchMs) := fetchRecordsByIds E datasetId recordIds in
  let* (records, decryptMs) := decryptRecords E docs encKey in
  ret {| mode := mode;
         totalMs := indexMs + fetchMs + decryptMs;
         breakdown := {| indexMs := indexMs; fetchMs := fetchMs;
                         decryptMs := decryptMs; scanMs := 0;
                         cacheBuildMs := None |};
         resultCount := length records;
         sampleNote := None;
         hits := JS.slice records 0 (Z.of_nat MAX_HITS) |}.

Definition runBlindIndex (datasetId normalizedQuery : string)
    (keys : DerivedKeys) : M BenchmarkResult :=
  let* indexStart := now E in
  let* token := lift (computeToken normalizedQuery (indexKey keys)) in
  let* bucket := getDoc_recordIds E (indexPath datasetId token) in
  let* indexStop := now E in
  fetchBucket blindIndex datasetId (encKey keys) (indexStop - indexStart)
    bucket.

Definition runPlaintextIndex (datasetId normalizedQuery : string)
    (keys : DerivedKeys) : M BenchmarkResult :=
  let* indexStart := now E in
  let docId := encodePrefixDocId normalizedQuery in
  let* bucket := getDoc_recordIds E (plaintextIndexPath datasetId docId) in
  let* indexStop := now E in
  fetchBucket plaintextIndex datasetId (encKey keys)
    (indexStop - indexStart) bucket.

Definition runDecryptScan (datasetId normalizedQuery : string)
    (keys : DerivedKeys) : M BenchmarkResult :=
  let datasetSize := getDatasetSize datasetId in
  let sampleSize := if datasetSize <=? 1000 then datasetSize else 2000 in
  let note :=
    if 100000 <=? datasetSize
    then Some ("Sampled first " +:+ toLocaleString sampleSize +:+ " of ~"
               +:+ toLocaleString datasetSize
               +:+ " records. Full scan disabled at this size.")
    else buildSampleNote sampleSize datasetSize in
  let* (docs, fetchMs) := fetchRecordPage E datasetId sampleSize in
  let* (records, decryptMs) := decryptRecords E docs (encKey keys) in
  let* (matches, scanMs) := scanRecords E records normalizedQuery in
  ret {| mode := decryptScan;
         totalMs := fetchMs + decryptMs + scanMs;
         breakdown := {| indexMs := 0; fetchMs := fetchMs;
                         decryptMs := decryptMs; scanMs := scanMs;
                         cacheBuildMs := None |};
         resultCount := length matches;
         sampleNote := note;
         hits := JS.slice matches 0 (Z.of_nat MAX_HITS) |}.

Definition runClientCache (datasetId normalizedQuery : string)
    (keys : DerivedKeys) : M BenchmarkResult :=
  let datasetSize := getDatasetSize datasetId in
  let* cached := getCachedDataset E datasetId in
  let* (cacheBuildMs, fetchMs, decryptMs, records, sampleNote) :=
    match cached with
    | None => buildCache E datasetId datasetSize keys
    | Some cached =>
        ret (cached_buildMs cached, 0, 0, cached_records cached,
             if Z.of_nat (cached_recordCount cached) <? datasetSize
             then Some ("Cache has "
                        +:+ toLocaleString
                              (Z.of_nat (cached_recordCount cached))
                        +:+ " records from a larger dataset.")
             else None)
    end in
  let* scanStart := now E in
  let matches := searchCache records normalizedQuery in
  let* scanStop := now E in
  let scanMs := scanStop - scanStart in
  let totalMs :=
    if is_Some_b cached then scanMs else default 0 cacheBuildMs + scanMs in
  ret {| mode := clientCache;
         totalMs := totalMs;
         breakdown := {| indexMs := 0; fetchMs := fetchMs;
                         decryptMs := decryptMs; scanMs := scanMs;
                         cacheBuildMs := cacheBuildMs |};
         resultCount := length matches;
         sampleNote := sampleNote;
         hits := JS.slice matches 0 (Z.of_nat MAX_HITS) |}.

Definition runMode (datasetId normalizedQuery : string)
    (keys : DerivedKeys) (mode : Mode) : M BenchmarkResult :=
  match mode with
  | blindIndex => runBlindIndex datasetId normalizedQuery keys
  | plaintextIndex => runPlaintextIndex datasetId normalizedQuery keys
  | decryptScan => runDecryptScan datasetId normalizedQuery keys
  | clientCache => runClientCache datasetId normalizedQuery keys
  end.

Definition runBenchmark (options : Options) : M (list BenchmarkResult) :=
  let normalizedQuery := normalize (opt_query options) in
  if String.eqb normalizedQuery "" then ret []
  else
    let salt := getSalt (envSalt E) in
    let kdf := if default false (opt_pqMode options)
               then PQ_KDF else DEFAULT_KDF in
    let* keys := lift (deriveKeys (opt_passphrase options) salt kdf) in
    foldM (λ results mode,
             let* result :=
               runMode (opt_datasetId options) normalizedQuery keys mode in
             ret (results ++ [result]))
      [] (opt_modes options).

End Benchmark.
End Part002.

(** ** src/app/page.tsx: the order in which results are shown *)

Definition MODE_ORDER : list Mode :=
  [blindIndex; decryptScan; clientCache; plaintextIndex].

(** [new Map(results.map(result => [result.mode, result]))]: a later entry
    replaces an earlier one with the same key. *)
Definition resultMap (results : list BenchmarkResult)
    : gmap Mode BenchmarkResult :=
  foldl (λ m result, <[mode result := result]> m) ∅ results.

(** [MODE_ORDER.map(mode => map.get(mode)).filter(Boolean)] *)
Definition resultsByMode (results : list BenchmarkResult)
    : list BenchmarkResult :=
  omap (λ mode, resultMap results !! mode) MODE_ORDER.

(** ** Vocabulary of the specification *)

(** The time between the [n]-th reading of the clock and the next one: what
    [now() - start] measures when nothing else reads the clock in between. *)
Definition lap (E : Env) (n : nat) : Z := clock E (n + 1) - clock E n.

(** A monotonic clock. *)
Definition clock_monotone (E : Env) : Prop :=
  ∀ i j : nat, (i ≤ j)%nat → clock E i ≤ clock E j.

(** The cursor that an iteration of [fetchAllRecords] starts after. *)
Definition cursor_of (lastId : option string) : option string :=
  if truthy lastId then lastId else None.

(** Document ids in strictly ascending order, none of them empty: what
    Firestore guarantees of a collection listed by [documentId()]. *)
Definition ids_ascending (docs : list EncDoc) : Prop :=
  StronglySorted (λ a b, String.ltb (doc_id a) (doc_id b) = true) docs
  ∧ Forall (λ d, doc_id d ≠ "") docs.

(** The documents that Firestore returns for the batch reads of [groups]. *)
Definition batch_answer (E : Env) (datasetId : string)
    (groups : list (list string)) : list EncDoc :=
  flat_map (λ group, List.filter (λ d, bool_decide (doc_id d ∈ group))
                       (fsCollection E (recordsPath datasetId))) groups.

(** What [getCachedDataset] returns in a world. *)
Definition cache_lookup (E : Env) (datasetId : string) (w : World)
    : option CachedDataset :=
  if idbFails E (idbOps w) then None else idb w !! datasetId.

(** The keys that can encrypt and decrypt records, as [deriveKeys] makes
    its [encKey]. *)
Definition isEncKey (K : CryptoKey) : Prop :=
  key_algorithm K = AES_GCM ∧ UEncrypt ∈ key_usages K
  ∧ UDecrypt ∈ key_usages K.

(** How [totalMs] relates to the breakdown, mode by mode, for a result
    that was made in the world [w], where the clock had been read
    [nowCalls w] times.
    - Blind Index and Plaintext Index: index + fetch + decrypt, no scan;
    - Decrypt-and-Scan: fetch + decrypt + scan, no index;
    - Client Cache when no snapshot can be read in [w] (cold): the cache
      build plus the scan. The build runs from the reading of the clock
      before the fetch starts to the one after the decryption ends, so the
      fetch and the decryption, which are reported too, lie inside it;
    - Client Cache when a snapshot is read in [w] (warm): the cache read,
      reported as [fetchMs], plus the scan; nothing is decrypted and
      [cacheBuildMs] repeats the build time stored with the snapshot.
    [cacheBuildMs] is absent outside Client Cache. *)
Definition total_of_phases (E : Env) (datasetId : string) (w : World)
    (r : BenchmarkResult) : Prop :=
  let b := breakdown r in
  let n := nowCalls w in
  match mode r with
  | blindIndex | plaintextIndex =>
      totalMs r = indexMs b + fetchMs b + decryptMs b
      ∧ scanMs b = 0 ∧ cacheBuildMs b = None
  | decryptScan =>
      totalMs r = fetchMs b + decryptMs b + scanMs b
      ∧ indexMs b = 0 ∧ cacheBuildMs b = None
  | clientCache =>
      indexMs b = 0
      ∧ match cache_lookup E datasetId w with
        | None =>
            ∃ build,
              cacheBuildMs b = Some build
              ∧ totalMs r = build + scanMs b
              ∧ build = clock E (n + 7) - clock E (n + 2)
              ∧ fetchMs b = clock E (n + 4) - clock E (n + 3)
              ∧ decryptMs b = clock E (n + 6) - clock E (n + 5)
              ∧ (clock_monotone E →
                 fetchMs b ≤ build ∧ decryptMs b ≤ build)
        | Some cached =>
            totalMs r = fetchMs b + scanMs b
            ∧ fetchMs b = clock E (n + 1) - clock E n
            ∧ decryptMs b = 0
            ∧ cacheBuildMs b = cached_buildMs cached
        end
  end.

(** The iterations of [for (const mode of modes)], one after the other:
    they start in the world [w]; each one makes one result, as [step]
    says, in the world that the one before left; the last one leaves
    [w']. *)
Inductive looped (step : Mode → World → BenchmarkResult → World → Prop)
    : list Mode → World → list BenchmarkResult → World → Prop :=
  | looped_nil w : looped step [] w [] w
  | looped_cons m modes w r w1 rs w' :
      step m w r w1 → looped step modes w1 rs w' →
      looped step (m :: modes) w (r :: rs) w'.

(** The sum of all the fields of a breakdown, an absent [cacheBuildMs]
    counting for nothing. When every unused phase is reported as 0, this is
    the sum of the fields that the mode used. *)
Definition sum_of_breakdown (b : BenchmarkBreakdown) : Z :=
  indexMs b + fetchMs b + decryptMs b + scanMs b
  + default 0 (cacheBuildMs b).

(** No phase is left out of the breakdown. *)
Definition reports_every_phase (b : BenchmarkBreakdown) : Prop :=
  is_Some (cacheBuildMs b).

(** [modes] lists some of the modes of [order], in the order of [order]. *)
Definition listed_in (order modes : list Mode) : Prop :=
  modes = List.filter (λ m, bool_decide (m ∈ modes)) order.

(** ** The contracts of the platform primitives

    What the Web Crypto, [Buffer]/[btoa]/[atob], [TextEncoder]/[TextDecoder]
    and [JSON] specifications promise and the round trip of [encryptJson]
    and [decryptJson] relies on. *)

Record PlatformLaws `{Platform} : Prop := {
  (** AES-GCM decryption inverts encryption under the same key and iv. *)
  aesGcm_roundtrip : ∀ key iv pt,
    aesGcmDecrypt key iv (aesGcmEncrypt key iv pt) = Some pt;
  (** Where there is a [Buffer], it decodes the base64 text that it
      produced. *)
  buffer_roundtrip : hasBuffer = true →
    ∀ b, bufferFromBase64 (bufferToBase64 b) = b;
  (** Where there is none, [atob] inverts [btoa] on binary strings. *)
  atob_btoa : hasBuffer = false →
    ∀ binary, atob (btoa binary) = Some binary;
}.
Arguments PlatformLaws _ : clear implicits.

Record JsonLaws (T : Type) `{Platform} `{Json T} : Prop := {
  (** [JSON.parse] inverts [JSON.stringify] on the payload type. *)
  parse_stringify : ∀ p : T, JSON_parse (JSON_stringify p) = Some p;
  (** The text that [JSON.stringify] produces is well-formed and does not
      start with a byte order mark, so UTF-8 decoding inverts encoding. *)
  decode_encode_stringify : ∀ p : T,
    textDecode (textEncode (JSON_stringify p)) = JSON_stringify p;
}.
Arguments JsonLaws T _ _ : clear implicits.

(** ** A stand-in for the platform

    A small executable instance of [Platform] on which the code can be run:
    real base64 and UTF-8 (on the code units below 256), [en-US] number
    formatting, and toy replacements for PBKDF2, HMAC and AES-GCM that have
    the shape of the real primitives and none of their security. *)

Module StandIn.

Definition byte_of (n : N) : Byte.byte :=
  default Byte.x00 (Byte.of_N (n mod 256)).

Definition checksum (b : bytes) : N :=
  fold_left (λ acc x, ((acc * 31 + Byte.to_N x) mod 256)%N) b 7%N.

Definition hash_tag (h : HashAlg) : N :=
  match h with SHA_256 => 1 | SHA_512 => 2 end.

Definition hash_size (h : HashAlg) : nat :=
  match h with SHA_256 => 32 | SHA_512 => 64 end.

(** UTF-8 of code units below 256. *)
Definition utf8_encode (s : string) : bytes :=
  flat_map (λ c, let n := N_of_ascii c in
                 if (n <? 128)%N then [byte_of n]
                 else [byte_of (192 + n / 64); byte_of (128 + n mod 64)])
    (list_ascii_of_string s).

Fixpoint utf8_decode_list (b : list N) : list ascii :=
  match b with
  | [] => []
  | x :: b' =>
      if (x <? 128)%N then ascii_of_N x :: utf8_decode_list b'
      else
        match b' with
        | y :: b'' =>
            if ((194 <=? x) && (x <=? 195) && (128 <=? y) && (y <=? 191))%N
            then ascii_of_N ((x - 192) * 64 + (y - 128))
                   :: utf8_decode_list b''
            else "?"%char :: utf8_decode_list b'
        | [] => ["?"%char]
        end
  end.

Definition utf8_decode (b : bytes) : string :=
  string_of_list_ascii (utf8_decode_list (map Byte.to_N b)).

(** Base64 (RFC 4648) with padding. *)
Definition b64_alphabet : list ascii :=
  list_ascii_of_string
    "ABCDEFGHIJKLMNOPQRSTUVWXYZabcdefghijklmnopqrstuvwxyz0123456789+/".

Definition b64_char (n : N) : ascii :=
  nth (N.to_nat n) b64_alphabet "A"%char.

Definition b64_index (c : ascii) : option N :=
  let n := N_of_ascii c in
  if ((65 <=? n) && (n <=? 90))%N then Some (n - 65)%N
  else if ((97 <=? n) && (n <=? 122))%N then Some (n - 71)%N
  else if ((48 <=? n) && (n <=? 57))%N then Some (n + 4)%N
  else if (n =? 43)%N then Some 62%N
  else if (n =? 47)%N then Some 63%N
  else None.

Fixpoint b64_encode (l : list N) : list ascii :=
  match l with
  | [] => []
  | [a] =>
      [b64_char (a / 4); b64_char (a mod 4 * 16); "="; "="]%char%N
  | [a; b] =>
      [b64_char (a / 4); b64_char (a mod 4 * 16 + b / 16);
       b64_char (b mod 16 * 4); "="%char]%N
  | a :: b :: c :: l' =>
      ([b64_char (a / 4); b64_char (a mod 4 * 16 + b / 16);
        b64_char (b mod 16 * 4 + c / 64); b64_char (c mod 64)]
         ++ b64_encode l')%N
  end.

Fixpoint b64_decode (l : list ascii) : option (list N) :=
  match l with
  | [] => Some []
  | c1 :: c2 :: c3 :: c4 :: l' =>
      match b64_index c1, b64_index c2 with
      | Some s1, Some s2 =>
          let b1 := (s1 * 4 + s2 / 16)%N in
          match b64_index c3, b64_index c4, l' with
          | Some s3, Some s4, _ =>
              let b2 := (s2 mod 16 * 16 + s3 / 4)%N in
              let b3 := (s3 mod 4 * 64 + s4)%N in
              match b64_decode l' with
              | Some r => Some (b1 :: b2 :: b3 :: r)
              | None => None
              end
          | Some s3, None, [] =>
              if Ascii.eqb c4 "=" then
                Some [b1; (s2 mod 16 * 16 + s3 / 4)%N]
              else None
          | None, None, [] =>
              if Ascii.eqb c3 "=" && Ascii.eqb c4 "=" then Some [b1]
              else None
          | _, _, _ => None
          end
      | _, _ => None
      end
  | _ => None
  end.

Definition base64 (b : bytes) : string :=
  string_of_list_ascii (b64_encode (map Byte.to_N b)).

Definition unbase64 (s : string) : option bytes :=
  map byte_of <$> b64_decode (list_ascii_of_string s).

(** Binary strings and byte arrays are the same thing in this model. *)
Definition binary_of (b : bytes) : string :=
  string_of_list_ascii (map ascii_of_byte b).

Definition bytes_of_binary (s : string) : bytes :=
  map byte_of_ascii (list_ascii_of_string s).

(** Decimal digits, least significant first. *)
Fixpoint digits_rev (fuel : nat) (n : N) : list ascii :=
  match fuel with
  | O => []
  | S fuel' =>
      ascii_of_N (48 + n mod 10)
        :: (if (n <? 10)%N then [] else digits_rev fuel' (n / 10)%N)
  end.

(** A comma before every group of three digits but the first. *)
Fixpoint group3 (l : list ascii) (k : nat) : list ascii :=
  match l with
  | [] => []
  | c :: l' =>
      match k with
      | O => ","%char :: c :: group3 l' 2
      | S k' => c :: group3 l' k'
      end
  end.

Definition en_US (z : Z) : string :=
  let n := Z.abs_N z in
  let body :=
    string_of_list_ascii
      (rev (group3 (digits_rev (S (N.to_nat (N.log2 n))) n) 3)) in
  if z <? 0 then "-" +:+ body else body.

#[export] Instance platform : Platform := {|
  textEncode := utf8_encode;
  textDecode := utf8_decode;
  pbkdf2_byte h password salt iters i :=
    byte_of (checksum password + 3 * checksum salt + iters
             + 17 * N.of_nat i + hash_tag h);
  hmac h key data :=
    map (λ i, byte_of (5 * checksum key + checksum data
                       + N.of_nat (i * i) + hash_tag h))
      (seq 0 (hash_size h));
  aesGcmEncrypt key iv pt := byte_of (checksum (key ++ iv)) :: pt;
  aesGcmDecrypt key iv ct :=
    match ct with
    | tag :: pt =>
        if Byte.eqb tag (byte_of (checksum (key ++ iv)))
        then Some pt else None
    | [] => None
    end;
  hasBuffer := false;
  bufferToBase64 := base64;
  bufferFromBase64 s := default [] (unbase64 s);
  btoa s := base64 (bytes_of_binary s);
  atob s := binary_of <$> unbase64 s;
  toLocaleString := en_US;
|}.

(** [JSON] at the type [boolean]. *)
#[export] Instance json_bool : Json bool := {|
  JSON_stringify := λ b : bool, if b then "true" else "false";
  JSON_parse := λ s : string,
    if String.eqb s "true" then Some true
    else if String.eqb s "false" then Some false
    else None;
|}.

(** [JSON] at [PersonRecord], for field values that need no escaping. *)
Fixpoint expect (lit l : list ascii) : option (list ascii) :=
  match lit, l with
  | [], _ => Some l
  | c :: lit', d :: l' => if Ascii.eqb c d then expect lit' l' else None
  | _ :: _, [] => None
  end.

Fixpoint until_quote (l : list ascii) : option (list ascii * list ascii) :=
  match l with
  | [] => None
  | c :: l' =>
      if Ascii.eqb c (ascii_of_N 34) then Some ([], l')
      else prod_map (cons c) id <$> until_quote l'
  end.

Definition quote : string := string_of_list_ascii [ascii_of_N 34].

Definition field (key : string) (l : list ascii)
    : option (string * list ascii) :=
  l1 ← expect (list_ascii_of_string (quote +:+ key +:+ quote +:+ ":"
                                      +:+ quote)) l;
  prod_map string_of_list_ascii id <$> until_quote l1.

Definition person_stringify (p : PersonRecord) : string :=
  let kv key value := quote +:+ key +:+ quote +:+ ":" +:+ quote
                      +:+ value +:+ quote in
  "{" +:+ kv "id" (person_id p) +:+ "," +:+ kv "name" (person_name p)
  +:+ "," +:+ kv "email" (person_email p)
  +:+ "," +:+ kv "city" (person_city p)
  +:+ "," +:+ kv "company" (person_company p) +:+ "}".

Definition person_parse (s : string) : option PersonRecord :=
  l ← expect ["{"%char] (list_ascii_of_string s);
  '(i, l) ← field "id" l;
  l ← expect [","%char] l;
  '(n, l) ← field "name" l;
  l ← expect [","%char] l;
  '(e, l) ← field "email" l;
  l ← expect [","%char] l;
  '(c, l) ← field "city" l;
  l ← expect [","%char] l;
  '(o, l) ← field "company" l;
  match l with
  | ["}"%char] =>
      Some {| person_id := i; person_name := n; person_email := e;
              person_city := c; person_company := o |}
  | _ => None
  end.

#[export] Instance json_person : Json PersonRecord := {|
  JSON_stringify := person_stringify;
  JSON_parse := person_parse;
|}.

End StandIn.

(** ** A sample project

    The three-record dataset of the specification's scenario (Ann, Anna,
    Bob), encrypted and indexed under the demo passphrase the way
    [src/scripts/seed.ts] does it, on the stand-in platform. *)

Module Sample.
Import StandIn.

Definition empty_world : World :=
  {| nowCalls := 0; requests := []; idb := ∅; idbOps := 0 |}.

Definition person (id name email : string) : PersonRecord :=
  {| person_id := id; person_name := name; person_email := email;
     person_city := "Seattle"; person_company := "Orion Labs" |}.

Definition people : list PersonRecord :=
  [person "r1" "Ann Adler" "ann.adler0@example.com";
   person "r2" "Anna Bennett" "anna.bennett1@demo.net";
   person "r3" "Bob Carver" "bob.carver2@labs.io"].

Definition keys : Result DerivedKeys :=
  deriveKeys "demo-passphrase" (getSalt None) DEFAULT_KDF.

(** [encryptJson] of one record, with an iv made of its position. *)
Definition seal (k : nat) (p : PersonRecord) : list EncDoc :=
  match keys with
  | Ok ks =>
      match encryptJson (replicate 12 (byte_of (N.of_nat k))) p (encKey ks)
      with
      | Ok e => [{| doc_id := person_id p; doc_ct := enc_ct e;
                    doc_iv := enc_iv e |}]
      | Err _ => []
      end
  | Err _ => []
  end.

Definition docs : list EncDoc :=
  Eval vm_compute in concat (imap seal people).

Definition token_an : string :=
  Eval vm_compute in
    match keys with
    | Ok ks =>
        match computeToken "an" (indexKey ks) with
        | Ok t => t
        | Err _ => ""
        end
    | Err _ => ""
    end.

(** Seventy-five ids, of which the first three are those of the dataset. *)
Definition many_ids : list string :=
  Eval vm_compute in
    map (λ k, "r" +:+ en_US (Z.of_nat k)) (seq 1 75).

(** The project: one dataset, with the bucket of the prefix "an" in both
    indexes, and the oversized bucket of the prefix "r". Every reading of
    the clock is one tick after the one before. *)
Definition env (ids_an : list string) : Env :=
  {| clock := Z.of_nat;
     dateNow := λ k, 1700000000000 + Z.of_nat k;
     envSalt := None;
     fsCollection := λ path,
       if String.eqb path "datasets/people-1k/records" then docs else [];
     fsRecordIds := λ path,
       if String.eqb path ("datasets/people-1k/index/" +:+ token_an)
       then Some ids_an
       else if String.eqb path "datasets/people-1k/plaintextIndex/an"
       then Some ids_an
       else None;
     fsFails := λ _ _, false;
     idbFails := λ _, false |}.

Definition options (query : string) (modes : list Mode) : Options :=
  {| opt_datasetId := "people-1k"; opt_query := query; opt_modes := modes;
     opt_passphrase := "demo-passphrase"; opt_pqMode := None |}.

(** The keys of the demo passphrase. *)
Definition derived : DerivedKeys :=
  Eval vm_compute in
    match keys with
    | Ok ks => ks
    | Err _ =>
        let none := {| key_algorithm := PBKDF2; key_extractable := false;
                       key_usages := []; key_raw := [] |} in
        {| encKey := none; indexKey := none |}
    end.

(** A project that cannot be reached: every read and every transaction
    fails. *)
Definition offline : Env :=
  {| clock := Z.of_nat; dateNow := Z.of_nat; envSalt := None;
     fsCollection := λ _, []; fsRecordIds := λ _, None;
     fsFails := λ _ _, true; idbFails := λ _, true |}.

End Sample.

(** ** The rest of the modules

    The functions of [src/lib/utils.ts], of the crypto module, of
    [src/lib/benchmark.ts] and of [src/app/page.tsx] that the definitions
    above do not use. *)

(** *** src/lib/utils.ts *)

(** [clamp]: [Math.min(max, Math.max(min, value))], on integers. *)
Definition clamp (value min max : Z) : Z := Z.min max (Z.max min value).

(** *** The crypto module: decoding *)

Section Decoding.
Context `{Platform}.

(** [base64UrlToBytes]: the two replacements, then the padding
    ["==".slice(0, (4 - (value.length % 4)) % 4)], which has at most two
    characters. *)
Definition base64UrlToBytes (value : string) : Result bytes :=
  let replaced :=
    map (λ c : ascii, if Ascii.eqb c "_" then "/"%char else c)
      (map (λ c : ascii, if Ascii.eqb c "-" then "+"%char else c)
         (list_ascii_of_string value)) in
  let padded :=
    string_of_list_ascii replaced
    +:+ JS.stringSlice0 "==" ((4 - String.length value mod 4) mod 4)%nat in
  base64ToBytes padded.

Definition decodePrefixDocId (prefixValue : string) : string := prefixValue.

Definition decodeBase64Url (value : string) : Result bytes :=
  base64UrlToBytes value.

End Decoding.

(** *** src/lib/benchmark.ts: [buildBlindIndexTokens] *)

(** [for (const x of xs) { acc = await f(acc, x) }] in code that touches
    neither the stores nor the clock. *)
Fixpoint foldR {A B} (f : B → A → Result B) (acc : B) (xs : list A)
    : Result B :=
  match xs with
  | [] => Ok acc
  | x :: xs' => result_bind (f acc x) (λ acc', foldR f acc' xs')
  end.

(** [tokenSet.add(token)] on a [Set<string>], kept as the list of its
    elements in insertion order, which is the order of [Array.from]. *)
Definition Set_add (tokenSet : list string) (token : string) : list string :=
  if bool_decide (token ∈ tokenSet) then tokenSet else tokenSet ++ [token].

Section BlindIndex.
Context `{Platform}.

Definition buildBlindIndexTokens (record : PersonRecord)
    (indexKey : CryptoKey) : Result (list string) :=
  let fields := [person_name record; person_email record] in
  foldR (λ tokenSet field,
           foldR (λ tokenSet prefix,
                    result_bind (computeToken prefix indexKey)
                      (λ token, Ok (Set_add tokenSet token)))
             tokenSet (prefixes_default field))
    [] fields.

End BlindIndex.

(** *** src/app/page.tsx: the selection of modes and the CSV log *)

(** [onToggleMode]: the new value of [selectedModes]. *)
Definition onToggleMode (prev : list Mode) (mode : Mode) : list Mode :=
  if bool_decide (mode ∈ prev)
  then List.filter (λ item, negb (bool_decide (item = mode))) prev
  else prev ++ [mode].

(** The checks that [onRunBenchmark] and [onRunMultiple] make before a
    run: [!query.trim()], then [selectedModes.length === 0]. The result is
    the message shown, if any. *)
Definition runGuard (query : string) (selectedModes : list Mode)
    : option string :=
  if String.eqb (string_of_list_ascii (JS.trim (list_ascii_of_string query)))
       ""
  then Some "Enter a search prefix to benchmark."
  else if (length selectedModes =? 0)%nat
       then Some "Pick at least one mode to compare."
       else None.

(** The values that [escapeCsv] is given. *)
Inductive CsvValue : Type :=
  | CsvString (s : string)
  | CsvNumber (n : Z)
  | CsvBoolean (b : bool)
  | CsvNull
  | CsvUndefined.

(** The decimal digits of a natural number, most significant first. *)
Fixpoint digits_loop (fuel : nat) (n : N) (acc : list ascii) : list ascii :=
  match fuel with
  | O => acc
  | S fuel' =>
      let acc' := ascii_of_N (48 + n mod 10) :: acc in
      if (n <? 10)%N then acc' else digits_loop fuel' (n / 10)%N acc'
  end.

(** [String(n)] for an integer [n] (below 10^21 in absolute value, where
    JavaScript still writes all the digits). *)
Definition Number_toString (n : Z) : string :=
  let body :=
    string_of_list_ascii
      (digits_loop (S (N.to_nat (N.log2 (Z.abs_N n)))) (Z.abs_N n) []) in
  if n <? 0 then "-" +:+ body else body.

(** [n.toFixed(1)] for an integer [n]. *)
Definition toFixed1 (n : Z) : string := Number_toString n +:+ ".0".

Definition Mode_name (m : Mode) : string :=
  match m with
  | blindIndex => "blindIndex"
  | decryptScan => "decryptScan"
  | clientCache => "clientCache"
  | plaintextIndex => "plaintextIndex"
  end.

Definition quoteChar : ascii := ascii_of_N 34.

(** [String(value ?? "")] *)
Definition String_of (value : CsvValue) : string :=
  match value with
  | CsvString s => s
  | CsvNumber n => Number_toString n
  | CsvBoolean b => if b then "true" else "false"
  | CsvNull | CsvUndefined => ""
  end.

(** The [replace] of [escapeCsv]: every quote is doubled. *)
Definition doubleQuotes (l : list ascii) : list ascii :=
  flat_map (λ c : ascii, if Ascii.eqb c quoteChar
                         then [quoteChar; quoteChar] else [c]) l.

(** [escapeCsv]: the text of the value between two quotes, every quote in
    it doubled. *)
Definition escapeCsv (value : CsvValue) : string :=
  string_of_list_ascii
    (quoteChar
     :: doubleQuotes (list_ascii_of_string (String_of value))
     ++ [quoteChar]).

Definition CSV_COLUMNS : list string :=
  ["timestamp"; "datasetId"; "datasetSize"; "query"; "mode"; "totalMs";
   "indexMs"; "fetchMs"; "decryptMs"; "scanMs"; "cacheBuildMs";
   "resultCount"; "sampleNote"].

Definition CSV_HEADER : string := String.concat "," CSV_COLUMNS.

Record CsvMeta : Type := {
  meta_timestamp : string;
  meta_datasetId : string;
  meta_datasetSize : Z;
  meta_query : string;
}.

(** The array that [buildCsvRows] makes of one result, before it is
    escaped. [cacheBuildMs ? ... : ""] is empty for an absent build time
    and for one that is 0. *)
Definition csvFields (meta : CsvMeta) (result : BenchmarkResult)
    : list CsvValue :=
  [CsvString (meta_timestamp meta);
   CsvString (meta_datasetId meta);
   CsvNumber (meta_datasetSize meta);
   CsvString (meta_query meta);
   CsvString (Mode_name (mode result));
   CsvString (toFixed1 (totalMs result));
   CsvString (toFixed1 (indexMs (breakdown result)));
   CsvString (toFixed1 (fetchMs (breakdown result)));
   CsvString (toFixed1 (decryptMs (breakdown result)));
   CsvString (toFixed1 (scanMs (breakdown result)));
   CsvString (match cacheBuildMs (breakdown result) with
              | Some ms => if ms =? 0 then "" else toFixed1 ms
              | None => ""
              end);
   CsvNumber (Z.of_nat (resultCount result));
   CsvString (default "" (sampleNote result))].

Definition buildCsvRows (meta : CsvMeta) (results : list BenchmarkResult)
    : list string :=
  map (λ result, String.concat "," (map escapeCsv (csvFields meta result)))
    results.


(** *** src/scripts/seed.ts *)

Definition FIRST_NAMES : list string :=
  ["Avery"; "Blake"; "Cameron"; "Dakota"; "Elliot"; "Finley"; "Harper";
   "Jordan"; "Kai"; "Logan"; "Morgan"; "Parker"; "Quinn"; "Riley"; "Sawyer";
   "Skyler"; "Taylor"; "Rowan"; "Remy"; "Sage"].

Definition LAST_NAMES : list string :=
  ["Adler"; "Bennett"; "Carver"; "Donovan"; "Ellis"; "Fletcher"; "Gibson";
   "Hayes"; "Iverson"; "Jennings"; "Keller"; "Lennon"; "Mercer"; "North";
   "Prescott"; "Quincy"; "Reed"; "Sinclair"; "Tatum"; "Winslow"].

Definition CITIES : list string :=
  ["Seattle"; "Austin"; "Brooklyn"; "Denver"; "Raleigh"; "Portland";
   "Miami"; "Nashville"; "Chicago"; "Boston"].

Definition COMPANIES : list string :=
  ["Orion Labs"; "Juniper Systems"; "Harbor AI"; "Northwind";
   "Atlas Signal"; "Silverline"; "Vertex Capital"; "LumenWorks";
   "Nova Health"; "Vantage"].

Definition DOMAINS : list string :=
  ["example.com"; "mailbox.test"; "demo.net"; "labs.io"].

(** [pick]: [list[seed % list.length]], which is [undefined] for an empty
    list. *)
Definition pick {T} (list : list T) (seed : nat) : option T :=
  list !! (seed mod length list)%nat.

(** What a template literal and a field hold for the value of [pick]; the
    word [undefined] stands for the value [undefined], which does not
    occur: the lists are not empty. *)
Definition picked (value : option string) : string :=
  default "undefined" value.

(** [s.toLowerCase()] on a string. *)
Definition String_toLowerCase (s : string) : string :=
  string_of_list_ascii (JS.toLowerCase (list_ascii_of_string s)).

(** [Omit<PersonRecord, "id">] *)
Record Person : Type := {
  p_name : string;
  p_email : string;
  p_city : string;
  p_company : string;
}.

Definition createPerson (index : nat) : Person :=
  let first := picked (pick FIRST_NAMES (index * 7 + 3)) in
  let last := picked (pick LAST_NAMES (index * 11 + 5)) in
  let city := picked (pick CITIES (index * 13 + 1)) in
  let company := picked (pick COMPANIES (index * 17 + 9)) in
  let domain := picked (pick DOMAINS (index * 19 + 2)) in
  let email :=
    String_toLowerCase
      (first +:+ "." +:+ last +:+ Number_toString (Z.of_nat index)
       +:+ "@" +:+ domain) in
  {| p_name := first +:+ " " +:+ last; p_email := email;
     p_city := city; p_company := company |}.

(** [{ id: ref.id, ...person }] *)
Definition personRecord (id : string) (person : Person) : PersonRecord :=
  {| person_id := id; person_name := p_name person;
     person_email := p_email person; person_city := p_city person;
     person_company := p_company person |}.

(** The writes that the script sends to Firestore, each with
    [{ merge: true }]: the dataset document, a record [{ ct, iv, v: 1 }],
    and an index document [{ recordIds: arrayUnion(...ids), prefix? }]. *)
Inductive Write : Type :=
  | SetDataset (path id : string) (size : nat)
  | SetRecord (path ct iv : string)
  | SetIndex (path : string) (recordIds : list string)
      (prefix : option string).

(** What the script is given: its environment variables, the ids of the
    document references that [doc()] makes, the values of
    [getRandomValues], and which of the commits fail. *)
Record SeedEnv : Type := {
  SEED_PASSPHRASE : option string;
  SEED_PQ_MODE : option string;
  KDF_SALT : option string;
  (** the id of the document reference made for the [i]-th record *)
  newId : nat → string;
  (** the iv drawn for the [i]-th record *)
  newIv : nat → bytes;
  (** whether the [k]-th commit to Firestore fails *)
  commitFails : nat → bool;
}.

(** [process.env.X || fallback]: unset and empty both give the fallback. *)
Definition env_or (value : option string) (fallback : string) : string :=
  match value with
  | Some s => if String.eqb s "" then fallback else s
  | None => fallback
  end.

(** [map.get(key) ?? []], [list.push(recordId)], [map.set(key, list)] on a
    [Map<string, string[]>], kept as its entries in insertion order. *)
Fixpoint Map_append (map : list (string * list string))
    (key recordId : string) : list (string * list string) :=
  match map with
  | [] => [(key, [recordId])]
  | (k, ids) :: map' =>
      if String.eqb k key then (k, ids ++ [recordId]) :: map'
      else (k, ids) :: Map_append map' key recordId
  end.

(** The state of [seedDataset]: the three collections of pending writes,
    and the batches committed so far, oldest first. *)
Record SeedState : Type := {
  recordWrites : list (string * Encrypted);
  indexUpdates : list (string * list string);
  plaintextUpdates : list (string * list string);
  committed : list (list Write);
}.

Section Seed.
Context `{Platform} `{Json PersonRecord} (SE : SeedEnv).
Local Open Scope result_scope.

Definition passphrase : string := env_or (SEED_PASSPHRASE SE) "demo-passphrase".

Definition pqMode : bool :=
  bool_decide (String_toLowerCase (env_or (SEED_PQ_MODE SE) "")
               ∈ ["1"; "true"; "yes"]).

Definition salt : bytes :=
  textEncode (env_or (KDF_SALT SE) "encrypted-search-demo-salt").

(** [await batch.commit()], and [await ref.set(...)] for a single write. *)
Definition commit (batch : list Write) (log : list (list Write))
    : Result (list (list Write)) :=
  if commitFails SE (length log) then Err FirebaseError
  else Ok (log ++ [batch]).

(** [commitBatch] and [commitLocal]; the state of the loop is the open
    batch, its counter and the commits made. *)
Definition commitBatch (st : list Write * nat * list (list Write))
    : Result (list Write * nat * list (list Write)) :=
  let '(batch, opCount, log) := st in
  if (opCount =? 0)%nat then Ok st
  else let? log := commit batch log in Ok ([], 0%nat, log).

(** The loop of [flushBatches] over the record writes, and the loop of
    [queueIndex] over the entries of a map: the write is added to the
    batch, and the batch is committed when it holds 450 writes. *)
Fixpoint queueWrites (items : list Write)
    (st : list Write * nat * list (list Write))
    : Result (list Write * nat * list (list Write)) :=
  match items with
  | [] => Ok st
  | item :: items' =>
      let '(batch, opCount, log) := st in
      let st := (batch ++ [item], (opCount + 1)%nat, log) in
      let? st := if (450 <=? opCount + 1)%nat then commitBatch st
                 else Ok st in
      queueWrites items' st
  end.

(** A loop followed by the commit of the last batch. *)
Definition flushWrites (items : list Write) (log : list (list Write))
    : Result (list (list Write)) :=
  let? st := queueWrites items ([], 0%nat, log) in
  let? st := commitBatch st in
  Ok (snd st).

Definition recordWrite (item : string * Encrypted) : Write :=
  SetRecord (fst item) (enc_ct (snd item)) (enc_iv (snd item)).

Definition indexWrite (datasetId collectionName : string)
    (includePrefixField : bool) (entry : string * list string) : Write :=
  SetIndex ("datasets/" +:+ datasetId +:+ "/" +:+ collectionName +:+ "/"
            +:+ fst entry)
    (snd entry) (if includePrefixField then Some (fst entry) else None).

Definition queueIndex (datasetId collectionName : string)
    (updates : list (string * list string)) (includePrefixField : bool)
    (log : list (list Write)) : Result (list (list Write)) :=
  flushWrites (map (indexWrite datasetId collectionName includePrefixField)
                 updates) log.

Definition flushBatches (recordWrites : list (string * Encrypted))
    (indexUpdates plaintextUpdates : list (string * list string))
    (datasetId : string) (log : list (list Write))
    : Result (list (list Write)) :=
  let? log := flushWrites (map recordWrite recordWrites) log in
  let? log := queueIndex datasetId "index" indexUpdates false log in
  queueIndex datasetId "plaintextIndex" plaintextUpdates true log.

Definition flushIfNeeded (datasetId : string) (currentIndex : nat)
    (st : SeedState) : Result SeedState :=
  if ((currentIndex mod 250 =? 0) && (0 <? length (recordWrites st)))%nat
  then
    let? log := flushBatches (recordWrites st) (indexUpdates st)
                  (plaintextUpdates st) datasetId (committed st) in
    Ok {| recordWrites := []; indexUpdates := []; plaintextUpdates := [];
          committed := log |}
  else Ok st.

(** [new Set([...prefixes(record.name), ...prefixes(record.email)])] *)
Definition searchPrefixes (record : PersonRecord) : list string :=
  foldl Set_add []
    (prefixes_default (person_name record)
     ++ prefixes_default (person_email record)).

(** The body of the loop of [seedDataset], for the record of index [i]. *)
Definition seedRecord (datasetId : string) (keys : DerivedKeys)
    (st : SeedState) (i : nat) : Result SeedState :=
  let id := newId SE i in
  let ref := recordsPath datasetId +:+ "/" +:+ id in
  let record := personRecord id (createPerson i) in
  let? data := encryptJson (newIv SE i) record (encKey keys) in
  let recordWrites := recordWrites st ++ [(ref, data)] in
  let? updates :=
    foldR (λ updates prefix,
             let? token := computeToken prefix (indexKey keys) in
             Ok (Map_append (fst updates) token id,
                 Map_append (snd updates) prefix id))
      (indexUpdates st, plaintextUpdates st) (searchPrefixes record) in
  flushIfNeeded datasetId (i + 1)
    {| recordWrites := recordWrites; indexUpdates := fst updates;
       plaintextUpdates := snd updates; committed := committed st |}.

Definition seedDataset (datasetId : string) (count : nat)
    (log : list (list Write)) : Result (list (list Write)) :=
  let? log :=
    commit [SetDataset ("datasets/" +:+ datasetId) datasetId count] log in
  let? keys :=
    deriveKeys passphrase salt (if pqMode then PQ_KDF else DEFAULT_KDF) in
  let? st :=
    foldR (seedRecord datasetId keys)
      {| recordWrites := []; indexUpdates := []; plaintextUpdates := [];
         committed := log |}
      (seq 0 count) in
  if (0 <? length (recordWrites st))%nat
  then flushBatches (recordWrites st) (indexUpdates st)
         (plaintextUpdates st) datasetId (committed st)
  else Ok (committed st).

End Seed.
(** ** Vocabulary of the further properties *)

(** The platform's base64 encoder writes RFC 4648 base64 with padding, as
    [Buffer.prototype.toString("base64")] and [btoa] do. *)
Definition base64_is_rfc4648 `{Platform} : Prop :=
  ∀ b : bytes, bytesToBase64 b = StandIn.base64 b.

(** A snapshot is filed under its own dataset id, counts its records and
    holds no more of them than its cap. *)
Definition snapshot_ok (key : string) (c : CachedDataset) : Prop :=
  cached_datasetId c = key
  ∧ cached_recordCount c = length (cached_records c)
  ∧ Z.of_nat (cached_recordCount c) ≤ cached_cap c.

Definition cache_ok (store : gmap string CachedDataset) : Prop :=
  ∀ key c, store !! key = Some c → snapshot_ok key c.

(** A text that does not start with white space. *)
Definition starts_clean (l : list ascii) : Prop :=
  match l with
  | [] => True
  | c :: _ => JS.isWhiteSpace c = false
  end.

(** An index document written with [recordId] among its [recordIds]. *)
Definition indexes (writes : list Write) (path : string)
    (prefix : option string) (recordId : string) : Prop :=
  ∃ ids, SetIndex path ids prefix ∈ writes ∧ recordId ∈ ids.

(** The writes that [flushBatches] would send for a state. *)
Definition pendingWrites (datasetId : string) (st : SeedState)
    : list Write :=
  map recordWrite (recordWrites st)
  ++ map (indexWrite datasetId "index" false) (indexUpdates st)
  ++ map (indexWrite datasetId "plaintextIndex" true) (plaintextUpdates st).

(** What seeding the record of index [i] asks of the writes: the record,
    encrypted under its own id, and that id under every prefix of the
    name and of the email in the plaintext index, and under the token of
    every such prefix in the blind index. *)
Definition seeded `{Platform} `{Json PersonRecord} (SE : SeedEnv)
    (datasetId : string) (keys : DerivedKeys) (i : nat)
    (writes : list Write) : Prop :=
  let id := newId SE i in
  let record := personRecord id (createPerson i) in
  (∃ data,
     encryptJson (newIv SE i) record (encKey keys) = Ok data
     ∧ SetRecord (recordsPath datasetId +:+ "/" +:+ id)
         (enc_ct data) (enc_iv data) ∈ writes)
  ∧ ∀ p, p ∈ prefixes_default (person_name record)
         ∨ p ∈ prefixes_default (person_email record) →
      indexes writes (plaintextIndexPath datasetId p) (Some p) id
      ∧ ∃ token, computeToken p (indexKey keys) = Ok token
                 ∧ indexes writes (indexPath datasetId token) None id.

(** An entry of a map of pending index updates that lists [recordId]. *)
Definition covered (updates : list (string * list string))
    (key recordId : string) : Prop :=
  ∃ ids, (key, ids) ∈ updates ∧ recordId ∈ ids.

(** What the loop of [seedDataset] keeps true after [i] records: the
    commits so far are batches of 1 to 450 writes, the maps are empty
    when no record is pending, and the records below [i] are seeded by the
    writes committed and pending. *)
Definition seed_invariant `{Platform} `{Json PersonRecord} (SE : SeedEnv)
    (datasetId : string) (keys : DerivedKeys) (log : list (list Write))
    (i : nat) (st : SeedState) : Prop :=
  ∃ batches,
    committed st = log ++ batches
    ∧ Forall (λ b, (1 ≤ length b ≤ 450)%nat) batches
    ∧ (recordWrites st = [] →
       indexUpdates st = [] ∧ plaintextUpdates st = [])
    ∧ ∀ j, (j < i)%nat →
        seeded SE datasetId keys j
          (concat batches ++ pendingWrites datasetId st).

(** ** More of the sample project *)

Module SampleSeed.
Import StandIn Sample.

(** A seeding run: nothing set in the environment, ids [s0], [s1], ...,
    an iv made of the index of the record, and no commit fails. *)
Definition seedEnv : SeedEnv :=
  {| SEED_PASSPHRASE := None; SEED_PQ_MODE := None; KDF_SALT := None;
     newId := λ i, "s" +:+ Number_toString (Z.of_nat i);
     newIv := λ i, replicate 12 (byte_of (N.of_nat i));
     commitFails := λ _, false |}.

(** A snapshot of the three people. *)
Definition snapshot : CachedDataset :=
  {| cached_datasetId := "people-1k"; cached_records := people;
     cached_builtAt := 1700000000000; cached_recordCount := 3;
     cached_cap := CACHE_CAP; cached_buildMs := Some 5 |}.

Definition meta : CsvMeta :=
  {| meta_timestamp := "2024-01-01T00:00:00.000Z";
     meta_datasetId := "people-1k"; meta_datasetSize := 1000;
     meta_query := "an, ann" |}.

End SampleSeed.


(** * Properties *)

(** ** Reasoning about [M] *)

Lemma bind_inv {A B} (m : M A) (k : A → M B) w r :
  bind m k w = Ok r → ∃ a w1, m w = Ok (a, w1) ∧ k a w1 = Ok r.
Proof. unfold bind. destruct (m w) as [[a w1]|e]; [eauto | done]. Qed.

Lemma bind_Ok {A B} (m : M A) (k : A → M B) w a w1 :
  m w = Ok (a, w1) → bind m k w = k a w1.
Proof. unfold bind. by intros ->. Qed.

Lemma lift_inv {A} (r : Result A) w a w' :
  lift r w = Ok (a, w') → r = Ok a ∧ w' = w.
Proof. unfold lift. destruct r; naive_solver. Qed.

Lemma advance_0 w : advance w 0 [] = w.
Proof.
  destruct w. unfold advance. simpl. f_equal; [lia | apply app_nil_r].
Qed.

Lemma advance_advance w a r b s :
  advance (advance w a r) b s = advance w (a + b) (r ++ s).
Proof.
  unfold advance. simpl. f_equal; [lia | by rewrite <- app_assoc].
Qed.

Lemma advance_eq w a a' r r' :
  a = a' → r = r' → advance w a r = advance w a' r'.
Proof. by intros -> ->. Qed.

(** Split [H : bind m k w = Ok r] into the run of [m] and the run of [k]. *)
Ltac inv_bind H :=
  let a := fresh "a" in
  let w := fresh "w" in
  let Hm := fresh "Hm" in
  apply bind_inv in H as (a & w & Hm & H).

(** Close a goal [advance w a r = advance w a' r']. *)
Ltac advance_simpl :=
  rewrite ?advance_advance; apply advance_eq;
  [lia | simpl; rewrite ?app_nil_r; reflexivity].

Section WorldFacts.
Context (E : Env).

Lemma now_eq w : now E w = Ok (clock E (nowCalls w), advance w 1 []).
Proof.
  unfold now, advance. do 3 f_equal; [lia | by rewrite app_nil_r].
Qed.

Lemma firestore_inv {A} req (answer : A) w a w' :
  firestore E req answer w = Ok (a, w') →
  a = answer ∧ w' = advance w 0 [req]
  ∧ fsFails E (length (requests w)) req = false.
Proof.
  unfold firestore, advance. destruct (fsFails _ _ _); [done|].
  intros [= <- <-]. split_and!; try done. f_equal. lia.
Qed.

Lemma firestore_eq {A} req (answer : A) w :
  fsFails E (length (requests w)) req = false →
  firestore E req answer w = Ok (answer, advance w 0 [req]).
Proof.
  unfold firestore, advance. intros ->. do 3 f_equal. lia.
Qed.

Lemma getCachedDataset_eq ds w :
  getCachedDataset E ds w
  = Ok (cache_lookup E ds w,
        {| nowCalls := nowCalls w; requests := requests w; idb := idb w;
           idbOps := S (idbOps w) |}).
Proof.
  unfold getCachedDataset, cache_lookup. by destruct (idbFails _ _).
Qed.

Lemma lap_nonneg n : clock_monotone E → 0 ≤ lap E n.
Proof.
  intros Hmono. unfold lap.
  pose proof (Hmono n (n + 1)%nat ltac:(lia)). lia.
Qed.

End WorldFacts.

(** ** Lists and strings *)

Lemma slice_window {A} (items : list A) (i n : Z) :
  0 ≤ i → 0 ≤ n →
  JS.slice items i (i + n) = take (Z.to_nat n) (drop (Z.to_nat i) items).
Proof.
  intros Hi Hn. unfold JS.slice.
  destruct (Z.ltb_spec i 0); [lia|].
  destruct (Z.ltb_spec (i + n) 0); [lia|].
  destruct (Z.le_gt_cases (Z.of_nat (length items)) i) as [Hlen|Hlen].
  - rewrite !drop_ge by lia. by rewrite !take_nil.
  - rewrite (Z.min_l i) by lia.
    destruct (Z.le_gt_cases (i + n) (Z.of_nat (length items))).
    + rewrite Z.min_l by lia. f_equal. lia.
    + rewrite Z.min_r by lia.
      rewrite !take_ge; [done | rewrite length_drop; lia ..].
Qed.

Lemma slice_0 {A} (items : list A) (n : nat) :
  JS.slice items 0 (Z.of_nat n) = take n items.
Proof.
  rewrite <- (Z.add_0_l (Z.of_nat n)), slice_window by lia.
  by rewrite Nat2Z.id.
Qed.

Lemma filter_all {A} (f : A → bool) (l : list A) :
  Forall (λ x, f x = true) l → List.filter f l = l.
Proof. induction 1 as [|x l Hx _ IH]; simpl; [done|]. by rewrite Hx, IH. Qed.

Lemma filter_none {A} (f : A → bool) (l : list A) :
  Forall (λ x, f x = false) l → List.filter f l = [].
Proof. induction 1 as [|x l Hx _ IH]; simpl; [done|]. by rewrite Hx. Qed.

Lemma sorted_around {A} (R : A → A → Prop) (l1 l2 : list A) (x : A) :
  StronglySorted R (l1 ++ x :: l2) →
  Forall (λ y, R y x) l1 ∧ Forall (R x) l2.
Proof.
  induction l1 as [|y l1 IH]; simpl; intros Hs.
  - apply StronglySorted_inv in Hs as [_ Hx]. by split.
  - apply StronglySorted_inv in Hs as [Hs Hy].
    destruct (IH Hs) as [H1 H2]. split; [|done].
    constructor; [|done].
    rewrite Forall_app, Forall_cons in Hy. tauto.
Qed.

Lemma ltb_irrefl (s : string) : String.ltb s s = false.
Proof.
  unfold String.ltb. pose proof (String.compare_antisym s s) as Hs.
  destruct (String.compare s s); done.
Qed.

Lemma ltb_asym (s t : string) :
  String.ltb s t = true → String.ltb t s = false.
Proof.
  unfold String.ltb. rewrite (String.compare_antisym s t).
  destruct (String.compare t s); done.
Qed.

(** After the last document of a page come exactly the documents that
    follow the page. *)
Lemma after_last (acc page rest : list EncDoc) (d : EncDoc) :
  ids_ascending (acc ++ page ++ rest) → last page = Some d →
  List.filter (λ x, String.ltb (doc_id d) (doc_id x)) (acc ++ page ++ rest)
  = rest.
Proof.
  intros [Hsorted _] Hlast.
  apply last_Some in Hlast as [page0 ->].
  rewrite <- (app_assoc page0), app_assoc in Hsorted |- *. simpl in *.
  apply sorted_around in Hsorted as [Hbefore Hafter].
  rewrite List.filter_app. simpl. rewrite ltb_irrefl.
  rewrite filter_none, filter_all; [done | done |].
  eapply Forall_impl; [exact Hbefore|]. intros x Hx. by apply ltb_asym.
Qed.

Lemma substring_take (s : string) (i : nat) :
  list_ascii_of_string (String.substring 0 i s)
  = take i (list_ascii_of_string s).
Proof.
  revert i. induction s as [|c s IH]; intros [|i]; simpl; try done.
  by rewrite IH.
Qed.

Lemma length_list_ascii (s : string) :
  length (list_ascii_of_string s) = String.length s.
Proof. induction s; simpl; congruence. Qed.

Lemma rev_eq_nil {A} (l : list A) : rev l = [] ↔ l = [].
Proof.
  split; [|by intros ->].
  intros Hl. apply (f_equal (@rev A)) in Hl.
  by rewrite rev_involutive in Hl.
Qed.

Lemma trimStart_nil l :
  JS.trimStart l = [] ↔ Forall (λ c, JS.isWhiteSpace c = true) l.
Proof.
  induction l as [|c l IH]; simpl.
  - split; [constructor | done].
  - destruct (JS.isWhiteSpace c) eqn:Hc.
    + rewrite IH. split; [by constructor | by inversion 1].
    + split; [done | inversion 1; congruence].
Qed.

Lemma trimStart_blank l :
  Forall (λ c, JS.isWhiteSpace c = true) (JS.trimStart l)
  ↔ Forall (λ c, JS.isWhiteSpace c = true) l.
Proof.
  induction l as [|c l IH]; simpl; [done|].
  destruct (JS.isWhiteSpace c) eqn:Hc; [|done].
  rewrite IH. split; [by constructor | by inversion 1].
Qed.

Lemma collapseWhiteSpace_nil l inRun :
  JS.collapseWhiteSpace inRun l = [] →
  Forall (λ c, JS.isWhiteSpace c = true) l.
Proof.
  revert inRun. induction l as [|c l IH]; intros inRun; simpl; [done|].
  destruct (JS.isWhiteSpace c) eqn:Hc; [|done].
  destruct inRun; [|done]. intros Hl. constructor; [done | by eapply IH].
Qed.

(** The queries that normalize to the empty string are the blank ones. *)
Lemma normalize_empty_iff (value : string) :
  normalize value = ""
  ↔ Forall (λ c, JS.isWhiteSpace c = true) (list_ascii_of_string value).
Proof.
  unfold normalize.
  set (l := list_ascii_of_string value).
  assert (JS.trim l = [] ↔ Forall (λ c, JS.isWhiteSpace c = true) l)
    as Htrim.
  { unfold JS.trim. rewrite rev_eq_nil, trimStart_nil.
    rewrite <- (trimStart_blank l). split; intros Hl.
    - apply Forall_rev in Hl. by rewrite rev_involutive in Hl.
    - by apply Forall_rev. }
  split.
  - intros Hn. apply Htrim.
    apply (f_equal list_ascii_of_string) in Hn.
    rewrite list_ascii_of_string_of_list_ascii in Hn. simpl in Hn.
    destruct (JS.trim l) as [|c t] eqn:Ht; [done|].
    exfalso. simpl in Hn. destruct (JS.isWhiteSpace (JS.toLowerCaseChar c));
      discriminate.
  - intros Hl. apply Htrim in Hl. by rewrite Hl.
Qed.

(** ** The stand-in platform keeps the contracts *)

Module StandInFacts.
Import StandIn.

Ltac divmod := zify; Z.to_euclidean_division_equations; lia.

Lemma b64_index_char (s : N) : (s < 64)%N → b64_index (b64_char s) = Some s.
Proof.
  intros Hs. rewrite <- (N2Nat.id s).
  assert (N.to_nat s < 64)%nat as Hk by lia.
  revert Hk. generalize (N.to_nat s) as k. intros k Hk.
  do 64 (destruct k as [|k]; [reflexivity|]). lia.
Qed.

Lemma b64_decode_encode (l : list N) :
  Forall (λ x, (x < 256)%N) l → b64_decode (b64_encode l) = Some l.
Proof.
  remember (length l) as k eqn:Hk. revert l Hk.
  induction (lt_wf k) as [k _ IH]. intros l -> Hl.
  destruct l as [|a [|b [|c l]]].
  - done.
  - apply Forall_cons in Hl as [Ha _]. cbn [b64_encode b64_decode].
    rewrite !b64_index_char by divmod. cbn.
    do 2 f_equal. divmod.
  - apply Forall_cons in Hl as [Ha Hl]. apply Forall_cons in Hl as [Hb _].
    cbn [b64_encode b64_decode].
    rewrite !b64_index_char by divmod. cbn.
    do 2 f_equal; [divmod|]. f_equal. divmod.
  - apply Forall_cons in Hl as [Ha Hl]. apply Forall_cons in Hl as [Hb Hl].
    apply Forall_cons in Hl as [Hc Hl].
    cbn [b64_encode b64_decode app].
    rewrite !b64_index_char by divmod.
    rewrite (IH (length l)) by (simpl; done || lia).
    do 2 f_equal; [divmod|]. f_equal; [divmod|]. f_equal. divmod.
Qed.

Lemma byte_of_to_N (x : Byte.byte) : byte_of (Byte.to_N x) = x.
Proof.
  unfold byte_of. pose proof (Byte.to_N_bounded x).
  rewrite N.mod_small by lia. by rewrite Byte.of_to_N.
Qed.

Lemma unbase64_base64 (b : bytes) : unbase64 (base64 b) = Some b.
Proof.
  unfold unbase64, base64.
  rewrite list_ascii_of_string_of_list_ascii, b64_decode_encode.
  - simpl. f_equal. rewrite <- list_fmap_compose.
    rewrite <- (list_fmap_id b) at 2. apply list_fmap_ext.
    intros _ x _. apply byte_of_to_N.
  - apply Forall_fmap, Forall_forall. intros x _. simpl.
    pose proof (Byte.to_N_bounded x). lia.
Qed.

Lemma binary_of_bytes_of_binary (s : string) :
  binary_of (bytes_of_binary s) = s.
Proof.
  unfold binary_of, bytes_of_binary.
  rewrite <- list_fmap_compose.
  rewrite <- (string_of_list_ascii_of_string s) at 2. f_equal.
  rewrite <- (list_fmap_id (list_ascii_of_string s)) at 2.
  apply list_fmap_ext. intros _ c _. apply ascii_of_byte_of_ascii.
Qed.

Lemma platform_laws : PlatformLaws platform.
Proof.
  split.
  - intros key iv pt. simpl. by rewrite Byte.byte_dec_lb.
  - intros _ b. simpl. by rewrite unbase64_base64.
  - intros _ s. simpl. rewrite unbase64_base64. simpl.
    by rewrite binary_of_bytes_of_binary.
Qed.

Lemma json_bool_laws : JsonLaws bool platform json_bool.
Proof. split; intros []; reflexivity. Qed.

End StandInFacts.

(** ** [chunk] *)

Section Chunk.
Context {A : Type}.
Implicit Types (items : list A) (out : list (list A)).

(** With a positive size and fuel for one iteration per item and one more,
    the loop ends, and what it appends to [out] are the groups of the items
    from [i] on. *)
Lemma chunk_loop_progress (n : Z) items : 1 ≤ n →
  ∀ fuel i out, 0 ≤ i → (0 < fuel)%nat →
    Z.of_nat (length items) - i < Z.of_nat fuel →
    ∃ groups,
      chunk_loop fuel items n i out = Some (out ++ groups)
      ∧ concat groups = drop (Z.to_nat i) items
      ∧ Forall (λ g, (0 < length g)%nat ∧ Z.of_nat (length g) ≤ n) groups.
Proof.
  intros Hn fuel. induction fuel as [|fuel IH]; intros i out Hi Hpos Hfuel.
  - lia.
  - simpl. destruct (Z.ltb_spec i (Z.of_nat (length items))) as [Hlt|Hge].
    + destruct (IH (i + n) (out ++ [JS.slice items i (i + n)]))
        as (groups & Hrun & Hcat & Hall); [lia..|].
      exists (JS.slice items i (i + n) :: groups). split_and!.
      * rewrite Hrun. f_equal. by rewrite <- app_assoc.
      * simpl. rewrite Hcat, slice_window by lia.
        rewrite Z2Nat.inj_add by lia. rewrite <- drop_drop.
        apply take_drop.
      * constructor; [|done]. rewrite slice_window by lia.
        rewrite length_take, length_drop. lia.
    + exists []. rewrite app_nil_r, drop_ge by lia. by split_and!.
Qed.

(** More fuel does not change the result of a loop that ended. *)
Lemma chunk_loop_more_fuel (n : Z) items fuel fuel' i out groups :
  (fuel ≤ fuel')%nat →
  chunk_loop fuel items n i out = Some groups →
  chunk_loop fuel' items n i out = Some groups.
Proof.
  revert fuel' i out.
  induction fuel as [|fuel IH]; intros fuel' i out Hle; [done|].
  destruct fuel' as [|fuel']; [lia|]. simpl.
  destruct (i <? Z.of_nat (length items)); [|done].
  apply IH. lia.
Qed.

(** With a size that is not positive the loop condition stays true. *)
Lemma chunk_loop_stuck (n : Z) items : n ≤ 0 → items ≠ [] →
  ∀ fuel i out, i ≤ 0 → chunk_loop fuel items n i out = None.
Proof.
  intros Hn Hne fuel. induction fuel as [|fuel IH]; intros i out Hi; [done|].
  simpl. destruct items as [|x items]; [done|].
  destruct (Z.ltb_spec i (Z.of_nat (length (x :: items)))) as [_|Hge].
  - apply IH. lia.
  - simpl in Hge. lia.
Qed.

(** The call of the engine, [chunk(recordIds, 10)]. *)
Lemma chunk_engine items groups :
  chunk (chunk_fuel items) items 10 = Some groups →
  concat groups = items
  ∧ Forall (λ g, (0 < length g)%nat ∧ Z.of_nat (length g) ≤ 10) groups.
Proof.
  unfold chunk, chunk_fuel.
  destruct (chunk_loop_progress 10 items ltac:(lia) (S (length items)) 0 [])
    as (gs & -> & Hcat & Hall); [lia..|].
  intros [= <-]. by rewrite drop_0 in Hcat.
Qed.

(** C10. For a chunk size [n >= 1], [chunk(items, n)] terminates (any fuel
    above the number of items is enough, and the result does not depend on
    it) and returns groups, none empty and none longer than [n], whose
    concatenation is [items]. For [n <= 0] and non-empty [items] the loop
    never terminates: it is still running after any number of iterations. *)
Theorem chunk_groups items (n : Z) :
  (1 ≤ n →
   ∃ groups,
     (∀ fuel, (length items < fuel)%nat → chunk fuel items n = Some groups)
     ∧ concat groups = items
     ∧ Forall (λ g, (0 < length g)%nat ∧ Z.of_nat (length g) ≤ n) groups)
  ∧ (n ≤ 0 → items ≠ [] → ∀ fuel, chunk fuel items n = None).
Proof.
  split.
  - intros Hn.
    destruct (chunk_loop_progress n items Hn (S (length items)) 0 [])
      as (groups & Hrun & Hcat & Hall); [lia..|].
    exists groups. split_and!; [|by rewrite drop_0 in Hcat|done].
    intros fuel Hfuel. unfold chunk.
    apply (chunk_loop_more_fuel n items (S (length items))); [lia|done].
  - intros Hn Hne fuel. by apply chunk_loop_stuck.
Qed.

End Chunk.

(** C10 at work: seven items in groups of three, and one item with the
    chunk size 0. *)
Lemma chunk_groups_witness :
  (∃ groups,
     (∀ fuel, (7 < fuel)%nat →
        chunk fuel [1; 2; 3; 4; 5; 6; 7]%nat 3 = Some groups)
     ∧ concat groups = [1; 2; 3; 4; 5; 6; 7]%nat
     ∧ Forall (λ g, (0 < length g)%nat ∧ Z.of_nat (length g) ≤ 3) groups)
  ∧ (∀ fuel, chunk fuel [1]%nat 0 = None).
Proof.
  split.
  - apply (proj1 (chunk_groups [1; 2; 3; 4; 5; 6; 7]%nat 3)). lia.
  - apply (proj2 (chunk_groups [1]%nat 0)); [lia | done].
Defined.

(** ** [prefixes] *)

Lemma prefixes_loop_unfold (norm : string) (todo i : nat)
    (out : list string) :
  prefixes_loop todo norm i out
  = out ++ map (JS.stringSlice0 norm) (seq i todo).
Proof.
  revert i out. induction todo as [|todo IH]; intros i out; simpl.
  - by rewrite app_nil_r.
  - rewrite IH. by rewrite <- app_assoc.
Qed.

(** C9. [prefixes(text, maxLen)] has [min(maxLen, len)] elements, where
    [len] is the length of the normalized text (none when that minimum is
    not positive), and its [k]-th element, counting from 0, is the prefix of
    length [k + 1] of the normalized text: the prefixes of length
    [1 .. min(maxLen, len)] of the normalized text, in increasing length.
    [prefixes(text)] is [prefixes(text, 20)]. *)
Theorem prefixes_spec (text : string) (maxLen : Z) :
  let chars := list_ascii_of_string (normalize text) in
  let cap := Z.to_nat (Z.min maxLen (Z.of_nat (length chars))) in
  length (prefixes text maxLen) = cap
  ∧ (∀ k, (k < cap)%nat →
       ∃ p, prefixes text maxLen !! k = Some p
            ∧ list_ascii_of_string p = take (S k) chars
            ∧ String.length p = S k)
  ∧ prefixes_default text = prefixes text 20.
Proof.
  intros chars cap. unfold prefixes_default, prefixes.
  rewrite prefixes_loop_unfold. simpl.
  assert (Z.to_nat (Z.min maxLen (Z.of_nat (String.length (normalize text))))
          = cap) as ->.
  { unfold cap, chars. by rewrite length_list_ascii. }
  split_and!; [by rewrite length_map, length_seq | | done].
  intros k Hk. exists (JS.stringSlice0 (normalize text) (S k)).
  split_and!.
  - rewrite list_lookup_fmap, lookup_seq_lt by done. done.
  - apply substring_take.
  - rewrite <- length_list_ascii. unfold JS.stringSlice0.
    rewrite substring_take, length_take. fold chars. lia.
Qed.

(** ** Keys and encryption *)

Section Keys.
Context `{Platform}.

(** What [deriveKeys] does, by the iteration count. *)
Lemma deriveKeys_cases (passphrase : string) (salt : bytes)
    (kdfParams : KdfOptions) :
  let bits := map (pbkdf2_byte SHA_256 (textEncode passphrase) salt
                     (iterations kdfParams)) (seq 0 64) in
  deriveKeys passphrase salt kdfParams
  = if (MAX_ITERATIONS <? iterations kdfParams)%N then Err TypeError
    else if (iterations kdfParams =? 0)%N then Err OperationError
    else Ok {| encKey := {| key_algorithm := AES_GCM;
                            key_extractable := false;
                            key_usages := [UEncrypt; UDecrypt];
                            key_raw := take 32 bits |};
               indexKey := {| key_algorithm := HMAC (hmacHash kdfParams);
                              key_extractable := false;
                              key_usages := [USign];
                              key_raw := drop 32 bits |} |}.
Proof.
  unfold deriveKeys, deriveBits. cbn [importKey result_bind].
  destruct (MAX_ITERATIONS <? iterations kdfParams)%N; [reflexivity|].
  cbn [result_bind].
  destruct (iterations kdfParams =? 0)%N; reflexivity.
Qed.

(** The stream of derived bytes that [deriveKeys] asks for. *)
Lemma deriveKeys_eq (passphrase : string) (salt : bytes)
    (kdfParams : KdfOptions) :
  (1 ≤ iterations kdfParams ≤ MAX_ITERATIONS)%N →
  let bits := map (pbkdf2_byte SHA_256 (textEncode passphrase) salt
                     (iterations kdfParams)) (seq 0 64) in
  deriveKeys passphrase salt kdfParams
  = Ok {| encKey := {| key_algorithm := AES_GCM;
                       key_extractable := false;
                       key_usages := [UEncrypt; UDecrypt];
                       key_raw := take 32 bits |};
          indexKey := {| key_algorithm := HMAC (hmacHash kdfParams);
                         key_extractable := false;
                         key_usages := [USign];
                         key_raw := drop 32 bits |} |}.
Proof.
  intros Hrange bits. rewrite deriveKeys_cases.
  destruct (N.ltb_spec MAX_ITERATIONS (iterations kdfParams)); [lia|].
  destruct (N.eqb_spec (iterations kdfParams) 0); [lia | reflexivity].
Qed.

Lemma deriveKeys_inv (passphrase : string) (salt : bytes)
    (kdfParams : KdfOptions) (keys : DerivedKeys) :
  deriveKeys passphrase salt kdfParams = Ok keys →
  let bits := map (pbkdf2_byte SHA_256 (textEncode passphrase) salt
                     (iterations kdfParams)) (seq 0 64) in
  keys = {| encKey := {| key_algorithm := AES_GCM;
                         key_extractable := false;
                         key_usages := [UEncrypt; UDecrypt];
                         key_raw := take 32 bits |};
            indexKey := {| key_algorithm := HMAC (hmacHash kdfParams);
                           key_extractable := false;
                           key_usages := [USign];
                           key_raw := drop 32 bits |} |}.
Proof.
  rewrite deriveKeys_cases.
  destruct (MAX_ITERATIONS <? iterations kdfParams)%N; [done|].
  destruct (iterations kdfParams =? 0)%N; [done|]. by intros [= <-].
Qed.

(** The two parameter sets of the module are in range. *)
Lemma kdf_iterations (pqMode : bool) :
  (1 ≤ iterations (if pqMode then PQ_KDF else DEFAULT_KDF)
   ≤ MAX_ITERATIONS)%N.
Proof. destruct pqMode; unfold MAX_ITERATIONS; simpl; lia. Qed.

(** C7. With an iteration count that the platform accepts, from 1 to
    [MAX_ITERATIONS], [deriveKeys] imports the passphrase as a PBKDF2 key,
    derives 512 bits with the salt, [kdfParams.iterations] rounds and
    SHA-256 whatever the parameter set, which are exactly 64 bytes; bytes
    [0,32) become the AES-GCM encryption key and bytes [32,64) the HMAC
    index key, whose hash is [kdfParams.hmacHash]. With no iterations, or
    more than [MAX_ITERATIONS], the derivation is refused and [deriveKeys]
    fails. *)
Theorem deriveKeys_layout (passphrase : string) (salt : bytes)
    (kdfParams : KdfOptions) :
  ((1 ≤ iterations kdfParams ≤ MAX_ITERATIONS)%N →
   ∃ baseKey bits,
     importKey (textEncode passphrase) PBKDF2 false [UDeriveBits]
     = Ok baseKey
     ∧ deriveBits salt (iterations kdfParams) SHA_256 baseKey 512 = Ok bits
     ∧ bits = map (pbkdf2_byte SHA_256 (textEncode passphrase) salt
                     (iterations kdfParams)) (seq 0 64)
     ∧ length bits = 64%nat
     ∧ deriveKeys passphrase salt kdfParams
       = Ok {| encKey := {| key_algorithm := AES_GCM;
                            key_extractable := false;
                            key_usages := [UEncrypt; UDecrypt];
                            key_raw := take 32 bits |};
               indexKey := {| key_algorithm := HMAC (hmacHash kdfParams);
                              key_extractable := false;
                              key_usages := [USign];
                              key_raw := drop 32 bits |} |}
     ∧ length (take 32 bits) = 32%nat ∧ length (drop 32 bits) = 32%nat
     ∧ take 32 bits ++ drop 32 bits = bits)
  ∧ (iterations kdfParams = 0%N →
     deriveKeys passphrase salt kdfParams = Err OperationError)
  ∧ ((MAX_ITERATIONS < iterations kdfParams)%N →
     deriveKeys passphrase salt kdfParams = Err TypeError).
Proof.
  split_and!.
  - intros Hrange.
    set (bits := map (pbkdf2_byte SHA_256 (textEncode passphrase) salt
                        (iterations kdfParams)) (seq 0 64)).
    assert (length bits = 64%nat) as Hlen
      by (unfold bits; by rewrite length_map, length_seq).
    exists {| key_algorithm := PBKDF2; key_extractable := false;
              key_usages := [UDeriveBits];
              key_raw := textEncode passphrase |}, bits.
    split; [reflexivity|]. split; [|split; [reflexivity|]].
    { unfold deriveBits.
      destruct (N.ltb_spec MAX_ITERATIONS (iterations kdfParams)); [lia|].
      destruct (N.eqb_spec (iterations kdfParams) 0); [lia | reflexivity]. }
    split; [exact Hlen|]. split; [|split; [|split]].
    + by apply deriveKeys_eq.
    + rewrite length_take. lia.
    + rewrite length_drop. lia.
    + apply take_drop.
  - intros Hzero. rewrite deriveKeys_cases, Hzero. reflexivity.
  - intros Hbig. rewrite deriveKeys_cases.
    by destruct (N.ltb_spec MAX_ITERATIONS (iterations kdfParams)); [|lia].
Qed.

Lemma deriveKeys_encKey passphrase salt options keys :
  deriveKeys passphrase salt options = Ok keys → isEncKey (encKey keys).
Proof.
  intros Hkeys. apply deriveKeys_inv in Hkeys as ->. unfold isEncKey. simpl.
  split_and!; [done | apply elem_of_cons; by left |].
  apply elem_of_cons. right. apply elem_of_cons. by left.
Qed.

Lemma base64ToBytes_bytesToBase64 (b : bytes) :
  PlatformLaws _ → base64ToBytes (bytesToBase64 b) = Ok b.
Proof.
  intros [_ Hbuf Hatob]. unfold base64ToBytes, bytesToBase64.
  destruct hasBuffer.
  - by rewrite Hbuf.
  - rewrite Hatob by done. simpl. f_equal.
    rewrite list_ascii_of_string_of_list_ascii, <- list_fmap_compose.
    rewrite <- (list_fmap_id b) at 2. apply list_fmap_ext.
    intros _ x _. apply byte_of_ascii_of_byte.
Qed.

(** C8. On a platform that keeps its contracts, for every payload [P] of a
    JSON-serializable type, every encryption key [K] and every iv,
    [encryptJson] succeeds and [decryptJson] of the [ct] and [iv] it
    returns, under the same key, gives back [P]. *)
Theorem encrypt_decrypt_roundtrip {T} `{Json T} :
  PlatformLaws _ → JsonLaws T _ _ →
  ∀ (P : T) (K : CryptoKey) (iv : bytes),
    isEncKey K →
    ∃ e, encryptJson iv P K = Ok e
         ∧ decryptJson (enc_ct e) (enc_iv e) K = Ok P.
Proof.
  intros HP [Hparse Hdecode] P K iv (Halg & Henc & Hdec).
  unfold encryptJson, decryptJson, subtle_encrypt, subtle_decrypt, has_usage.
  rewrite !bool_decide_eq_true_2 by done. simpl.
  eexists. split; [done|]. simpl.
  rewrite !base64ToBytes_bytesToBase64 by done. simpl.
  rewrite (aesGcm_roundtrip HP). simpl.
  by rewrite Hdecode, Hparse.
Qed.

End Keys.


(** ** The helpers of [runBenchmark] *)

Section Helpers.
Context `{Platform} `{Json PersonRecord} (E : Env).

Lemma decrypt_loop_eq docs key acc w :
  foldM (λ records doc,
           bind (lift (decryptJson (doc_ct doc) (doc_iv doc) key))
             (λ payload, ret (records ++ [with_id payload (doc_id doc)])))
    acc docs w
  = match decryptAll docs key with
    | Ok records => Ok (acc ++ records, w)
    | Err e => Err e
    end.
Proof.
  revert acc. induction docs as [|doc docs IH]; intros acc; simpl.
  - by rewrite app_nil_r.
  - unfold bind at 1. unfold bind at 1. unfold lift at 1.
    destruct (decryptJson _ _ _) as [payload|e]; simpl; [|done].
    unfold ret at 1. rewrite IH.
    destruct (decryptAll docs key); simpl; [|done].
    by rewrite <- app_assoc.
Qed.

(** [decryptRecords] reads the clock twice and decrypts in between. *)
Lemma decryptRecords_eq docs key w :
  decryptRecords E docs key w
  = match decryptAll docs key with
    | Ok records => Ok ((records, lap E (nowCalls w)), advance w 2 [])
    | Err e => Err e
    end.
Proof.
  unfold decryptRecords.
  rewrite (bind_Ok _ _ _ _ _ (now_eq E w)).
  unfold bind at 1. rewrite decrypt_loop_eq.
  destruct (decryptAll docs key) as [records|e]; [|done]. simpl.
  rewrite (bind_Ok _ _ _ _ _ (now_eq E _)). unfold ret, lap. simpl.
  do 2 f_equal. advance_simpl.
Qed.

Lemma decryptAll_ids docs key records :
  decryptAll docs key = Ok records →
  map person_id records = map doc_id docs.
Proof.
  revert records. induction docs as [|doc docs IH]; intros records; simpl.
  - by intros [= <-].
  - destruct (decryptJson _ _ _) as [payload|]; [|done]. simpl.
    destruct (decryptAll docs key) as [rest|]; [|done]. simpl.
    intros [= <-]. simpl. by rewrite (IH rest).
Qed.

Lemma scanRecords_eq records q w :
  scanRecords E records q w
  = Ok ((List.filter (matchesQuery q) records, lap E (nowCalls w)),
        advance w 2 []).
Proof.
  unfold scanRecords.
  rewrite (bind_Ok _ _ _ _ _ (now_eq E w)).
  rewrite (bind_Ok _ _ _ _ _ (now_eq E _)). unfold ret, lap. simpl.
  do 2 f_equal. advance_simpl.
Qed.

Lemma fetchRecordPage_inv ds pageSize w docs ms w' :
  fetchRecordPage E ds pageSize w = Ok ((docs, ms), w') →
  docs = page_of (fsCollection E (recordsPath ds)) None pageSize
  ∧ ms = lap E (nowCalls w)
  ∧ w' = advance w 2 [GetDocsPage (recordsPath ds) None pageSize].
Proof.
  unfold fetchRecordPage. rewrite (bind_Ok _ _ _ _ _ (now_eq E w)).
  intros Hrun. inv_bind Hrun.
  apply firestore_inv in Hm as (-> & -> & _).
  rewrite (bind_Ok _ _ _ _ _ (now_eq E _)) in Hrun.
  unfold ret in Hrun. injection Hrun as <- <- <-. simpl.
  split_and!; [done | unfold lap; do 2 f_equal; lia | advance_simpl].
Qed.

(** The pagination loop on a collection that has been read up to [acc]:
    when no read fails and the fuel outlasts the documents that remain, it
    reads them page by page, every page but the last one full, each one
    after the last document of the page before, and returns the whole
    collection. *)
Lemma fetchAll_loop_complete (ds : string) (P : Z) :
  1 ≤ P → (∀ k r, fsFails E k r = false) →
  ids_ascending (fsCollection E (recordsPath ds)) →
  ∀ fuel lastId acc rest w,
    fsCollection E (recordsPath ds) = acc ++ rest →
    page_of (fsCollection E (recordsPath ds)) (cursor_of lastId) P
    = take (Z.to_nat P) rest →
    (length rest < fuel)%nat →
    ∃ pages lastPage,
      rest = concat pages ++ lastPage
      ∧ Forall (λ pg, Z.of_nat (length pg) = P) pages
      ∧ Z.of_nat (length lastPage) < P
      ∧ fetchAllRecords_loop E fuel ds P lastId acc w
        = Ok (fsCollection E (recordsPath ds),
              advance w 0
                (GetDocsPage (recordsPath ds) (cursor_of lastId) P
                 :: map (λ pg, GetDocsPage (recordsPath ds)
                                 (doc_id <$> last pg) P) pages)).
Proof.
  intros HP Hup Hasc fuel.
  induction fuel as [|fuel IH]; intros lastId acc rest w Hcoll Hpage Hfuel;
    [lia|].
  simpl. fold (cursor_of lastId). unfold getDocs_page.
  rewrite (bind_Ok _ _ _ _ _ (firestore_eq E _ _ _ (Hup _ _))).
  rewrite Hpage.
  destruct (Z.ltb_spec (Z.of_nat (length (take (Z.to_nat P) rest))) P)
    as [Hshort|Hfull].
  - rewrite length_take in Hshort.
    assert (take (Z.to_nat P) rest = rest) as ->
      by (apply take_ge; lia).
    exists [], rest. split_and!; try done.
    + lia.
    + unfold ret. by rewrite <- Hcoll.
  - rewrite length_take in Hfull.
    assert (length (take (Z.to_nat P) rest) = Z.to_nat P) as Hlen
      by (rewrite length_take; lia).
    destruct (last (take (Z.to_nat P) rest)) as [d|] eqn:Hlast; last first.
    { apply last_None in Hlast. rewrite Hlast in Hlen. simpl in Hlen. lia. }
    assert (fsCollection E (recordsPath ds)
            = acc ++ take (Z.to_nat P) rest ++ drop (Z.to_nat P) rest)
      as Hsplit by (by rewrite take_drop).
    assert (doc_id d ≠ "") as Hid.
    { destruct Hasc as [_ Hne]. rewrite Forall_forall in Hne. apply Hne.
      rewrite Hsplit. apply elem_of_app. right. apply elem_of_app. left.
      apply last_Some in Hlast as [? ->].
      apply elem_of_app. right. constructor. }
    assert (truthy (Some (doc_id d)) = true) as Htruthy.
    { simpl. destruct (String.eqb_spec (doc_id d) ""); done. }
    change (doc_id <$> Some d) with (Some (doc_id d)).
    rewrite Htruthy. change (negb true) with false. cbv iota.
    destruct (IH (Some (doc_id d)) (acc ++ take (Z.to_nat P) rest)
                (drop (Z.to_nat P) rest)
                (advance w 0 [GetDocsPage (recordsPath ds)
                                (cursor_of lastId) P]))
      as (pages & lastPage & Hrest & Hpages & Hshort & Hrun).
    + by rewrite <- app_assoc.
    + unfold cursor_of. rewrite Htruthy. unfold page_of. f_equal.
      rewrite Hsplit in Hasc |- *. by apply after_last.
    + rewrite length_drop. lia.
    + exists (take (Z.to_nat P) rest :: pages), lastPage. split_and!.
      * simpl. rewrite <- app_assoc, <- Hrest. by rewrite take_drop.
      * constructor; [lia | done].
      * done.
      * rewrite Hrun. do 2 f_equal. rewrite advance_advance.
        apply advance_eq; [done|]. simpl. rewrite Hlast. simpl.
        unfold cursor_of at 2. by rewrite Htruthy.
Qed.

Lemma fetchAll_loop_frame ds P fuel lastId acc w docs w' :
  fetchAllRecords_loop E fuel ds P lastId acc w = Ok (docs, w') →
  ∃ reqs, w' = advance w 0 reqs.
Proof.
  revert lastId acc w.
  induction fuel as [|fuel IH]; intros lastId acc w Hrun; [done|].
  simpl in Hrun. inv_bind Hrun.
  apply firestore_inv in Hm as (-> & -> & _).
  destruct (_ <? _).
  { injection Hrun as <- <-. by eexists. }
  destruct (negb _).
  { injection Hrun as <- <-. by eexists. }
  apply IH in Hrun as [reqs ->]. rewrite advance_advance. by eexists.
Qed.

Lemma fetchAllRecords_frame fuel ds P w docs ms w' :
  fetchAllRecords E fuel ds P w = Ok ((docs, ms), w') →
  ms = lap E (nowCalls w) ∧ ∃ reqs, w' = advance w 2 reqs.
Proof.
  unfold fetchAllRecords. rewrite (bind_Ok _ _ _ _ _ (now_eq E w)).
  intros Hrun. inv_bind Hrun.
  apply fetchAll_loop_frame in Hm as [reqs ->].
  rewrite (bind_Ok _ _ _ _ _ (now_eq E _)) in Hrun.
  injection Hrun as <- <- <-. simpl. split.
  - unfold lap. do 2 f_equal. lia.
  - exists reqs. advance_simpl.
Qed.

Lemma fetch_groups_inv path groups acc w docs w' :
  foldM (λ docs group,
           bind (getDocs_in E path group)
             (λ snapshot, ret (docs ++ snapshot)))
    acc groups w = Ok (docs, w') →
  docs = acc ++ flat_map (λ group,
                  List.filter (λ d, bool_decide (doc_id d ∈ group))
                    (fsCollection E path)) groups
  ∧ w' = advance w 0 (map (GetDocsIn path) groups).
Proof.
  revert acc w. induction groups as [|g groups IH]; intros acc w; simpl.
  - intros [= <- <-]. by rewrite app_nil_r, advance_0.
  - intros Hrun. inv_bind Hrun. inv_bind Hm.
    apply firestore_inv in Hm0 as (-> & -> & _).
    injection Hm as <- <-.
    apply IH in Hrun as [-> ->]. split; [by rewrite <- app_assoc|].
    by rewrite advance_advance.
Qed.

Lemma fetchRecordsByIds_inv ds ids w docs ms w' :
  fetchRecordsByIds E ds ids w = Ok ((docs, ms), w') →
  ∃ groups,
    chunk (chunk_fuel ids) ids 10 = Some groups
    ∧ docs = batch_answer E ds groups
    ∧ ms = lap E (nowCalls w)
    ∧ w' = advance w 2 (map (GetDocsIn (recordsPath ds)) groups).
Proof.
  unfold fetchRecordsByIds. rewrite (bind_Ok _ _ _ _ _ (now_eq E w)).
  intros Hrun. inv_bind Hrun. apply lift_inv in Hm as [Hchunk ->].
  destruct (chunk _ _ _) as [groups|]; [|done]. injection Hchunk as <-.
  inv_bind Hrun. apply fetch_groups_inv in Hm as [-> ->].
  rewrite (bind_Ok _ _ _ _ _ (now_eq E _)) in Hrun.
  injection Hrun as <- <- <-. exists groups. simpl. split_and!; try done.
  - unfold lap. do 2 f_equal. lia.
  - advance_simpl.
Qed.

Lemma batch_answer_ids ds groups :
  Forall (λ d, doc_id d ∈ concat groups) (batch_answer E ds groups).
Proof.
  unfold batch_answer. induction groups as [|g groups IH]; simpl.
  - constructor.
  - apply Forall_app. split.
    + apply Forall_forall. intros d Hd.
      apply list_elem_of_In, List.filter_In in Hd as [_ Hd].
      apply bool_decide_eq_true in Hd. apply elem_of_app. by left.
    + eapply Forall_impl; [exact IH|]. intros d Hd.
      apply elem_of_app. by right.
Qed.

Lemma cappedNote_nonempty n : cappedNote n ≠ "".
Proof. unfold cappedNote. done. Qed.

(** ** The four modes *)

Lemma fetchBucket_inv m ds key indexMs bucket w r w' :
  fetchBucket E m ds key indexMs bucket w = Ok (r, w') →
  let ids := default [] bucket in
  let capped := if (MAX_RESULT_FETCH <? length ids)%nat
                then take MAX_RESULT_FETCH ids else ids in
  ∃ groups records,
    chunk (chunk_fuel capped) capped 10 = Some groups
    ∧ decryptAll (batch_answer E ds groups) key = Ok records
    ∧ r = {| mode := m;
             totalMs := indexMs + lap E (nowCalls w)
                        + lap E (nowCalls w + 2);
             breakdown := {| indexMs := indexMs;
                             fetchMs := lap E (nowCalls w);
                             decryptMs := lap E (nowCalls w + 2);
                             scanMs := 0; cacheBuildMs := None |};
             resultCount := length ids;
             sampleNote := if (MAX_RESULT_FETCH <? length ids)%nat
                           then Some (cappedNote (length ids)) else None;
             hits := take MAX_HITS records |}
    ∧ w' = advance w 4 (map (GetDocsIn (recordsPath ds)) groups).
Proof.
  intros Hrun. cbv zeta. unfold fetchBucket in Hrun.
  rewrite !slice_0 in Hrun.
  inv_bind Hrun. destruct a as [docs fetchMs].
  apply fetchRecordsByIds_inv in Hm as (groups & Hchunk & -> & -> & ->).
  inv_bind Hrun. rewrite decryptRecords_eq in Hm.
  destruct (decryptAll _ key) as [records|] eqn:Hdec; [|done].
  injection Hm as <- <-. injection Hrun as <- <-.
  exists groups, records.
  split_and!; [done | done | by rewrite slice_0 | advance_simpl].
Qed.

Lemma runBlindIndex_inv ds q keys w r w' :
  runBlindIndex E ds q keys w = Ok (r, w') →
  ∃ token,
    computeToken q (indexKey keys) = Ok token
    ∧ fetchBucket E blindIndex ds (encKey keys) (lap E (nowCalls w))
        (fsRecordIds E (indexPath ds token))
        (advance w 2 [GetDoc (indexPath ds token)]) = Ok (r, w').
Proof.
  unfold runBlindIndex. rewrite (bind_Ok _ _ _ _ _ (now_eq E w)).
  intros Hrun. inv_bind Hrun. apply lift_inv in Hm as [Htoken ->].
  inv_bind Hrun. apply firestore_inv in Hm as (-> & -> & _).
  rewrite (bind_Ok _ _ _ _ _ (now_eq E _)) in Hrun.
  exists a. split; [done|]. rewrite <- Hrun. simpl. f_equal.
  - unfold lap. do 2 f_equal. lia.
  - advance_simpl.
Qed.

Lemma runPlaintextIndex_inv ds q keys w r w' :
  runPlaintextIndex E ds q keys w = Ok (r, w') →
  fetchBucket E plaintextIndex ds (encKey keys) (lap E (nowCalls w))
    (fsRecordIds E (plaintextIndexPath ds q))
    (advance w 2 [GetDoc (plaintextIndexPath ds q)]) = Ok (r, w').
Proof.
  unfold runPlaintextIndex, encodePrefixDocId.
  rewrite (bind_Ok _ _ _ _ _ (now_eq E w)).
  intros Hrun. inv_bind Hrun. apply firestore_inv in Hm as (-> & -> & _).
  rewrite (bind_Ok _ _ _ _ _ (now_eq E _)) in Hrun.
  rewrite <- Hrun. simpl. f_equal.
  - unfold lap. do 2 f_equal. lia.
  - advance_simpl.
Qed.

Lemma runDecryptScan_inv fuel ds q keys w r w' :
  runDecryptScan E fuel ds q keys w = Ok (r, w') →
  ∃ docs records reqs,
    decryptAll docs (encKey keys) = Ok records
    ∧ r = {| mode := decryptScan;
             totalMs := lap E (nowCalls w) + lap E (nowCalls w + 2)
                        + lap E (nowCalls w + 4);
             breakdown := {| indexMs := 0;
                             fetchMs := lap E (nowCalls w);
                             decryptMs := lap E (nowCalls w + 2);
                             scanMs := lap E (nowCalls w + 4);
                             cacheBuildMs := None |};
             resultCount := length (List.filter (matchesQuery q) records);
             sampleNote := None;
             hits := take MAX_HITS (List.filter (matchesQuery q) records) |}
    ∧ w' = advance w 6 reqs.
Proof.
  unfold runDecryptScan. intros Hrun.
  inv_bind Hrun. destruct a as [docs fetchMs].
  apply fetchAllRecords_frame in Hm as (-> & reqs & ->).
  inv_bind Hrun. rewrite decryptRecords_eq in Hm.
  destruct (decryptAll _ _) as [records|] eqn:Hdec; [|done].
  injection Hm as <- <-.
  inv_bind Hrun. rewrite scanRecords_eq in Hm. injection Hm as <- <-.
  injection Hrun as <- <-.
  exists docs, records, reqs.
  split_and!; [done | | advance_simpl].
  rewrite slice_0. cbn [nowCalls advance].
  by rewrite <- !Nat.add_assoc.
Qed.

(** A warm run of Client Cache: the snapshot is there and can be read. It
    cannot fail and it reads nothing from Firestore. *)
Lemma runClientCache_warm ds q keys w c :
  cache_lookup E ds w = Some c →
  ∃ r,
    runClientCache E ds q keys w
    = Ok (r, {| nowCalls := nowCalls w + 4; requests := requests w;
                idb := idb w; idbOps := S (idbOps w) |})
    ∧ mode r = clientCache
    ∧ totalMs r = lap E (nowCalls w) + lap E (nowCalls w + 2)
    ∧ breakdown r = {| indexMs := 0; fetchMs := lap E (nowCalls w);
                       decryptMs := 0; scanMs := lap E (nowCalls w + 2);
                       cacheBuildMs := cached_buildMs c |}
    ∧ resultCount r = length (searchCache (cached_records c) q)
    ∧ hits r = take MAX_HITS (searchCache (cached_records c) q).
Proof.
  intros Hc. unfold runClientCache.
  rewrite (bind_Ok _ _ _ _ _ (now_eq E w)).
  rewrite (bind_Ok _ _ _ _ _ (getCachedDataset_eq E ds _)).
  change (cache_lookup E ds (advance w 1 [])) with (cache_lookup E ds w).
  rewrite Hc.
  rewrite (bind_Ok _ _ _ _ _ (now_eq E _)).
  unfold bind at 1. unfold ret at 1.
  rewrite (bind_Ok _ _ _ _ _ (now_eq E _)).
  rewrite (bind_Ok _ _ _ _ _ (now_eq E _)).
  eexists. split; [unfold ret; do 2 f_equal|].
  - unfold advance. simpl. f_equal; [lia | by rewrite !app_nil_r].
  - simpl. rewrite slice_0. unfold lap. simpl.
    replace (nowCalls w + 0 + 1)%nat with (nowCalls w + 1)%nat by lia.
    replace (nowCalls w + 1 + 1 + 1)%nat with (nowCalls w + 2 + 1)%nat
      by lia.
    replace (nowCalls w + 1 + 1)%nat with (nowCalls w + 2)%nat by lia.
    done.
Qed.

(** A cold run of Client Cache: no snapshot could be read; one page is
    fetched and decrypted and the snapshot is stored. *)
Lemma runClientCache_cold ds q keys w r w' :
  cache_lookup E ds w = None →
  runClientCache E ds q keys w = Ok (r, w') →
  let n := nowCalls w in
  let pageSize := Z.min (getDatasetSize ds) CACHE_CAP in
  let build := clock E (n + 7) - clock E (n + 2) in
  ∃ records,
    decryptAll (page_of (fsCollection E (recordsPath ds)) None pageSize)
      (encKey keys) = Ok records
    ∧ mode r = clientCache
    ∧ totalMs r = build + lap E (n + 8)
    ∧ breakdown r = {| indexMs := 0; fetchMs := lap E (n + 3);
                       decryptMs := lap E (n + 5);
                       scanMs := lap E (n + 8);
                       cacheBuildMs := Some build |}
    ∧ resultCount r = length (searchCache records q)
    ∧ hits r = take MAX_HITS (searchCache records q)
    ∧ w' = {| nowCalls := n + 10;
              requests := requests w
                          ++ [GetDocsPage (recordsPath ds) None pageSize];
              idb := <[ds := {| cached_datasetId := ds;
                                cached_records := records;
                                cached_builtAt := dateNow E (n + 8);
                                cached_recordCount := length records;
                                cached_cap := CACHE_CAP;
                                cached_buildMs := Some build |}]> (idb w);
              idbOps := S (S (idbOps w)) |}.
Proof.
  intros Hc Hrun. unfold runClientCache in Hrun.
  rewrite (bind_Ok _ _ _ _ _ (now_eq E w)) in Hrun.
  rewrite (bind_Ok _ _ _ _ _ (getCachedDataset_eq E ds _)) in Hrun.
  change (cache_lookup E ds (advance w 1 [])) with (cache_lookup E ds w)
    in Hrun.
  rewrite Hc in Hrun.
  rewrite (bind_Ok _ _ _ _ _ (now_eq E _)) in Hrun.
  inv_bind Hrun.
  destruct a as [[[[cacheBuildMs fetchMs] decryptMs] records] note].
  unfold buildCache in Hm.
  rewrite (bind_Ok _ _ _ _ _ (now_eq E _)) in Hm.
  inv_bind Hm. destruct a as [docs fetched].
  apply fetchRecordPage_inv in Hm0 as (-> & -> & ->).
  inv_bind Hm. rewrite decryptRecords_eq in Hm0.
  destruct (decryptAll _ _) as [decrypted|] eqn:Hdec; [|done].
  injection Hm0 as <- <-.
  rewrite (bind_Ok _ _ _ _ _ (now_eq E _)) in Hm.
  inv_bind Hm. injection Hm0 as <- <-.
  inv_bind Hm. unfold setCachedDataset in Hm0.
  destruct (idbFails _ _); [done|]. injection Hm0 as <- <-.
  injection Hm as <- <- <- <- <- <-.
  rewrite (bind_Ok _ _ _ _ _ (now_eq E _)) in Hrun.
  rewrite (bind_Ok _ _ _ _ _ (now_eq E _)) in Hrun.
  injection Hrun as <- <-.
  exists decrypted. simpl. rewrite slice_0. unfold lap. simpl.
  rewrite !app_nil_r.
  repeat match goal with
  | |- context [(nowCalls w + ?a + ?b)%nat] =>
      let c := eval compute in (a + b)%nat in
      replace (nowCalls w + a + b)%nat with (nowCalls w + c)%nat by lia
  end.
  split_and!; try done.
  unfold advance. simpl. f_equal; [lia | by rewrite !app_nil_r].
Qed.

(** Every mode reports its own name and a total made of its phases. *)
Lemma runMode_mode fuel ds q keys m w r w' :
  runMode E fuel ds q keys m w = Ok (r, w') →
  mode r = m ∧ total_of_phases E ds w r.
Proof.
  destruct m; simpl; intros Hrun.
  - apply runBlindIndex_inv in Hrun as (token & _ & Hrun).
    apply fetchBucket_inv in Hrun as (? & ? & _ & _ & -> & _). done.
  - apply runDecryptScan_inv in Hrun as (? & ? & ? & _ & -> & _). done.
  - destruct (cache_lookup E ds w) as [c|] eqn:Hc.
    + destruct (runClientCache_warm ds q keys w c Hc)
        as (r0 & Hr0 & Hmode & Htotal & Hb & _).
      rewrite Hr0 in Hrun. injection Hrun as <- <-.
      split; [done|]. unfold total_of_phases.
      rewrite Hmode, Hc, Hb, Htotal. by simpl.
    + apply (runClientCache_cold ds q keys w r w' Hc) in Hrun
        as (records & _ & Hmode & Htotal & Hb & _).
      split; [done|]. unfold total_of_phases.
      rewrite Hmode, Hc, Hb, Htotal.
      simpl. split; [done|]. eexists. split; [done|].
      unfold lap.
      replace (nowCalls w + 3 + 1)%nat with (nowCalls w + 4)%nat by lia.
      replace (nowCalls w + 5 + 1)%nat with (nowCalls w + 6)%nat by lia.
      split_and!; try done.
      intros Hmono.
      pose proof (Hmono (nowCalls w + 2) (nowCalls w + 3) ltac:(lia))%nat.
      pose proof (Hmono (nowCalls w + 3) (nowCalls w + 4) ltac:(lia))%nat.
      pose proof (Hmono (nowCalls w + 4) (nowCalls w + 5) ltac:(lia))%nat.
      pose proof (Hmono (nowCalls w + 5) (nowCalls w + 6) ltac:(lia))%nat.
      pose proof (Hmono (nowCalls w + 6) (nowCalls w + 7) ltac:(lia))%nat.
      lia.
  - apply runPlaintextIndex_inv in Hrun.
    apply fetchBucket_inv in Hrun as (? & ? & _ & _ & -> & _). done.
Qed.

End Helpers.

(** ** [runBenchmark] *)

Section Run.
Context `{Platform} `{Json PersonRecord} (E : Env).

(** Every result of the loop over the modes was made by the body of the
    loop, run on the mode at the same position. *)
Lemma run_modes_inv {A} (f : A → M BenchmarkResult) (xs : list A)
    (acc rs : list BenchmarkResult) w w' :
  foldM (λ results x, bind (f x) (λ result, ret (results ++ [result])))
    acc xs w = Ok (rs, w') →
  ∃ rs', rs = acc ++ rs'
         ∧ Forall2 (λ x r, ∃ w1 w2, f x w1 = Ok (r, w2)) xs rs'.
Proof.
  revert acc w. induction xs as [|x xs IH]; intros acc w; simpl.
  - intros [= <- <-]. exists []. by rewrite app_nil_r.
  - intros Hrun. inv_bind Hrun. inv_bind Hm. injection Hm as <- <-.
    apply IH in Hrun as (rs' & -> & Hall).
    exists (a0 :: rs'). split; [by rewrite <- app_assoc|].
    constructor; [eauto | done].
Qed.

(** The loop over the modes runs its body on each mode in turn, each time
    in the world that the iteration before left. *)
Lemma run_modes_looped (f : Mode → M BenchmarkResult) (modes : list Mode)
    (acc rs : list BenchmarkResult) w w' :
  foldM (λ results x, bind (f x) (λ result, ret (results ++ [result])))
    acc modes w = Ok (rs, w') →
  ∃ rs', rs = acc ++ rs'
         ∧ looped (λ m w1 r w2, f m w1 = Ok (r, w2)) modes w rs' w'.
Proof.
  revert acc w. induction modes as [|m modes IH]; intros acc w; simpl.
  - intros [= <- <-]. exists []. split; [by rewrite app_nil_r|].
    constructor.
  - intros Hrun. inv_bind Hrun. inv_bind Hm. injection Hm as <- <-.
    apply IH in Hrun as (rs' & -> & Hall).
    exists (a0 :: rs'). split; [by rewrite <- app_assoc|].
    econstructor; [exact Hm0 | exact Hall].
Qed.

Lemma looped_impl (P Q : Mode → World → BenchmarkResult → World → Prop)
    modes w rs w' :
  (∀ m w1 r w2, P m w1 r w2 → Q m w1 r w2) →
  looped P modes w rs w' → looped Q modes w rs w'.
Proof.
  intros Himpl Hrun.
  induction Hrun; econstructor; eauto.
Qed.

Lemma runBenchmark_empty fuel opts w :
  normalize (opt_query opts) = "" → runBenchmark E fuel opts w = Ok ([], w).
Proof. unfold runBenchmark. by intros ->. Qed.

Lemma runBenchmark_inv fuel opts w rs w' :
  normalize (opt_query opts) ≠ "" →
  runBenchmark E fuel opts w = Ok (rs, w') →
  ∃ keys,
    deriveKeys (opt_passphrase opts) (getSalt (envSalt E))
      (if default false (opt_pqMode opts) then PQ_KDF else DEFAULT_KDF)
    = Ok keys
    ∧ Forall2 (λ m r, ∃ w1 w2,
                 runMode E fuel (opt_datasetId opts)
                   (normalize (opt_query opts)) keys m w1 = Ok (r, w2))
        (opt_modes opts) rs.
Proof.
  intros Hq. unfold runBenchmark.
  destruct (String.eqb_spec (normalize (opt_query opts)) ""); [done|].
  intros Hrun. inv_bind Hrun. apply lift_inv in Hm as [Hkeys ->].
  apply run_modes_inv in Hrun as (rs' & -> & Hall). eauto.
Qed.

(** A run of one mode is the body of the loop, run once. *)
Lemma runBenchmark_single fuel opts w m keys :
  opt_modes opts = [m] → normalize (opt_query opts) ≠ "" →
  deriveKeys (opt_passphrase opts) (getSalt (envSalt E))
    (if default false (opt_pqMode opts) then PQ_KDF else DEFAULT_KDF)
  = Ok keys →
  runBenchmark E fuel opts w
  = match runMode E fuel (opt_datasetId opts) (normalize (opt_query opts))
            keys m w with
    | Ok (r, w') => Ok ([r], w')
    | Err e => Err e
    end.
Proof.
  intros Hm Hq Hkeys. unfold runBenchmark.
  destruct (String.eqb_spec (normalize (opt_query opts)) ""); [done|].
  rewrite Hkeys, Hm. simpl. unfold bind, lift, ret.
  by destruct (runMode _ _ _ _ _ _ _) as [[r w']|].
Qed.

(** C6. When the query normalizes to the empty string, [runBenchmark]
    returns, with no results, whatever the modes, the passphrase, the state
    of the stores and the fuel: nothing is read and no error can arise. *)
Theorem empty_query_short_circuit fuel opts w :
  normalize (opt_query opts) = "" →
  runBenchmark E fuel opts w = Ok ([], w).
Proof. apply runBenchmark_empty. Qed.

(** C1, as amended. A run executes no mode when the query normalizes to
    the empty string, and otherwise the selected modes in turn, each in the
    world that the one before left. In the result of each of them [totalMs]
    is the sum of the phases of the mode, as [total_of_phases] lists them:
    index + fetch + decrypt for the two index modes, with [scanMs = 0];
    fetch + decrypt + scan for Decrypt-and-Scan, with [indexMs = 0]; the
    optional [cacheBuildMs] is absent from the results of these three
    modes. For Client Cache [indexMs = 0], and the rest depends on the
    snapshot when the mode starts. If none can be read (cold), the total is
    [cacheBuildMs + scanMs]; the build is timed from before the fetch to
    after the decryption, which are reported as laps inside it and are not
    added again. If one is read (warm), the total is [fetchMs + scanMs],
    [fetchMs] being the lap around the read of the cache, [decryptMs = 0],
    and [cacheBuildMs] repeats the build time stored with the snapshot. *)
Theorem totalMs_is_sum_of_phases fuel opts w rs w' :
  runBenchmark E fuel opts w = Ok (rs, w') →
  let datasetId := opt_datasetId opts in
  let normalizedQuery := normalize (opt_query opts) in
  looped (λ m w1 r w2,
            (∃ keys,
               runMode E fuel datasetId normalizedQuery keys m w1
               = Ok (r, w2))
            ∧ mode r = m
            ∧ total_of_phases E datasetId w1 r)
    (if String.eqb normalizedQuery "" then [] else opt_modes opts)
    w rs w'.
Proof.
  intros Hrun. cbv zeta. unfold runBenchmark in Hrun.
  destruct (String.eqb (normalize (opt_query opts)) "").
  - injection Hrun as <- <-. constructor.
  - inv_bind Hrun. apply lift_inv in Hm as [Hkeys ->].
    apply run_modes_looped in Hrun as (rs' & -> & Hall). simpl.
    eapply looped_impl; [|exact Hall].
    intros m w1 r w2 Hstep. cbv beta in Hstep.
    split; [by exists a|]. by apply runMode_mode in Hstep.
Qed.

Lemma resultMap_snoc rs r :
  resultMap (rs ++ [r]) = <[mode r := r]> (resultMap rs).
Proof. unfold resultMap. by rewrite foldl_snoc. Qed.

Lemma resultMap_lookup rs m :
  match resultMap rs !! m with
  | Some r => mode r = m ∧ r ∈ rs
  | None => m ∉ map mode rs
  end.
Proof.
  induction rs as [|r rs IH] using rev_ind.
  - unfold resultMap. simpl. rewrite lookup_empty. apply not_elem_of_nil.
  - rewrite resultMap_snoc. destruct (decide (mode r = m)) as [<-|Hne].
    + rewrite lookup_insert_eq. split; [done|].
      apply elem_of_app. right. constructor.
    + rewrite lookup_insert_ne by done.
      destruct (resultMap rs !! m) as [r'|].
      * destruct IH as [Hm Hin]. split; [done|].
        apply elem_of_app. by left.
      * rewrite map_app. intros [Hin|Hin]%elem_of_app; [done|].
        simpl in Hin. apply list_elem_of_singleton in Hin. done.
Qed.

(** The page shows the modes that have a result, in the order of
    [MODE_ORDER]. *)
Lemma resultsByMode_modes rs :
  map mode (resultsByMode rs)
  = List.filter (λ m, bool_decide (m ∈ map mode rs)) MODE_ORDER.
Proof.
  unfold resultsByMode, MODE_ORDER. simpl.
  pose proof (resultMap_lookup rs blindIndex) as H1.
  pose proof (resultMap_lookup rs decryptScan) as H2.
  pose proof (resultMap_lookup rs clientCache) as H3.
  pose proof (resultMap_lookup rs plaintextIndex) as H4.
  destruct (resultMap rs !! blindIndex) as [r1|],
    (resultMap rs !! decryptScan) as [r2|],
    (resultMap rs !! clientCache) as [r3|],
    (resultMap rs !! plaintextIndex) as [r4|]; simpl;
    repeat match goal with
    | H : _ ∧ ?r ∈ rs |- _ =>
        let Hm := fresh in let Hin := fresh in
        destruct H as [Hm Hin];
        apply (list_elem_of_fmap_2 mode) in Hin; rewrite Hm in Hin;
        rewrite ?Hm
    end;
    repeat match goal with
    | |- context [bool_decide (?m ∈ map mode rs)] =>
        first [ rewrite (bool_decide_eq_true_2 (m ∈ map mode rs)) by done
              | rewrite (bool_decide_eq_false_2 (m ∈ map mode rs)) by done ]
    end;
    reflexivity.
Qed.

(** C2, as amended. With a query that does not normalize to the empty
    string, [runBenchmark] returns one result per selected mode in the order
    in which the caller listed the modes; the fixed order is that of the
    page, whose [resultsByMode] lists the selected modes in the order of
    [MODE_ORDER] whatever the order of the selection. *)
Theorem results_follow_selection_order fuel opts w rs w' :
  normalize (opt_query opts) ≠ "" →
  runBenchmark E fuel opts w = Ok (rs, w') →
  map mode rs = opt_modes opts
  ∧ map mode (resultsByMode rs)
    = List.filter (λ m, bool_decide (m ∈ opt_modes opts)) MODE_ORDER.
Proof.
  intros Hq Hrun.
  apply (runBenchmark_inv _ _ _ _ _ Hq) in Hrun as (keys & _ & Hall).
  assert (map mode rs = opt_modes opts) as Hmodes.
  { induction Hall as [|m r ms rs' (w1 & w2 & Hm) _ IH]; simpl; [done|].
    apply runMode_mode in Hm as [-> _]. by rewrite IH. }
  split; [done|]. by rewrite resultsByMode_modes, Hmodes.
Qed.

Lemma fetchBucket_capped m ds key indexMs path w r w' :
  fetchBucket E m ds key indexMs (fsRecordIds E path) w = Ok (r, w') →
  ∃ groups records,
    requests w' = requests w ++ map (GetDocsIn (recordsPath ds)) groups
    ∧ Forall (λ g, (length g ≤ 10)%nat) groups
    ∧ decryptAll (batch_answer E ds groups) key = Ok records
    ∧ hits r = take MAX_HITS records
    ∧ ∀ ids, fsRecordIds E path = Some ids →
        (MAX_RESULT_FETCH < length ids)%nat →
        concat groups = take MAX_RESULT_FETCH ids
        ∧ Forall (λ p, person_id p ∈ take MAX_RESULT_FETCH ids) records
        ∧ resultCount r = length ids
        ∧ (length (hits r) ≤ MAX_HITS)%nat
        ∧ ∃ note, sampleNote r = Some note ∧ note ≠ "".
Proof.
  intros Hrun.
  apply fetchBucket_inv in Hrun
    as (groups & records & Hchunk & Hdec & -> & ->).
  apply chunk_engine in Hchunk as [Hcat Hall].
  exists groups, records. split_and!.
  - done.
  - eapply Forall_impl; [exact Hall|]. simpl. lia.
  - done.
  - done.
  - intros ids Hids Hbig. rewrite Hids in Hcat |- *. simpl in Hcat |- *.
    apply Nat.ltb_lt in Hbig. rewrite Hbig in Hcat |- *.
    split_and!.
    + done.
    + apply decryptAll_ids in Hdec.
      pose proof (batch_answer_ids E ds groups) as Hans.
      rewrite Hcat in Hans.
      apply Forall_forall. intros p Hp.
      apply (list_elem_of_fmap_2 person_id) in Hp.
      change (person_id <$> records) with (map person_id records) in Hp.
      rewrite Hdec in Hp.
      apply list_elem_of_fmap in Hp as (d & -> & Hd).
      rewrite Forall_forall in Hans. by apply Hans.
    + done.
    + rewrite length_take. lia.
    + eexists. split; [done|]. apply cappedNote_nonempty.
Qed.

(** C3. A Blind Index or Plaintext Index iteration that returns [r] has
    read one index document, at [path], then the records in [groups] of at
    most ten ids, and has decrypted the documents that came back; its hits
    are the first [MAX_HITS = 20] of these records. When the bucket of the
    index document holds more than [MAX_RESULT_FETCH = 50] ids, the groups
    are the first 50 ids of the bucket and no other id is asked for, every
    record decrypted is one of these 50, [resultCount] is the size of the
    whole bucket, there are at most 20 hits, and there is a [sampleNote],
    which is not empty. *)
Theorem oversized_bucket_is_capped fuel ds q keys m w r w' :
  m = blindIndex ∨ m = plaintextIndex →
  runMode E fuel ds q keys m w = Ok (r, w') →
  ∃ path groups records,
    requests w'
    = requests w ++ GetDoc path :: map (GetDocsIn (recordsPath ds)) groups
    ∧ Forall (λ g, (length g ≤ 10)%nat) groups
    ∧ decryptAll (batch_answer E ds groups) (encKey keys) = Ok records
    ∧ hits r = take MAX_HITS records
    ∧ ∀ ids, fsRecordIds E path = Some ids →
        (MAX_RESULT_FETCH < length ids)%nat →
        concat groups = take MAX_RESULT_FETCH ids
        ∧ Forall (λ p, person_id p ∈ take MAX_RESULT_FETCH ids) records
        ∧ resultCount r = length ids
        ∧ (length (hits r) ≤ MAX_HITS)%nat
        ∧ ∃ note, sampleNote r = Some note ∧ note ≠ "".
Proof.
  intros [-> | ->] Hrun; simpl in Hrun.
  - apply runBlindIndex_inv in Hrun as (token & _ & Hrun).
    apply fetchBucket_capped in Hrun as (groups & records & Hreq & Hrest).
    exists (indexPath ds token), groups, records. split; [|done].
    rewrite Hreq. simpl. by rewrite <- app_assoc.
  - apply runPlaintextIndex_inv in Hrun.
    apply fetchBucket_capped in Hrun as (groups & records & Hreq & Hrest).
    exists (plaintextIndexPath ds q), groups, records. split; [|done].
    rewrite Hreq. simpl. by rewrite <- app_assoc.
Qed.

(** C4, as amended. After a Client Cache run, a second run with the same
    options, when its read of the snapshot does not fail, succeeds without
    any Firestore read and leaves the cache as it is; it reports
    [decryptMs = 0], the time of the cache read as [fetchMs] (the two
    readings of the clock around [getCachedDataset]), a total of
    [fetchMs + scanMs], and the [resultCount] of the first run. *)
Theorem second_cache_run_is_warm fuel opts w0 rs1 w1 :
  opt_modes opts = [clientCache] →
  normalize (opt_query opts) ≠ "" →
  runBenchmark E fuel opts w0 = Ok (rs1, w1) →
  idbFails E (idbOps w1) = false →
  ∃ r1 r2 w2,
    rs1 = [r1]
    ∧ runBenchmark E fuel opts w1 = Ok ([r2], w2)
    ∧ requests w2 = requests w1
    ∧ idb w2 = idb w1
    ∧ decryptMs (breakdown r2) = 0
    ∧ fetchMs (breakdown r2)
      = clock E (nowCalls w1 + 1) - clock E (nowCalls w1)
    ∧ totalMs r2 = fetchMs (breakdown r2) + scanMs (breakdown r2)
    ∧ resultCount r2 = resultCount r1.
Proof.
  intros Hmodes Hq Hrun Hup.
  destruct (runBenchmark_inv _ _ _ _ _ Hq Hrun) as (keys & Hkeys & _).
  rewrite (runBenchmark_single _ _ _ _ _ Hmodes Hq Hkeys) in Hrun.
  rewrite (runBenchmark_single _ _ _ _ _ Hmodes Hq Hkeys).
  simpl in Hrun |- *.
  destruct (runClientCache E _ _ keys w0) as [[r1 w1']|] eqn:Hfirst;
    [|done].
  injection Hrun as <- <-.
  set (ds := opt_datasetId opts) in *.
  set (q := normalize (opt_query opts)) in *.
  assert (∃ c, cache_lookup E ds w1' = Some c
               ∧ resultCount r1 = length (searchCache (cached_records c) q))
    as (c & Hc & Hcount).
  { unfold cache_lookup at 1. rewrite Hup.
    destruct (cache_lookup E ds w0) as [c|] eqn:Hc0.
    - destruct (runClientCache_warm E ds q keys w0 c Hc0)
        as (r & Hr & _ & _ & _ & Hn & _).
      rewrite Hr in Hfirst. injection Hfirst as <- <-. simpl.
      exists c. split; [|done].
      unfold cache_lookup in Hc0. by destruct (idbFails E (idbOps w0)).
    - apply (runClientCache_cold E ds q keys w0 r1 w1' Hc0) in Hfirst
        as (records & _ & _ & _ & _ & Hn & _ & ->). simpl.
      eexists. rewrite lookup_insert_eq. split; [done|]. by simpl. }
  destruct (runClientCache_warm E ds q keys w1' c Hc)
    as (r2 & -> & _ & Htotal & Hb & Hn & _).
  exists r1, r2. eexists. split_and!; try done.
  - by rewrite Hb.
  - by rewrite Hb.
  - by rewrite Hb.
  - congruence.
Qed.

(** A text starts with [q] when it is [q] followed by the rest of it. *)
Lemma prefix_iff_append (q text : string) :
  String.prefix q text = true ↔ ∃ rest, text = q +:+ rest.
Proof.
  revert text. induction q as [|c q IH]; intros text.
  - split; [intros _; by exists text | by destruct text].
  - destruct text as [|d text]; simpl.
    + split; [done | by intros [rest ?]].
    + destruct (ascii_dec c d) as [<-|Hne].
      * rewrite IH. split; intros [rest Hrest]; exists rest.
        -- by rewrite Hrest.
        -- by injection Hrest.
      * split; [done|]. intros [rest Hrest]. by injection Hrest.
Qed.

(** C5. When no Firestore read fails, the collection is in ascending order
    of its non-empty document ids and the fuel outlasts it, the
    Decrypt-and-Scan iteration reads the collection in pages of
    [FULL_SCAN_PAGE_SIZE]: the first from the start, each next one after
    the last document of the full page before it, until a page comes back
    short. The pages make up the whole collection. Every document is then
    decrypted: if one does not decrypt the iteration fails with that error;
    otherwise the matches are the records, among all of them and in their
    order, whose normalized name or normalized email starts with the query,
    that is, is the query followed by some rest; [resultCount] counts the
    matches, the hits are the first [MAX_HITS] of them, and there is no
    [sampleNote]. *)
Theorem decryptScan_examines_every_record fuel ds q keys w :
  let path := recordsPath ds in
  let coll := fsCollection E path in
  (∀ k r, fsFails E k r = false) →
  ids_ascending coll →
  (length coll < fuel)%nat →
  ∃ pages lastPage,
    coll = concat pages ++ lastPage
    ∧ Forall (λ pg, Z.of_nat (length pg) = FULL_SCAN_PAGE_SIZE) pages
    ∧ Z.of_nat (length lastPage) < FULL_SCAN_PAGE_SIZE
    ∧ match decryptAll coll (encKey keys) with
      | Err e => runMode E fuel ds q keys decryptScan w = Err e
      | Ok records =>
          ∃ r w' matches,
            runMode E fuel ds q keys decryptScan w = Ok (r, w')
            ∧ requests w'
              = requests w
                ++ GetDocsPage path None FULL_SCAN_PAGE_SIZE
                :: map (λ pg, GetDocsPage path (doc_id <$> last pg)
                                FULL_SCAN_PAGE_SIZE) pages
            ∧ matches
              = List.filter
                  (λ record,
                     String.prefix q (normalize (person_name record))
                     || String.prefix q (normalize (person_email record)))
                  records
            ∧ (∀ record,
                 record ∈ matches
                 ↔ record ∈ records
                   ∧ ((∃ rest, normalize (person_name record) = q +:+ rest)
                      ∨ (∃ rest,
                           normalize (person_email record) = q +:+ rest)))
            ∧ resultCount r = length matches
            ∧ hits r = take MAX_HITS matches
            ∧ sampleNote r = None
      end.
Proof.
  intros path coll Hup Hasc Hfuel.
  destruct (fetchAll_loop_complete E ds FULL_SCAN_PAGE_SIZE ltac:(done)
              Hup Hasc fuel None [] coll (advance w 1 []))
    as (pages & lastPage & Hcoll & Hpages & Hshort & Hloop);
    [done | done | done |].
  exists pages, lastPage. split_and!; try done.
  assert (fetchAllRecords E fuel ds FULL_SCAN_PAGE_SIZE w
          = Ok ((coll, lap E (nowCalls w)),
                advance w 2
                  (GetDocsPage path None FULL_SCAN_PAGE_SIZE
                   :: map (λ pg, GetDocsPage path (doc_id <$> last pg)
                                   FULL_SCAN_PAGE_SIZE) pages)))
    as Hfetch.
  { unfold fetchAllRecords.
    rewrite (bind_Ok _ _ _ _ _ (now_eq E w)).
    rewrite (bind_Ok _ _ _ _ _ Hloop).
    rewrite (bind_Ok _ _ _ _ _ (now_eq E _)).
    unfold ret, lap. simpl. rewrite Nat.add_0_r. do 2 f_equal.
    advance_simpl. }
  unfold runMode, runDecryptScan.
  destruct (decryptAll coll (encKey keys)) as [records|e] eqn:Hdec.
  - rewrite (bind_Ok _ _ _ _ _ Hfetch).
    unfold bind at 1. rewrite decryptRecords_eq.
    fold path. fold coll. rewrite Hdec.
    rewrite (bind_Ok _ _ _ _ _ (scanRecords_eq E _ _ _)).
    eexists _, _, _. split; [reflexivity|]. simpl. rewrite slice_0.
    split_and!; try done.
    + by rewrite !app_nil_r.
    + intros record. rewrite !list_elem_of_In, filter_In.
      unfold matchesQuery, JS.startsWith. cbv zeta.
      by rewrite orb_true_iff, !prefix_iff_append.
  - rewrite (bind_Ok _ _ _ _ _ Hfetch).
    unfold bind at 1. rewrite decryptRecords_eq.
    fold path. fold coll. by rewrite Hdec.
Qed.

End Run.

(** ** The theorems at work on the sample project *)

Module Scenarios.
Import StandIn Sample.

(** Run [m] and hand its result and the world after it to [k]. *)
Ltac evaluate m k :=
  let run := eval vm_compute in m in
  lazymatch run with
  | Ok (?a, ?w) => k a w
  end.

(** C8 at work: a boolean payload under the encryption key of the demo
    passphrase, on the stand-in platform. *)
Lemma encrypt_decrypt_roundtrip_witness :
  ∃ e,
    encryptJson (replicate 12 Byte.x2a) true (encKey derived) = Ok e
    ∧ decryptJson (enc_ct e) (enc_iv e) (encKey derived) = Ok true.
Proof.
  apply (encrypt_decrypt_roundtrip (H := platform) (H0 := json_bool)).
  - exact StandInFacts.platform_laws.
  - exact StandInFacts.json_bool_laws.
  - unfold isEncKey. simpl.
    split_and!; [done | apply elem_of_cons; by left |].
    apply elem_of_cons. right. apply elem_of_cons. by left.
Defined.

(** C7 at work: the keys of the demo passphrase under the default
    parameters, and two parameter sets that the platform refuses. *)
Lemma deriveKeys_layout_witness :
  (∃ keys,
     deriveKeys "demo-passphrase" (getSalt None) DEFAULT_KDF = Ok keys
     ∧ key_algorithm (encKey keys) = AES_GCM
     ∧ length (key_raw (encKey keys)) = 32%nat
     ∧ key_algorithm (indexKey keys) = HMAC SHA_256
     ∧ length (key_raw (indexKey keys)) = 32%nat)
  ∧ deriveKeys "demo-passphrase" (getSalt None)
      {| iterations := 0; hmacHash := SHA_256 |} = Err OperationError
  ∧ deriveKeys "demo-passphrase" (getSalt None)
      {| iterations := 4294967296; hmacHash := SHA_256 |} = Err TypeError.
Proof.
  split_and!.
  - destruct (proj1 (deriveKeys_layout "demo-passphrase" (getSalt None)
                       DEFAULT_KDF))
      as (baseKey & bits & _ & _ & _ & _ & Hkeys & Henc & Hidx & _).
    + unfold MAX_ITERATIONS. simpl. lia.
    + eexists. split; [exact Hkeys|]. simpl.
      split_and!; [reflexivity | exact Henc | reflexivity | exact Hidx].
  - apply (proj1 (proj2 (deriveKeys_layout "demo-passphrase" (getSalt None)
                           {| iterations := 0; hmacHash := SHA_256 |}))).
    reflexivity.
  - apply (proj2 (proj2 (deriveKeys_layout "demo-passphrase" (getSalt None)
                           {| iterations := 4294967296;
                              hmacHash := SHA_256 |}))).
    reflexivity.
Defined.

(** C6 at work: a query of blanks, all four modes, no fuel, and a project
    that cannot be reached. *)
Lemma empty_query_short_circuit_witness :
  runBenchmark offline 0
    (options "   " [blindIndex; decryptScan; clientCache; plaintextIndex])
    empty_world
  = Ok ([], empty_world).
Proof.
  apply (empty_query_short_circuit offline). vm_compute. reflexivity.
Defined.

(** C1 at work: the four modes and a second Client Cache, cold the first
    time and warm the second. *)
Lemma totalMs_is_sum_of_phases_witness :
  ∃ rs w',
    runBenchmark (env ["r1"; "r2"]) 5
      (options " An" [blindIndex; decryptScan; clientCache; plaintextIndex;
                      clientCache])
      empty_world = Ok (rs, w')
    ∧ looped (λ m w1 r w2,
                (∃ keys,
                   runMode (env ["r1"; "r2"]) 5 "people-1k" "an" keys m w1
                   = Ok (r, w2))
                ∧ mode r = m
                ∧ total_of_phases (env ["r1"; "r2"]) "people-1k" w1 r)
        [blindIndex; decryptScan; clientCache; plaintextIndex; clientCache]
        empty_world rs w'.
Proof.
  evaluate (runBenchmark (env ["r1"; "r2"]) 5
              (options " An" [blindIndex; decryptScan; clientCache;
                              plaintextIndex; clientCache])
              empty_world) ltac:(fun rs w' =>
    exists rs, w';
    assert (runBenchmark (env ["r1"; "r2"]) 5
              (options " An" [blindIndex; decryptScan; clientCache;
                              plaintextIndex; clientCache])
              empty_world = Ok (rs, w')) as Hrun
      by (vm_compute; reflexivity);
    split; [exact Hrun|];
    exact (totalMs_is_sum_of_phases (env ["r1"; "r2"]) 5
             (options " An" [blindIndex; decryptScan; clientCache;
                             plaintextIndex; clientCache])
             empty_world rs w' Hrun)).
Defined.

(** C1 as stated fails. On a clock that advances by one tick from each
    reading to the next, a run of Blind Index and of a cold Client Cache:
    the Blind Index breakdown has no [cacheBuildMs] at all, and the Client
    Cache result reports fetch 1, decrypt 1, scan 1 and cache build 5, which
    add up to 8, with a total of 6 (cache build + scan). *)
Lemma breakdown_sum_counterexample :
  ∃ r1 r2 w',
    runBenchmark (env ["r1"; "r2"]) 5
      (options "an" [blindIndex; clientCache]) empty_world
    = Ok ([r1; r2], w')
    ∧ ¬ reports_every_phase (breakdown r1)
    ∧ breakdown r2 = {| indexMs := 0; fetchMs := 1; decryptMs := 1;
                        scanMs := 1; cacheBuildMs := Some 5 |}
    ∧ totalMs r2 = 6
    ∧ totalMs r2 ≠ sum_of_breakdown (breakdown r2).
Proof.
  eexists _, _, _. split; [vm_compute; reflexivity|].
  split_and!; [| reflexivity | reflexivity | vm_compute; discriminate].
  unfold reports_every_phase. simpl. intros [build Hbuild]. discriminate.
Defined.

(** C2 at work: Plaintext Index selected before Blind Index. *)
Lemma results_follow_selection_order_witness :
  ∃ rs w',
    runBenchmark (env ["r1"; "r2"]) 5
      (options "an" [plaintextIndex; blindIndex]) empty_world = Ok (rs, w')
    ∧ map mode rs = [plaintextIndex; blindIndex]
    ∧ map mode (resultsByMode rs) = [blindIndex; plaintextIndex].
Proof.
  evaluate (runBenchmark (env ["r1"; "r2"]) 5
              (options "an" [plaintextIndex; blindIndex]) empty_world)
    ltac:(fun rs w' =>
      exists rs, w'; split; [vm_compute; reflexivity|];
      apply (results_follow_selection_order (env ["r1"; "r2"]) 5
               (options "an" [plaintextIndex; blindIndex]) empty_world
               rs w')).
  - vm_compute. discriminate.
  - vm_compute. reflexivity.
Defined.

(** C2 as stated fails. The same two modes selected in the two possible
    orders come back in the two orders: no order of the modes, fixed once
    and for all, is followed by both sequences. *)
Lemma selection_order_counterexample :
  ∃ rs1 w1 rs2 w2,
    runBenchmark (env ["r1"; "r2"]) 5
      (options "an" [plaintextIndex; blindIndex]) empty_world = Ok (rs1, w1)
    ∧ runBenchmark (env ["r1"; "r2"]) 5
        (options "an" [blindIndex; plaintextIndex]) empty_world
      = Ok (rs2, w2)
    ∧ map mode rs1 = [plaintextIndex; blindIndex]
    ∧ map mode rs2 = [blindIndex; plaintextIndex]
    ∧ ¬ ∃ order, listed_in order (map mode rs1)
                 ∧ listed_in order (map mode rs2).
Proof.
  eexists _, _, _, _. split; [vm_compute; reflexivity|].
  split; [vm_compute; reflexivity|].
  split; [reflexivity|]. split; [reflexivity|].
  intros (order & H1 & H2). unfold listed_in in H1, H2. simpl in H1, H2.
  rewrite (List.filter_ext
             (λ m, bool_decide (m ∈ [blindIndex; plaintextIndex]))
             (λ m, bool_decide (m ∈ [plaintextIndex; blindIndex])))
    in H2 by (intros []; reflexivity).
  rewrite <- H1 in H2. discriminate.
Defined.

(** C3 at work, the scenario of the specification: the bucket of the token
    of "an" holds 75 ids. *)
Lemma oversized_bucket_is_capped_witness :
  ∃ r w',
    runMode (env many_ids) 5 "people-1k" "an" derived blindIndex empty_world
    = Ok (r, w')
    ∧ resultCount r = 75%nat
    ∧ (length (hits r) ≤ 20)%nat
    ∧ ∃ note, sampleNote r = Some note ∧ note ≠ "".
Proof.
  evaluate (runMode (env many_ids) 5 "people-1k" "an" derived blindIndex
              empty_world) ltac:(fun r w' =>
    exists r, w';
    assert (runMode (env many_ids) 5 "people-1k" "an" derived blindIndex
              empty_world = Ok (r, w')) as Hrun
      by (vm_compute; reflexivity);
    split; [exact Hrun|];
    destruct (oversized_bucket_is_capped (env many_ids) 5 "people-1k" "an"
                derived blindIndex empty_world r w' (or_introl eq_refl) Hrun)
      as (path & groups & records & Hreq & _ & _ & _ & Hcapped)).
  injection Hreq as <- _.
  assert (fsRecordIds (env many_ids)
            ("datasets/people-1k/index/" +:+ token_an) = Some many_ids)
    as Hbucket by reflexivity.
  assert (MAX_RESULT_FETCH < length many_ids)%nat as Hbig
    by (vm_compute; lia).
  destruct (Hcapped many_ids Hbucket Hbig)
    as (_ & _ & Hcount & Hhits & Hnote).
  split_and!; done.
Defined.

(** C4 at work: a cold run and the run after it. *)
Lemma second_cache_run_is_warm_witness :
  ∃ rs1 w1,
    runBenchmark (env ["r1"; "r2"]) 5 (options "an" [clientCache])
      empty_world = Ok (rs1, w1)
    ∧ ∃ r1 r2 w2,
        rs1 = [r1]
        ∧ runBenchmark (env ["r1"; "r2"]) 5 (options "an" [clientCache]) w1
          = Ok ([r2], w2)
        ∧ requests w2 = requests w1
        ∧ idb w2 = idb w1
        ∧ decryptMs (breakdown r2) = 0
        ∧ fetchMs (breakdown r2)
          = clock (env ["r1"; "r2"]) (nowCalls w1 + 1)
            - clock (env ["r1"; "r2"]) (nowCalls w1)
        ∧ totalMs r2 = fetchMs (breakdown r2) + scanMs (breakdown r2)
        ∧ resultCount r2 = resultCount r1.
Proof.
  evaluate (runBenchmark (env ["r1"; "r2"]) 5 (options "an" [clientCache])
              empty_world) ltac:(fun rs1 w1 =>
    exists rs1, w1; split; [vm_compute; reflexivity|];
    apply (second_cache_run_is_warm (env ["r1"; "r2"]) 5
             (options "an" [clientCache]) empty_world rs1 w1)).
  - reflexivity.
  - vm_compute. discriminate.
  - vm_compute. reflexivity.
  - reflexivity.
Defined.

(** C4 as stated fails. The second of two consecutive Client Cache runs
    reads nothing from Firestore and reports [decryptMs = 0], but its
    [fetchMs] is the time of the cache read: one tick here, not 0. *)
Lemma second_run_fetchMs_counterexample :
  ∃ rs1 w1 r2 w2,
    runBenchmark (env ["r1"; "r2"]) 5 (options "an" [clientCache])
      empty_world = Ok (rs1, w1)
    ∧ runBenchmark (env ["r1"; "r2"]) 5 (options "an" [clientCache]) w1
      = Ok ([r2], w2)
    ∧ requests w2 = requests w1
    ∧ decryptMs (breakdown r2) = 0
    ∧ fetchMs (breakdown r2) = 1
    ∧ fetchMs (breakdown r2) ≠ 0.
Proof.
  eexists _, _, _, _. split; [vm_compute; reflexivity|].
  split; [vm_compute; reflexivity|].
  split_and!; [reflexivity | reflexivity | reflexivity | discriminate].
Defined.

(** C5 at work, the scenario of the specification: of Ann, Anna and Bob the
    query "an" finds two, by their names; and the query "bob.c" finds Bob
    by his email, his name being "bob carver". *)
Lemma decryptScan_examines_every_record_witness :
  (∃ r w',
     runMode (env ["r1"; "r2"]) 5 "people-1k" "an" derived decryptScan
       empty_world = Ok (r, w')
     ∧ requests w' = [GetDocsPage "datasets/people-1k/records" None 1000]
     ∧ resultCount r = 2%nat
     ∧ map person_name (hits r) = ["Ann Adler"; "Anna Bennett"])
  ∧ (∃ r w',
       runMode (env ["r1"; "r2"]) 5 "people-1k" "bob.c" derived decryptScan
         empty_world = Ok (r, w')
       ∧ resultCount r = 1%nat
       ∧ map person_email (hits r) = ["bob.carver2@labs.io"]).
Proof.
  assert (∀ q, ∃ r w',
            runMode (env ["r1"; "r2"]) 5 "people-1k" q derived decryptScan
              empty_world = Ok (r, w')
            ∧ requests w'
              = [GetDocsPage "datasets/people-1k/records" None 1000]
            ∧ resultCount r
              = length
                  (List.filter
                     (λ record,
                        String.prefix q (normalize (person_name record))
                        || String.prefix q
                             (normalize (person_email record)))
                     people)
            ∧ hits r
              = take MAX_HITS
                  (List.filter
                     (λ record,
                        String.prefix q (normalize (person_name record))
                        || String.prefix q
                             (normalize (person_email record)))
                     people)) as Hscan.
  { intros q.
    pose proof (decryptScan_examines_every_record (env ["r1"; "r2"]) 5
                  "people-1k" q derived empty_world) as Hscan.
    cbv zeta in Hscan.
    destruct Hscan as (pages & lastPage & Hcoll & Hpages & Hshort & Hrun).
    - intros k r. reflexivity.
    - split.
      + repeat constructor.
      + repeat constructor; discriminate.
    - simpl. lia.
    - assert (pages = []) as ->.
      { destruct pages as [|pg pages]; [done|].
        apply Forall_cons in Hpages as [Hpg _].
        apply (f_equal length) in Hcoll. simpl in Hcoll.
        rewrite !length_app in Hcoll. unfold FULL_SCAN_PAGE_SIZE in Hpg.
        lia. }
      assert (decryptAll
                (fsCollection (env ["r1"; "r2"]) (recordsPath "people-1k"))
                (encKey derived) = Ok people) as Hdec
        by (vm_compute; reflexivity).
      rewrite Hdec in Hrun.
      destruct Hrun as (r & w' & matches & Hr & Hreq & -> & _ & Hn & Hh & _).
      exists r, w'. split; [exact Hr|]. split; [exact Hreq|].
      split; [exact Hn | exact Hh]. }
  split.
  - destruct (Hscan "an") as (r & w' & Hr & Hreq & Hn & Hh).
    exists r, w'. split; [exact Hr|]. split; [exact Hreq|].
    split; [rewrite Hn | rewrite Hh]; vm_compute; reflexivity.
  - destruct (Hscan "bob.c") as (r & w' & Hr & _ & Hn & Hh).
    exists r, w'. split; [exact Hr|].
    split; [rewrite Hn | rewrite Hh]; vm_compute; reflexivity.
Defined.

End Scenarios.

(** ** Examples *)

Module Examples.
Import StandIn Sample.

Example normalize_name : normalize "  Ann   ADLER " = "ann adler".
Proof. reflexivity. Qed.

Example normalize_blank : normalize "   " = "".
Proof. reflexivity. Qed.

Example prefixes_ann : prefixes_default " Ann" = ["a"; "an"; "ann"].
Proof. reflexivity. Qed.

Example prefixes_ann_2 : prefixes "Ann" 2 = ["a"; "an"].
Proof. reflexivity. Qed.

Example prefixes_negative : prefixes "Ann" (-1) = [].
Proof. reflexivity. Qed.

Example slice_middle : JS.slice [1; 2; 3; 4; 5]%nat 1 3 = [2; 3]%nat.
Proof. reflexivity. Qed.

Example slice_from_end : JS.slice [1; 2; 3; 4; 5]%nat (-2) 7 = [4; 5]%nat.
Proof. reflexivity. Qed.

Example chunk_seven_by_three :
  chunk 8 [1; 2; 3; 4; 5; 6; 7]%nat 3
  = Some [[1; 2; 3]; [4; 5; 6]; [7]]%nat.
Proof. reflexivity. Qed.

Example chunk_negative_size : chunk 1000 [1; 2]%nat (-1) = None.
Proof. reflexivity. Qed.

Example base64_hello : bytesToBase64 (textEncode "hello") = "aGVsbG8=".
Proof. reflexivity. Qed.

Example token_is_base64url :
  computeToken "an" (indexKey derived) = Ok token_an.
Proof. reflexivity. Qed.

Example dataset_sizes :
  getDatasetSize "people-10k" = 10000 ∧ getDatasetSize "elsewhere" = 1000.
Proof. split; reflexivity. Qed.

(** The scenario of the specification: records Ann, Anna and Bob, query
    "an". Blind Index and Decrypt-and-Scan both find Ann and Anna. *)
Example ann_anna_bob :
  ∃ a b w',
    runBenchmark (env ["r1"; "r2"]) 5 (options "an" [blindIndex; decryptScan])
      empty_world = Ok ([a; b], w')
    ∧ resultCount a = 2%nat ∧ resultCount b = 2%nat
    ∧ map person_name (hits a) = ["Ann Adler"; "Anna Bennett"]
    ∧ hits b = hits a.
Proof.
  eexists _, _, _. split; [vm_compute; reflexivity|].
  split_and!; reflexivity.
Qed.

(** The scenario of the specification: the index was written with the
    default parameter set and is read with the PQ one. The token differs,
    the bucket is absent and Blind Index finds nothing, without an error. *)
Example kdf_mismatch :
  ∃ r w',
    runBenchmark (env ["r1"; "r2"]) 5
      {| opt_datasetId := "people-1k"; opt_query := "an";
         opt_modes := [blindIndex]; opt_passphrase := "demo-passphrase";
         opt_pqMode := Some true |}
      empty_world = Ok ([r], w')
    ∧ resultCount r = 0%nat ∧ hits r = [].
Proof.
  eexists _, _. split; [vm_compute; reflexivity|]. split; reflexivity.
Qed.

(** A store failure aborts the run: the second Firestore read fails. *)
Example store_failure :
  runBenchmark
    {| clock := Z.of_nat; dateNow := Z.of_nat; envSalt := None;
       fsCollection := fsCollection (env ["r1"; "r2"]);
       fsRecordIds := fsRecordIds (env ["r1"; "r2"]);
       fsFails := λ k _, (k =? 1)%nat; idbFails := λ _, false |}
    5 (options "an" [blindIndex; plaintextIndex]) empty_world
  = Err FirebaseError.
Proof. vm_compute. reflexivity. Qed.

(** A record that was tampered with aborts Decrypt-and-Scan. *)
Example tampered_record :
  runBenchmark
    {| clock := Z.of_nat; dateNow := Z.of_nat; envSalt := None;
       fsCollection := λ _, [{| doc_id := "r1"; doc_ct := "AAAA";
                                doc_iv := "AAAAAAAAAAAAAAAA" |}];
       fsRecordIds := λ _, None;
       fsFails := λ _ _, false; idbFails := λ _, false |}
    5 (options "an" [decryptScan]) empty_world
  = Err OperationError.
Proof. vm_compute. reflexivity. Qed.

(** The earlier copy of the module, on the 75-id bucket: all 75 ids are
    asked for, in eight groups, [resultCount] is the number of records that
    came back, and there is no note. *)
Example part002_no_cap :
  ∃ r w',
    Part002.runBenchmark (env many_ids) (options "an" [blindIndex])
      empty_world = Ok ([r], w')
    ∧ length (requests w') = 9%nat
    ∧ resultCount r = 3%nat
    ∧ sampleNote r = None.
Proof.
  eexists _, _. split; [vm_compute; reflexivity|]. split_and!; reflexivity.
Qed.

(** The earlier copy of the module samples in Decrypt-and-Scan: of the
    10,000 records of [people-10k] it reads one page of 2,000. *)
Example part002_samples :
  ∃ r w',
    Part002.runBenchmark (env [])
      {| opt_datasetId := "people-10k"; opt_query := "an";
         opt_modes := [decryptScan]; opt_passphrase := "demo-passphrase";
         opt_pqMode := None |}
      empty_world = Ok ([r], w')
    ∧ requests w' = [GetDocsPage "datasets/people-10k/records" None 2000]
    ∧ sampleNote r = Some "Sampled first 2,000 of ~10,000 records.".
Proof.
  eexists _, _. split; [vm_compute; reflexivity|]. split; reflexivity.
Qed.

(** The earlier copy of the module does not time the cache read: a warm
    run reports [fetchMs = 0] and a total of [scanMs]. *)
Example part002_warm_cache :
  ∃ cold warm w',
    Part002.runBenchmark (env ["r1"; "r2"])
      (options "an" [clientCache; clientCache]) empty_world
    = Ok ([cold; warm], w')
    ∧ fetchMs (breakdown warm) = 0
    ∧ decryptMs (breakdown warm) = 0
    ∧ totalMs warm = scanMs (breakdown warm)
    ∧ resultCount warm = resultCount cold.
Proof.
  eexists _, _, _. split; [vm_compute; reflexivity|]. split_and!; reflexivity.
Qed.

End Examples.

(** * Further properties *)

(** ** [normalize] *)

Lemma isWhiteSpace_toLowerCaseChar c :
  JS.isWhiteSpace (JS.toLowerCaseChar c) = JS.isWhiteSpace c.
Proof. destruct c as [[] [] [] [] [] [] [] []]; reflexivity. Qed.

Lemma toLowerCaseChar_idemp c :
  JS.toLowerCaseChar (JS.toLowerCaseChar c) = JS.toLowerCaseChar c.
Proof. destruct c as [[] [] [] [] [] [] [] []]; reflexivity. Qed.

Lemma trimStart_clean l : starts_clean l → JS.trimStart l = l.
Proof. destruct l as [|c l]; simpl; [done|]. by intros ->. Qed.

Lemma starts_clean_trimStart l : starts_clean (JS.trimStart l).
Proof.
  induction l as [|c l IH]; simpl; [done|].
  destruct (JS.isWhiteSpace c) eqn:Hc; [done|]. simpl. done.
Qed.

Lemma trimStart_suffix l : ∃ pre, l = pre ++ JS.trimStart l.
Proof.
  induction l as [|c l [pre IH]]; simpl; [by exists []|].
  destruct (JS.isWhiteSpace c).
  - exists (c :: pre). simpl. by rewrite <- IH.
  - by exists [].
Qed.

Lemma starts_clean_app l1 l2 :
  starts_clean (l1 ++ l2) → starts_clean l1.
Proof. destruct l1; simpl; done. Qed.

Lemma trim_clean l :
  starts_clean (JS.trim l) ∧ starts_clean (rev (JS.trim l)).
Proof.
  unfold JS.trim. split.
  - destruct (trimStart_suffix (rev (JS.trimStart l))) as [pre Hpre].
    apply (f_equal (@rev ascii)) in Hpre.
    rewrite rev_involutive, rev_app_distr in Hpre.
    apply (starts_clean_app _ (rev pre)). rewrite <- Hpre.
    apply starts_clean_trimStart.
  - rewrite rev_involutive. apply starts_clean_trimStart.
Qed.

Lemma trim_of_clean l :
  starts_clean l → starts_clean (rev l) → JS.trim l = l.
Proof.
  intros H1 H2. unfold JS.trim.
  rewrite (trimStart_clean l H1), (trimStart_clean _ H2).
  apply rev_involutive.
Qed.

Lemma starts_clean_toLowerCase l :
  starts_clean l → starts_clean (JS.toLowerCase l).
Proof.
  destruct l as [|c l]; simpl; [done|].
  by rewrite isWhiteSpace_toLowerCaseChar.
Qed.

Lemma collapseWhiteSpace_snoc inRun l c :
  JS.isWhiteSpace c = false →
  JS.collapseWhiteSpace inRun (l ++ [c])
  = JS.collapseWhiteSpace inRun l ++ [c].
Proof.
  intros Hc. revert inRun.
  induction l as [|d l IH]; intros inRun; simpl.
  - by rewrite Hc.
  - destruct (JS.isWhiteSpace d); [destruct inRun|]; simpl;
      by rewrite IH.
Qed.

Lemma starts_clean_collapse l :
  starts_clean l → starts_clean (JS.collapseWhiteSpace false l).
Proof. destruct l as [|c l]; simpl; [done|]. intros Hc. by rewrite Hc. Qed.

Lemma ends_clean_collapse l :
  starts_clean (rev l) → starts_clean (rev (JS.collapseWhiteSpace false l)).
Proof.
  destruct l as [|c l _] using rev_ind; [done|].
  rewrite rev_app_distr. simpl. intros Hc.
  rewrite collapseWhiteSpace_snoc by done.
  by rewrite rev_app_distr.
Qed.

Lemma collapseWhiteSpace_idemp inRun l :
  JS.collapseWhiteSpace inRun (JS.collapseWhiteSpace inRun l)
  = JS.collapseWhiteSpace inRun l.
Proof.
  revert inRun. induction l as [|c l IH]; intros inRun; simpl; [done|].
  destruct (JS.isWhiteSpace c) eqn:Hc.
  - destruct inRun; [apply IH|]. simpl. by rewrite IH.
  - simpl. by rewrite Hc, IH.
Qed.

Lemma toLowerCase_collapse inRun l :
  JS.toLowerCase (JS.collapseWhiteSpace inRun l)
  = JS.collapseWhiteSpace inRun (JS.toLowerCase l).
Proof.
  revert inRun. induction l as [|c l IH]; intros inRun; simpl; [done|].
  rewrite isWhiteSpace_toLowerCaseChar.
  destruct (JS.isWhiteSpace c); [destruct inRun|]; simpl;
    by rewrite IH.
Qed.

Lemma toLowerCase_idemp l :
  JS.toLowerCase (JS.toLowerCase l) = JS.toLowerCase l.
Proof.
  unfold JS.toLowerCase. rewrite <- list_fmap_compose.
  apply list_fmap_ext. intros _ c _. apply toLowerCaseChar_idemp.
Qed.

(** What [normalize] returns is left alone by each of its three steps. *)
Lemma normalize_fixed (l : list ascii) :
  let m := JS.collapseWhiteSpace false (JS.toLowerCase (JS.trim l)) in
  JS.trim m = m ∧ JS.toLowerCase m = m ∧ JS.collapseWhiteSpace false m = m.
Proof.
  intros m. destruct (trim_clean l) as [Hhead Hlast]. split_and!.
  - apply trim_of_clean.
    + by apply starts_clean_collapse, starts_clean_toLowerCase.
    + apply ends_clean_collapse. unfold JS.toLowerCase.
      rewrite <- map_rev. by apply starts_clean_toLowerCase.
  - unfold m. by rewrite toLowerCase_collapse, toLowerCase_idemp.
  - apply collapseWhiteSpace_idemp.
Qed.

(** X1. Normalizing twice is normalizing once: a normalized text has no
    white space at either end, no upper-case letter and no white space but
    single spaces, so [normalize] leaves it as it is. *)
Theorem normalize_idempotent (value : string) :
  normalize (normalize value) = normalize value.
Proof.
  unfold normalize. rewrite list_ascii_of_string_of_list_ascii.
  destruct (normalize_fixed (list_ascii_of_string value))
    as (Htrim & Hlower & Hcollapse).
  by rewrite Htrim, Hlower, Hcollapse.
Qed.

(** ** [prefixes] and [startsWith] *)

Lemma length_substring0 (s : string) (i : nat) :
  String.length (String.substring 0 i s) = (i `min` String.length s)%nat.
Proof.
  rewrite <- !length_list_ascii, substring_take, length_take. done.
Qed.

Lemma prefix_length (q s : string) :
  String.prefix q s = true → (String.length q ≤ String.length s)%nat.
Proof.
  intros Hp. apply String.prefix_correct in Hp.
  apply (f_equal String.length) in Hp. rewrite length_substring0 in Hp. lia.
Qed.

Lemma prefix_trans (p q s : string) :
  String.prefix p q = true → String.prefix q s = true →
  String.prefix p s = true.
Proof.
  revert p q. induction s as [|e s IH]; intros p q Hpq Hqs.
  - destruct q; [done|]. by destruct p.
  - destruct p as [|c p]; [done|]. destruct q as [|d q]; [done|].
    simpl in *.
    destruct (Ascii.ascii_dec c d) as [->|]; [|done].
    destruct (Ascii.ascii_dec d e) as [->|]; [|done].
    by apply (IH p q).
Qed.

(** The elements of [prefixes(value, maxLen)]. *)
Lemma elem_of_prefixes (value : string) (maxLen : Z) (q : string) :
  q ∈ prefixes value maxLen
  ↔ q ≠ "" ∧ Z.of_nat (String.length q) ≤ maxLen
    ∧ JS.startsWith (normalize value) q = true.
Proof.
  unfold prefixes, JS.startsWith. rewrite prefixes_loop_unfold. simpl.
  set (norm := normalize value). rewrite list_elem_of_fmap. split.
  - intros (i & -> & Hi). apply elem_of_seq in Hi.
    assert (String.length (JS.stringSlice0 norm i) = i) as Hlen.
    { unfold JS.stringSlice0. rewrite length_substring0. lia. }
    split_and!.
    + intros Hq. rewrite Hq in Hlen. simpl in Hlen. lia.
    + lia.
    + apply String.prefix_correct. by rewrite Hlen.
  - intros (Hne & Hmax & Hp). exists (String.length q). split.
    + apply String.prefix_correct in Hp. by rewrite <- Hp at 1.
    + apply prefix_length in Hp. apply elem_of_seq.
      destruct q; [done|]. simpl in *. lia.
Qed.

(** X2. A text [q] is one of [prefixes(value, maxLen)] exactly when it is
    not empty, has at most [maxLen] characters and the normalized value
    starts with it. So a look-up in an index built from [prefixes] agrees
    with the [startsWith] test of the scans for queries of up to [maxLen]
    characters, and finds nothing for longer ones. *)
Theorem prefixes_iff_startsWith (value : string) (maxLen : Z) (q : string) :
  (q ∈ prefixes value maxLen
   ↔ q ≠ "" ∧ Z.of_nat (String.length q) ≤ maxLen
     ∧ JS.startsWith (normalize value) q = true)
  ∧ (maxLen < Z.of_nat (String.length q) → q ∉ prefixes value maxLen).
Proof.
  split; [apply elem_of_prefixes|].
  intros Hlong Hin. apply elem_of_prefixes in Hin. lia.
Qed.

(** ** [searchCache] *)

Lemma matchesQuery_prefix (q1 q2 : string) (r : PersonRecord) :
  JS.startsWith q2 q1 = true → matchesQuery q2 r = true →
  matchesQuery q1 r = true.
Proof.
  unfold matchesQuery, JS.startsWith. intros Hq Hm.
  apply orb_true_iff in Hm as [Hm|Hm]; apply orb_true_iff;
    [left | right]; by apply (prefix_trans q1 q2).
Qed.

Lemma prefix_empty (s : string) : String.prefix "" s = true.
Proof. by destruct s. Qed.

(** X3. Searching refines: when the query [q2] starts with the query [q1],
    the records found for [q2] are those found for [q2] among the records
    found for [q1], so a longer query never finds a record that a shorter
    one missed; and the empty query finds every record. *)
Theorem searchCache_refines (records : list PersonRecord) (q1 q2 : string) :
  JS.startsWith q2 q1 = true →
  searchCache (searchCache records q1) q2 = searchCache records q2
  ∧ searchCache records q2 ⊆ searchCache records q1
  ∧ searchCache records "" = records.
Proof.
  intros Hq. unfold searchCache. split_and!.
  - induction records as [|r records IH]; simpl; [done|].
    destruct (matchesQuery q2 r) eqn:H2.
    + rewrite (matchesQuery_prefix q1 q2 r Hq H2). simpl.
      by rewrite H2, IH.
    + destruct (matchesQuery q1 r); simpl; [by rewrite H2|done].
  - intros r Hr. apply list_elem_of_In, filter_In in Hr as [Hin Hm].
    apply list_elem_of_In, filter_In. split; [done|].
    by apply (matchesQuery_prefix q1 q2).
  - apply filter_all, Forall_forall. intros r _.
    unfold matchesQuery, JS.startsWith. by rewrite prefix_empty.
Qed.

(** ** Tokens and base64url *)

Lemma rev_replicate {A} (k : nat) (x : A) :
  rev (replicate k x) = replicate k x.
Proof.
  induction k as [|k IH]; [done|]. simpl. rewrite IH.
  symmetry. apply replicate_cons_app.
Qed.

Lemma last_rev {A} (r : list A) : last (rev r) = head r.
Proof. destruct r as [|x r]; [done|]. simpl. apply last_snoc. Qed.

(** [replace(/=+$/g, "")] takes a run of [=] off the end, and what is left
    does not end with [=]. *)
Lemma stripTrailingEquals_split (l : list ascii) :
  ∃ k, l = stripTrailingEquals l ++ replicate k "="%char
       ∧ last (stripTrailingEquals l) ≠ Some "="%char.
Proof.
  unfold stripTrailingEquals.
  set (go := fix go (r : list ascii) : list ascii :=
               match r with
               | c :: r' => if Ascii.eqb c "=" then go r' else r
               | [] => []
               end).
  assert (∀ r, ∃ k, r = replicate k "="%char ++ go r
                    ∧ head (go r) ≠ Some "="%char) as Hgo.
  { induction r as [|c r (k & Hk & Hhead)]; [by exists 0%nat|]. simpl.
    destruct (Ascii.eqb_spec c "=") as [->|Hc].
    - exists (S k). simpl. by rewrite <- Hk.
    - exists 0%nat. split; [done|]. simpl. congruence. }
  destruct (Hgo (rev l)) as (k & Hk & Hhead). exists k. split.
  - apply (f_equal (@rev ascii)) in Hk.
    rewrite rev_involutive, rev_app_distr, rev_replicate in Hk. done.
  - by rewrite last_rev.
Qed.

Lemma stripTrailingEquals_app (l : list ascii) (k : nat) :
  Forall (λ c, c ≠ "="%char) l →
  stripTrailingEquals (l ++ replicate k "="%char) = l.
Proof.
  intros Hl.
  destruct (stripTrailingEquals_split (l ++ replicate k "="%char))
    as (k' & Hsplit & Hlast).
  set (t := stripTrailingEquals (l ++ replicate k "="%char)) in *.
  clearbody t. revert t Hsplit Hlast.
  induction l as [|c l IH]; intros t Hsplit Hlast.
  - simpl in Hsplit. destruct t as [|d t _] using rev_ind; [done|].
    exfalso. rewrite last_snoc in Hlast.
    assert (d ∈ replicate k "="%char) as Hd.
    { rewrite Hsplit, <- app_assoc. apply elem_of_app. right.
      apply elem_of_cons. by left. }
    apply elem_of_replicate_inv in Hd. congruence.
  - apply Forall_cons in Hl as [Hc Hl]. destruct t as [|d t].
    + exfalso. simpl in Hsplit.
      assert (c ∈ replicate k' "="%char) as Hd
        by (rewrite <- Hsplit; apply elem_of_cons; by left).
      by apply elem_of_replicate_inv in Hd.
    + simpl in Hsplit. injection Hsplit as -> Hsplit. f_equal.
      apply IH; [done | done |]. by destruct t.
Qed.

Lemma string_of_list_ascii_app (l1 l2 : list ascii) :
  string_of_list_ascii (l1 ++ l2)
  = string_of_list_ascii l1 +:+ string_of_list_ascii l2.
Proof. induction l1 as [|c l1 IH]; [done|]. simpl. by rewrite IH. Qed.

Section Tokens.
Context `{Platform}.

Lemma bytesToBase64Url_chars (b : bytes) :
  let chars := list_ascii_of_string (bytesToBase64Url b) in
  ("/"%char ∉ chars) ∧ ("+"%char ∉ chars) ∧ last chars ≠ Some "="%char.
Proof.
  unfold bytesToBase64Url. simpl.
  rewrite list_ascii_of_string_of_list_ascii.
  set (l := map _ (map _ _)).
  destruct (stripTrailingEquals_split l) as (k & Hsplit & Hlast).
  assert (Forall (λ c, c ≠ "/"%char ∧ c ≠ "+"%char) l) as Hl.
  { unfold l. rewrite <- list_fmap_compose. apply Forall_fmap, Forall_forall.
    intros c _. simpl.
    destruct (Ascii.eqb_spec c "+") as [->|Hplus]; [done|].
    destruct (Ascii.eqb_spec c "/") as [->|Hslash]; done. }
  rewrite Hsplit in Hl. apply Forall_app in Hl as [Hl _].
  rewrite Forall_forall in Hl.
  split_and!; [| |done]; intros Hin; apply Hl in Hin; tauto.
Qed.

(** X4. A token is made of characters that are safe in a document path:
    it holds no [/] and no [+], and it does not end with [=], on any
    platform, whatever its base64 encoder returns. *)
Theorem computeToken_url_safe (q : string) (key : CryptoKey)
    (token : string) :
  computeToken q key = Ok token →
  let chars := list_ascii_of_string token in
  ("/"%char ∉ chars) ∧ ("+"%char ∉ chars) ∧ last chars ≠ Some "="%char.
Proof.
  unfold computeToken. destruct (subtle_sign key (textEncode q)); [|done].
  simpl. intros [= <-]. apply bytesToBase64Url_chars.
Qed.


(** The characters of RFC 4648 base64: none is [=], and the replacements
    of [base64UrlToBytes] undo those of [bytesToBase64Url] on them. *)
Lemma b64_char_url (n : N) :
  let c := StandIn.b64_char n in
  let u := if Ascii.eqb (if Ascii.eqb c "+" then "-"%char else c) "/"
           then "_"%char else if Ascii.eqb c "+" then "-"%char else c in
  c ≠ "="%char ∧ u ≠ "="%char
  ∧ (if Ascii.eqb (if Ascii.eqb u "-" then "+"%char else u) "_"
     then "/"%char else if Ascii.eqb u "-" then "+"%char else u) = c.
Proof.
  unfold StandIn.b64_char.
  destruct (nth_in_or_default (N.to_nat n) StandIn.b64_alphabet "A"%char)
    as [Hin| ->]; [|by vm_compute].
  revert Hin. generalize (nth (N.to_nat n) StandIn.b64_alphabet "A"%char).
  intros c Hin. apply list_elem_of_In in Hin. revert c Hin.
  apply Forall_forall. vm_compute.
  repeat (constructor; [split_and!; [discriminate..|reflexivity]|]).
  constructor.
Qed.

(** RFC 4648 base64 text: characters of the alphabet, then at most two
    [=], a multiple of four characters in all. *)
Lemma b64_encode_shape (l : list N) :
  ∃ body k,
    StandIn.b64_encode l = body ++ replicate k "="%char
    ∧ (k ≤ 2)%nat ∧ ((length body + k) mod 4 = 0)%nat
    ∧ Forall (λ c, ∃ n, c = StandIn.b64_char n) body.
Proof.
  remember (length l) as len eqn:Hlen. revert l Hlen.
  induction (lt_wf len) as [len _ IH]. intros l ->.
  destruct l as [|a [|b [|c l]]].
  - exists [], 0%nat. split_and!; [done | lia | done | constructor].
  - eexists [_; _], 2%nat. cbn [StandIn.b64_encode].
    split_and!; [done | lia | done |]. repeat constructor; by eexists.
  - eexists [_; _; _], 1%nat. cbn [StandIn.b64_encode].
    split_and!; [done | lia | done |]. repeat constructor; by eexists.
  - destruct (IH (length l) ltac:(simpl; lia) l eq_refl)
      as (body & k & Henc & Hk & Hmod & Hall).
    eexists (_ :: _ :: _ :: _ :: body), k. cbn [StandIn.b64_encode].
    rewrite Henc. split_and!; [done | done | |].
    + simpl length.
      replace (S (S (S (S (length body)))) + k)%nat
        with (length body + k + 1 * 4)%nat by lia.
      by rewrite Nat.Div0.mod_add.
    + repeat (constructor; [by eexists|]). done.
Qed.

(** On a platform with an RFC 4648 encoder, [base64UrlToBytes] undoes
    [bytesToBase64Url]. *)
Lemma base64UrlToBytes_bytesToBase64Url (b : bytes) :
  PlatformLaws _ → base64_is_rfc4648 →
  base64UrlToBytes (bytesToBase64Url b) = Ok b.
Proof.
  intros Hlaws Hrfc.
  transitivity (base64ToBytes (bytesToBase64 b));
    [|by apply base64ToBytes_bytesToBase64].
  unfold base64UrlToBytes, bytesToBase64Url. rewrite Hrfc.
  unfold StandIn.base64.
  rewrite !list_ascii_of_string_of_list_ascii.
  destruct (b64_encode_shape (map Byte.to_N b))
    as (body & k & -> & Hk & Hmod & Hall).
  rewrite !map_app.
  assert (∀ f : ascii → ascii, f "="%char = "="%char →
            map f (replicate k "="%char) = replicate k "="%char)
    as Hpad.
  { intros f Hf. clear -Hf. induction k as [|k IHk]; [done|]. simpl.
    by rewrite Hf, IHk. }
  rewrite !Hpad by done.
  rewrite stripTrailingEquals_app.
  2:{ rewrite <- list_fmap_compose. apply Forall_fmap.
      eapply Forall_impl; [exact Hall|]. intros c [n ->]. simpl.
      apply (b64_char_url n). }
  do 2 f_equal. rewrite <- !list_fmap_compose.
  rewrite <- length_list_ascii, list_ascii_of_string_of_list_ascii.
  rewrite !length_map.
  assert ((4 - length body mod 4) mod 4 = k)%nat as ->.
  { pose proof (Nat.Div0.div_mod (length body + k) 4) as Hdiv.
    rewrite Hmod in Hdiv.
    pose proof (Nat.Div0.div_mod (length body) 4) as Hdiv'.
    pose proof (Nat.mod_upper_bound (length body) 4 ltac:(lia)).
    assert (length body mod 4 + k = 0 ∨ length body mod 4 + k = 4)%nat
      as [Hcase|Hcase] by lia.
    - replace (length body mod 4)%nat with 0%nat by lia.
      replace k with 0%nat by lia. done.
    - replace (length body mod 4)%nat with (4 - k)%nat by lia.
      destruct k as [|[|[|k]]]; [lia | done | done | lia]. }
  assert (JS.stringSlice0 "==" k = string_of_list_ascii (replicate k "="%char))
    as -> by (destruct k as [|[|[|k]]]; [done | done | done | lia]).
  rewrite <- string_of_list_ascii_app. do 2 f_equal.
  rewrite <- (list_fmap_id body) at 2.
  apply Forall_fmap_ext. eapply Forall_impl; [exact Hall|].
  intros c [n ->]. simpl. apply (b64_char_url n).
Qed.

(** X5. On a platform whose base64 is RFC 4648, a token can be decoded:
    [decodeBase64Url] puts back the padding that [computeToken] took off
    and returns the bytes of the HMAC signature of the query. *)
Theorem token_decodes_to_signature (q : string) (key : CryptoKey)
    (token : string) :
  PlatformLaws _ → base64_is_rfc4648 →
  computeToken q key = Ok token →
  ∃ signature,
    subtle_sign key (textEncode q) = Ok signature
    ∧ decodeBase64Url token = Ok signature.
Proof.
  intros Hlaws Hrfc. unfold computeToken, decodeBase64Url.
  destruct (subtle_sign key (textEncode q)) as [signature|]; [|done].
  simpl. intros [= <-]. exists signature. split; [done|].
  by apply base64UrlToBytes_bytesToBase64Url.
Qed.

(** X6. The keys that [deriveKeys] returns cannot stand in for each other:
    the encryption key signs no token, and the index key neither encrypts
    nor decrypts a record. *)
Theorem derived_keys_are_separate (passphrase : string) (salt : bytes)
    (options : KdfOptions) (keys : DerivedKeys) :
  deriveKeys passphrase salt options = Ok keys →
  (∀ q, computeToken q (encKey keys) = Err InvalidAccessError)
  ∧ (∀ T (J : Json T) iv (P : T),
       encryptJson iv P (indexKey keys) = Err InvalidAccessError)
  ∧ (∀ T (J : Json T) ct iv (P : T),
       decryptJson ct iv (indexKey keys) ≠ Ok P).
Proof.
  intros Hkeys. apply deriveKeys_inv in Hkeys as ->. split_and!.
  - done.
  - done.
  - intros T J ct iv P. unfold decryptJson. simpl.
    destruct (base64ToBytes ct); [|done]. simpl.
    destruct (base64ToBytes iv); done.
Qed.

End Tokens.

(** ** [buildBlindIndexTokens] *)

Lemma foldR_app {A B} (f : B → A → Result B) (acc : B) (xs ys : list A) :
  foldR f acc (xs ++ ys)
  = result_bind (foldR f acc xs) (λ acc', foldR f acc' ys).
Proof.
  revert acc. induction xs as [|x xs IH]; intros acc; simpl; [done|].
  destruct (f acc x); simpl; [apply IH | done].
Qed.

Lemma NoDup_Set_add (tokenSet : list string) (token : string) :
  NoDup tokenSet → NoDup (Set_add tokenSet token).
Proof.
  intros Hnd. unfold Set_add. case_bool_decide; [done|].
  apply NoDup_app. split_and!; [done | | apply NoDup_singleton].
  intros x Hx Hx'. apply list_elem_of_singleton in Hx'. by subst.
Qed.

Lemma elem_of_Set_add (tokenSet : list string) (token t : string) :
  t ∈ Set_add tokenSet token ↔ t ∈ tokenSet ∨ t = token.
Proof.
  unfold Set_add. case_bool_decide.
  - split; [by left | by intros [?| ->]].
  - rewrite elem_of_app, list_elem_of_singleton. done.
Qed.

Lemma length_Set_add (tokenSet : list string) (token : string) :
  (length (Set_add tokenSet token) ≤ S (length tokenSet))%nat.
Proof.
  unfold Set_add. case_bool_decide; [lia|]. rewrite length_app. simpl. lia.
Qed.

Lemma length_prefixes_default (value : string) :
  (length (prefixes_default value) ≤ 20)%nat.
Proof.
  unfold prefixes_default, prefixes. rewrite prefixes_loop_unfold.
  simpl. rewrite length_map, length_seq. lia.
Qed.

Section BlindIndexFacts.
Context `{Platform}.

(** The loop over the prefixes of the fields, as one loop. *)
Lemma token_loop_spec (key : CryptoKey) (ps : list string) :
  ∀ acc tokens,
    foldR (λ tokenSet prefix,
             result_bind (computeToken prefix key)
               (λ token, Ok (Set_add tokenSet token))) acc ps = Ok tokens →
    (NoDup acc → NoDup tokens)
    ∧ (∀ t, t ∈ tokens
            ↔ t ∈ acc ∨ ∃ p, p ∈ ps ∧ computeToken p key = Ok t)
    ∧ (length tokens ≤ length acc + length ps)%nat.
Proof.
  induction ps as [|p ps IH]; intros acc tokens; simpl.
  - intros [= <-]. split_and!; [done | | lia].
    intros t. split; [by left|]. intros [?|(p & Hp & _)]; [done|].
    by apply elem_of_nil in Hp.
  - destruct (computeToken p key) as [token|] eqn:Htoken; [|done]. simpl.
    intros Hrun. apply IH in Hrun as (Hnd & Hin & Hlen). split_and!.
    + intros Hacc. by apply Hnd, NoDup_Set_add.
    + intros t. rewrite Hin, elem_of_Set_add. split.
      * intros [[?| ->]|(p' & Hp' & Ht)]; [by left | |].
        -- right. exists p. split; [apply elem_of_cons; by left | done].
        -- right. exists p'. split; [apply elem_of_cons; by right | done].
      * intros [?|(p' & Hp' & Ht)]; [by left; left|].
        apply elem_of_cons in Hp' as [->|Hp'].
        -- left. right. congruence.
        -- right. by exists p'.
    + pose proof (length_Set_add acc token). lia.
Qed.

Lemma buildBlindIndexTokens_eq (record : PersonRecord) (key : CryptoKey) :
  buildBlindIndexTokens record key
  = foldR (λ tokenSet prefix,
             result_bind (computeToken prefix key)
               (λ token, Ok (Set_add tokenSet token)))
      [] (prefixes_default (person_name record)
          ++ prefixes_default (person_email record)).
Proof.
  unfold buildBlindIndexTokens. rewrite foldR_app. simpl.
  destruct (foldR _ [] (prefixes_default (person_name record))); simpl;
    [|done].
  by destruct (foldR _ a (prefixes_default (person_email record))).
Qed.

(** X7. [buildBlindIndexTokens] returns, without repetition, the tokens of
    the prefixes of the record's name and of its email, and nothing else:
    at most 40 tokens. *)
Theorem buildBlindIndexTokens_spec (record : PersonRecord)
    (key : CryptoKey) (tokens : list string) :
  buildBlindIndexTokens record key = Ok tokens →
  NoDup tokens
  ∧ (∀ t, t ∈ tokens
          ↔ ∃ p, (p ∈ prefixes_default (person_name record)
                  ∨ p ∈ prefixes_default (person_email record))
                 ∧ computeToken p key = Ok t)
  ∧ (length tokens ≤ 40)%nat.
Proof.
  rewrite buildBlindIndexTokens_eq. intros Hrun.
  apply token_loop_spec in Hrun as (Hnd & Hin & Hlen). split_and!.
  - apply Hnd, NoDup_nil_2.
  - intros t. rewrite Hin. setoid_rewrite elem_of_app. split.
    + intros [Hnil|?]; [by apply elem_of_nil in Hnil | done].
    + by right.
  - rewrite length_app in Hlen. simpl in Hlen.
    pose proof (length_prefixes_default (person_name record)).
    pose proof (length_prefixes_default (person_email record)). lia.
Qed.

(** X8. The blind index covers the scans: when a record matches a query
    of 1 to 20 characters in the sense of [searchCache] and [scanRecords],
    the token that Blind Index mode looks up for that query is one of the
    record's index tokens. *)
Theorem blind_index_covers_scan (record : PersonRecord) (key : CryptoKey)
    (tokens : list string) (q : string) :
  buildBlindIndexTokens record key = Ok tokens →
  q ≠ "" → (String.length q ≤ 20)%nat →
  matchesQuery q record = true →
  ∃ token, computeToken q key = Ok token ∧ token ∈ tokens.
Proof.
  rewrite buildBlindIndexTokens_eq. intros Hrun Hne Hlen Hmatch.
  assert (q ∈ prefixes_default (person_name record)
              ++ prefixes_default (person_email record)) as Hq.
  { unfold matchesQuery in Hmatch. cbv zeta in Hmatch.
    apply orb_true_iff in Hmatch.
    apply elem_of_app. unfold prefixes_default.
    destruct Hmatch as [Hm|Hm]; [left | right];
      apply elem_of_prefixes; (split_and!; [done | lia | exact Hm]). }
  destruct (computeToken q key) as [token|e] eqn:Htoken.
  - exists token. split; [done|].
    apply token_loop_spec in Hrun as (_ & Hin & _).
    apply Hin. right. by exists q.
  - exfalso. clear Hne Hlen Hmatch. revert Hrun.
    generalize (@nil string) as acc.
    induction (prefixes_default (person_name record)
               ++ prefixes_default (person_email record)) as [|p ps IH];
      intros acc; [by apply elem_of_nil in Hq|].
    simpl. apply elem_of_cons in Hq as [<-|Hq]; [by rewrite Htoken|].
    destruct (computeToken p key); [|done]. simpl. by apply IH.
Qed.

End BlindIndexFacts.

(** ** The cache of [src/lib/cache.ts] *)

Section CacheFacts.
Context (E : Env).

(** X9. What [setCachedDataset] stores is what [getCachedDataset] returns
    for that dataset, as long as the read itself does not fail; the other
    datasets keep their snapshots. *)
Theorem cache_put_then_get (cache : CachedDataset) (w w1 : World) :
  setCachedDataset E cache w = Ok (tt, w1) →
  idbFails E (idbOps w1) = false →
  ∀ ds, ∃ w2,
    getCachedDataset E ds w1
    = Ok (if decide (ds = cached_datasetId cache) then Some cache
          else idb w !! ds, w2)
    ∧ idb w2 = idb w1.
Proof.
  unfold setCachedDataset. destruct (idbFails E (idbOps w)); [done|].
  intros [= <-] Hok ds. rewrite getCachedDataset_eq.
  unfold cache_lookup. rewrite Hok. cbn [idb].
  assert (<[cached_datasetId cache := cache]> (idb w) !! ds
          = if decide (ds = cached_datasetId cache) then Some cache
            else idb w !! ds) as ->.
  { destruct (decide (ds = cached_datasetId cache)) as [->|Hne].
    - apply lookup_insert_eq.
    - by apply lookup_insert_ne. }
  eexists. split; reflexivity.
Qed.

(** X10. After [clearCachedDataset] the dataset has no snapshot, and the
    other datasets keep theirs. *)
Theorem cache_clear_then_get (ds : string) (w w1 : World) :
  clearCachedDataset E ds w = Ok (tt, w1) →
  ∀ ds', ∃ found w2,
    getCachedDataset E ds' w1 = Ok (found, w2)
    ∧ (ds' = ds → found = None)
    ∧ (ds' ≠ ds → idbFails E (idbOps w1) = false → found = idb w !! ds').
Proof.
  unfold clearCachedDataset. destruct (idbFails E (idbOps w)); [done|].
  intros [= <-] ds'. rewrite getCachedDataset_eq.
  unfold cache_lookup. cbn [idb idbOps].
  eexists _, _. split; [reflexivity|]. split.
  - intros ->. destruct (idbFails _ _); [done|]. apply lookup_delete_eq.
  - intros Hne ->. by apply lookup_delete_ne.
Qed.

End CacheFacts.

(** ** The helpers of [runBenchmark], again *)

(** The number of groups that [chunk] makes. *)
Lemma chunk_loop_count {A} (n : Z) (items : list A) : 1 ≤ n →
  ∀ fuel i out res, 0 ≤ i →
    chunk_loop fuel items n i out = Some res →
    Z.of_nat (length res)
    = Z.of_nat (length out)
      + (Z.max 0 (Z.of_nat (length items) - i) + n - 1) / n.
Proof.
  intros Hn fuel. induction fuel as [|fuel IH]; intros i out res Hi; [done|].
  simpl. destruct (Z.ltb_spec i (Z.of_nat (length items))) as [Hlt|Hge].
  - intros Hrun. apply IH in Hrun; [|lia]. rewrite Hrun, length_app.
    simpl length. rewrite Nat2Z.inj_add. simpl Z.of_nat.
    set (d := Z.of_nat (length items) - i) in *.
    replace (Z.of_nat (length items) - (i + n)) with (d - n) by lia.
    assert ((Z.max 0 d + n - 1) / n = 1 + (Z.max 0 (d - n) + n - 1) / n)
      as ->; [|lia].
    destruct (Z.le_gt_cases n d).
    + rewrite !Z.max_r by lia.
      replace (d + n - 1) with (d - n + n - 1 + 1 * n) by lia.
      rewrite Z.div_add by lia. lia.
    + rewrite Z.max_r, Z.max_l by lia.
      replace (d + n - 1) with (d - 1 + 1 * n) by lia.
      rewrite Z.div_add by lia. rewrite !Z.div_small by lia. lia.
  - intros [= <-]. rewrite Z.max_l by lia. rewrite Z.div_small by lia. lia.
Qed.

Section HelperFacts.
Context `{Platform} `{Json PersonRecord} (E : Env).

(** X11. [fetchRecordsByIds] reads the ids in batches: it issues one [in]
    query per group of at most ten ids, none of them empty, as many as
    the tenth of the number of ids rounded up (none for no ids), and
    returns the documents of the collection whose id was asked for. *)
Theorem fetchRecordsByIds_batches (ds : string) (ids : list string)
    (w : World) docs ms w' :
  fetchRecordsByIds E ds ids w = Ok ((docs, ms), w') →
  ∃ groups,
    requests w' = requests w ++ map (GetDocsIn (recordsPath ds)) groups
    ∧ concat groups = ids
    ∧ Forall (λ g, (1 ≤ length g ≤ 10)%nat) groups
    ∧ Z.of_nat (length groups) = (Z.of_nat (length ids) + 9) / 10
    ∧ (∀ d, d ∈ docs
            ↔ d ∈ fsCollection E (recordsPath ds) ∧ doc_id d ∈ ids).
Proof.
  intros Hrun.
  apply fetchRecordsByIds_inv in Hrun as (groups & Hchunk & -> & _ & ->).
  exists groups. pose proof Hchunk as Hcount.
  apply chunk_engine in Hchunk as [Hcat Hall].
  apply (chunk_loop_count 10 ids ltac:(lia)) in Hcount; [|lia].
  split_and!.
  - done.
  - done.
  - eapply Forall_impl; [exact Hall|]. intros g [? ?]. lia.
  - rewrite Hcount. cbn [length Z.of_nat].
    rewrite Z.sub_0_r, Z.max_r, Z.add_0_l by lia. f_equal. lia.
  - intros d. unfold batch_answer. rewrite <- Hcat.
    rewrite list_elem_of_In, in_flat_map. split.
    + intros (g & Hg & Hd). apply filter_In in Hd as [Hd Hid].
      apply bool_decide_eq_true in Hid.
      split; [by apply list_elem_of_In|].
      apply list_elem_of_In, in_concat. exists g.
      split; [done | by apply list_elem_of_In].
    + intros [Hd Hid]. apply list_elem_of_In, in_concat in Hid
        as (g & Hg & Hid).
      exists g. split; [done|]. apply filter_In.
      split; [by apply list_elem_of_In|].
      apply bool_decide_eq_true. by apply list_elem_of_In.
Qed.

Lemma decryptAll_spec (docs : list EncDoc) (key : CryptoKey) records :
  decryptAll docs key = Ok records →
  Forall2 (λ d r, ∃ payload,
             decryptJson (doc_ct d) (doc_iv d) key = Ok payload
             ∧ r = with_id payload (doc_id d)) docs records.
Proof.
  revert records. induction docs as [|d docs IH]; intros records; simpl.
  - intros [= <-]. constructor.
  - destruct (decryptJson _ _ _) as [payload|] eqn:Hd; [|done]. simpl.
    destruct (decryptAll docs key) as [rs|]; [|done]. simpl.
    intros [= <-]. constructor; [by exists payload | by apply IH].
Qed.

Lemma decryptAll_fails (docs : list EncDoc) (key : CryptoKey) d e :
  d ∈ docs →
  decryptJson (T:=PersonRecord) (doc_ct d) (doc_iv d) key = Err e →
  ∃ e', decryptAll docs key = Err e'.
Proof.
  intros Hin Hd.
  induction docs as [|d' docs IH]; [by apply elem_of_nil in Hin|].
  cbn [decryptAll]. apply elem_of_cons in Hin as [<-|Hin].
  - rewrite Hd. by eexists.
  - destruct (decryptJson (doc_ct d') (doc_iv d') key);
      [|simpl; by eexists].
    simpl. destruct (IH Hin) as [e' ->]. by eexists.
Qed.

(** X12. [decryptRecords] is all or nothing. When it returns, there is one
    record per document, in the order of the documents, made of the
    decrypted payload with its [id] replaced by the id of the document,
    and no store was touched; when one document does not decrypt, the
    call fails as a whole. *)
Theorem decryptRecords_all_or_nothing (docs : list EncDoc)
    (key : CryptoKey) (w : World) :
  (∀ records ms w',
     decryptRecords E docs key w = Ok ((records, ms), w') →
     Forall2 (λ d r, ∃ payload,
                decryptJson (doc_ct d) (doc_iv d) key = Ok payload
                ∧ r = with_id payload (doc_id d)) docs records
     ∧ map person_id records = map doc_id docs
     ∧ requests w' = requests w ∧ idb w' = idb w)
  ∧ (∀ d e, d ∈ docs →
       decryptJson (T:=PersonRecord) (doc_ct d) (doc_iv d) key = Err e →
       ∃ e', decryptRecords E docs key w = Err e').
Proof.
  split.
  - intros records ms w'. rewrite decryptRecords_eq.
    destruct (decryptAll docs key) as [rs|] eqn:Hdec; [|done].
    intros [= <- _ <-]. split_and!.
    + by apply decryptAll_spec.
    + by apply decryptAll_ids in Hdec.
    + simpl. apply app_nil_r.
    + done.
  - intros d e Hin Hd. rewrite decryptRecords_eq.
    destruct (decryptAll_fails docs key d e Hin Hd) as [e' ->].
    by eexists.
Qed.

(** What one iteration of [runBenchmark] reports as hits. *)
Lemma runMode_hits fuel ds q keys m w r w' :
  runMode E fuel ds q keys m w = Ok (r, w') →
  (length (hits r) ≤ 20)%nat
  ∧ (m = decryptScan ∨ m = clientCache →
     length (hits r) = (20 `min` resultCount r)%nat
     ∧ ∃ found, resultCount r = length found
                ∧ hits r = take 20 found
                ∧ Forall (λ h, matchesQuery q h = true) found).
Proof.
  assert (∀ rs : list PersonRecord,
            Forall (λ h, matchesQuery q h = true)
              (List.filter (matchesQuery q) rs)) as Hfilter.
  { intros rs. apply Forall_forall. intros h Hh.
    by apply list_elem_of_In, filter_In in Hh as [_ ?]. }
  destruct m; simpl; intros Hrun.
  - apply runBlindIndex_inv in Hrun as (token & _ & Hrun).
    apply fetchBucket_inv in Hrun as (groups & records & _ & _ & -> & _).
    simpl. rewrite length_take. unfold MAX_HITS.
    split; [lia | by intros [?|?]].
  - apply runDecryptScan_inv in Hrun as (docs & records & reqs & _ & -> & _).
    simpl. rewrite length_take. unfold MAX_HITS. split; [lia|].
    intros _. split; [done|]. by eexists.
  - destruct (cache_lookup E ds w) as [c|] eqn:Hc.
    + destruct (runClientCache_warm E ds q keys w c Hc)
        as (r0 & Hr0 & _ & _ & _ & Hcount & Hhits).
      rewrite Hr0 in Hrun. injection Hrun as <- _.
      rewrite Hhits, Hcount, length_take. unfold MAX_HITS, searchCache.
      split; [lia|]. intros _. split; [done|]. by eexists.
    + apply (runClientCache_cold E ds q keys w r w' Hc) in Hrun
        as (records & _ & _ & _ & _ & Hcount & Hhits & _).
      rewrite Hhits, Hcount, length_take. unfold MAX_HITS, searchCache.
      split; [lia|]. intros _. split; [done|]. by eexists.
  - apply runPlaintextIndex_inv in Hrun.
    apply fetchBucket_inv in Hrun as (groups & records & _ & _ & -> & _).
    simpl. rewrite length_take. unfold MAX_HITS.
    split; [lia | by intros [?|?]].
Qed.

(** X13. No result of [runBenchmark] carries more than 20 hits, in any
    mode. In Decrypt-and-Scan and in Client Cache the hits are the first
    20 of the records found, all of which match the normalized query, and
    [resultCount] counts all the records found. *)
Theorem hits_are_capped fuel (opts : Options) (w : World) rs w' :
  runBenchmark E fuel opts w = Ok (rs, w') →
  Forall (λ r,
            (length (hits r) ≤ 20)%nat
            ∧ (mode r = decryptScan ∨ mode r = clientCache →
               length (hits r) = (20 `min` resultCount r)%nat
               ∧ ∃ found, resultCount r = length found
                          ∧ hits r = take 20 found
                          ∧ Forall (λ h, matchesQuery
                                           (normalize (opt_query opts)) h
                                         = true) found)) rs.
Proof.
  intros Hrun.
  destruct (decide (normalize (opt_query opts) = "")) as [Hq|Hq].
  - rewrite runBenchmark_empty in Hrun by done.
    injection Hrun as <- _. constructor.
  - apply (runBenchmark_inv E _ _ _ _ _ Hq) in Hrun as (keys & _ & Hall).
    induction Hall as [|m r ms rs (w1 & w2 & Hm) _ IH]; constructor;
      [|done].
    pose proof (runMode_mode E _ _ _ _ _ _ _ _ Hm) as [-> _].
    by apply runMode_hits in Hm.
Qed.

(** X14. An index mode costs at most six Firestore reads, however many
    records match: the index document, then at most five batches of ids. *)
Theorem index_modes_read_at_most_six fuel ds q keys (m : Mode)
    (w : World) r w' :
  m = blindIndex ∨ m = plaintextIndex →
  runMode E fuel ds q keys m w = Ok (r, w') →
  ∃ reqs, requests w' = requests w ++ reqs
          ∧ (1 ≤ length reqs ≤ 6)%nat.
Proof.
  assert (∀ mode key indexMs bucket w0 path,
            fetchBucket E mode ds key indexMs bucket
              (advance w0 2 [GetDoc path]) = Ok (r, w') →
            ∃ reqs, requests w' = requests w0 ++ reqs
                    ∧ (1 ≤ length reqs ≤ 6)%nat) as Hbucket.
  { intros mode key indexMs bucket w0 path Hrun.
    apply fetchBucket_inv in Hrun as (groups & _ & Hchunk & _ & _ & ->).
    exists (GetDoc path :: map (GetDocsIn (recordsPath ds)) groups).
    split; [simpl; by rewrite <- app_assoc|].
    apply (chunk_loop_count 10 _ ltac:(lia)) in Hchunk; [|lia].
    simpl length in *. rewrite length_map.
    assert (Z.of_nat (length groups) < 6); [|lia].
    rewrite Hchunk. simpl Z.of_nat.
    rewrite Z.sub_0_r, Z.max_r by lia.
    apply Z.div_lt_upper_bound; [lia|].
    destruct (_ <? _)%nat eqn:Hcap.
    - rewrite length_take. unfold MAX_RESULT_FETCH. lia.
    - apply Nat.ltb_ge in Hcap. unfold MAX_RESULT_FETCH in Hcap. lia. }
  intros [-> | ->]; simpl; intros Hrun.
  - apply runBlindIndex_inv in Hrun as (token & _ & Hrun). by eapply Hbucket.
  - apply runPlaintextIndex_inv in Hrun. by eapply Hbucket.
Qed.

End HelperFacts.

(** ** What a run touches *)

Lemma append_cons (c : ascii) (s t : string) :
  String c s +:+ t = String c (s +:+ t).
Proof. reflexivity. Qed.

(** The two index collections of a dataset do not share a path. *)
Lemma indexPath_plaintextIndexPath (ds token docId : string) :
  indexPath ds token ≠ plaintextIndexPath ds docId.
Proof.
  unfold indexPath, plaintextIndexPath. intros Heq.
  apply (inj (String.append _)) in Heq.
  apply (inj (String.append _)) in Heq.
  rewrite !append_cons in Heq. discriminate.
Qed.

Section Effects.
Context `{Platform} `{Json PersonRecord} (E : Env).

Lemma fetchAll_loop_reads ds P fuel lastId acc w docs w' :
  fetchAllRecords_loop E fuel ds P lastId acc w = Ok (docs, w') →
  ∃ reqs, w' = advance w 0 reqs
          ∧ Forall (λ r, ∃ c, r = GetDocsPage (recordsPath ds) c P) reqs.
Proof.
  revert lastId acc w.
  induction fuel as [|fuel IH]; intros lastId acc w Hrun; [done|].
  simpl in Hrun. inv_bind Hrun.
  apply firestore_inv in Hm as (-> & -> & _).
  assert (Forall (λ r, ∃ c, r = GetDocsPage (recordsPath ds) c P)
            [GetDocsPage (recordsPath ds)
               (if truthy lastId then lastId else None) P]) as Hone
    by (constructor; [by eexists | constructor]).
  destruct (_ <? _).
  { injection Hrun as <- <-. by eexists. }
  destruct (negb _).
  { injection Hrun as <- <-. by eexists. }
  apply IH in Hrun as (reqs & -> & Hreqs). rewrite advance_advance.
  eexists. split; [done|]. by apply Forall_app.
Qed.

(** The stores that one iteration of [runBenchmark] touches. *)
Lemma runMode_effects fuel ds q keys m w r w' :
  runMode E fuel ds q keys m w = Ok (r, w') →
  ∃ reqs,
    requests w' = requests w ++ reqs
    ∧ (m ≠ clientCache → idb w' = idb w ∧ idbOps w' = idbOps w)
    ∧ (m ≠ plaintextIndex →
       ∀ docId, GetDoc (plaintextIndexPath ds docId) ∉ reqs)
    ∧ (m ≠ blindIndex → ∀ token, GetDoc (indexPath ds token) ∉ reqs)
    ∧ (cache_ok (idb w) → cache_ok (idb w')).
Proof.
  assert (∀ c (groups : list (list string)) path,
            GetDoc path ∉ map (GetDocsIn c) groups) as Hgroups
    by (by intros c groups path (g & Hg & _)%list_elem_of_fmap).
  assert (∀ c P path, GetDoc path ∉ [GetDocsPage c None P]) as Hpage
    by (by intros c P path Hin%list_elem_of_singleton).
  destruct m; simpl; intros Hrun.
  - apply runBlindIndex_inv in Hrun as (token & _ & Hrun).
    apply fetchBucket_inv in Hrun as (groups & records & _ & _ & _ & ->).
    eexists (_ :: _). split; [simpl; by rewrite <- app_assoc|].
    split_and!; [done | | done | done].
    intros _ docId [Hin|Hin]%elem_of_cons.
    + pose proof (indexPath_plaintextIndexPath ds token docId).
      congruence.
    + by apply Hgroups in Hin.
  - unfold runDecryptScan in Hrun.
    inv_bind Hrun. destruct a as [docs fetchMs].
    unfold fetchAllRecords in Hm.
    rewrite (bind_Ok _ _ _ _ _ (now_eq E w)) in Hm. inv_bind Hm.
    apply fetchAll_loop_reads in Hm0 as (reqs & -> & Hreqs).
    rewrite (bind_Ok _ _ _ _ _ (now_eq E _)) in Hm.
    injection Hm as <- <- <-.
    inv_bind Hrun. rewrite decryptRecords_eq in Hm.
    destruct (decryptAll _ _) as [records|]; [|done].
    injection Hm as <- <-.
    inv_bind Hrun. rewrite scanRecords_eq in Hm. injection Hm as <- <-.
    injection Hrun as <- <-.
    exists reqs. split; [simpl; by rewrite !app_nil_r|].
    assert (∀ path, GetDoc path ∉ reqs) as Hnone.
    { intros path Hin. rewrite Forall_forall in Hreqs.
      by destruct (Hreqs _ Hin). }
    by split_and!.
  - destruct (cache_lookup E ds w) as [c|] eqn:Hc.
    + destruct (runClientCache_warm E ds q keys w c Hc)
        as (r0 & Hr0 & _).
      rewrite Hr0 in Hrun. injection Hrun as <- <-.
      exists []. split; [simpl; by rewrite app_nil_r|].
      split_and!; [done | | | done]; intros _ ? Hin;
        by apply elem_of_nil in Hin.
    + apply (runClientCache_cold E ds q keys w r w' Hc) in Hrun
        as (records & Hdec & _ & _ & _ & _ & _ & ->).
      eexists [_]. split; [done|].
      split_and!; [done | | |]; try (intros _ ? Hin; by apply Hpage in Hin).
      cbn [idb]. intros Hok key c Hlook.
      destruct (decide (key = ds)) as [->|Hne].
      * rewrite lookup_insert_eq in Hlook. injection Hlook as <-.
        unfold snapshot_ok. cbn. split_and!; [done | done |].
        apply decryptAll_ids in Hdec.
        apply (f_equal length) in Hdec. rewrite !length_map in Hdec.
        rewrite Hdec. unfold page_of. rewrite length_take.
        unfold CACHE_CAP. lia.
      * rewrite lookup_insert_ne in Hlook by done. by apply Hok.
  - apply runPlaintextIndex_inv in Hrun.
    apply fetchBucket_inv in Hrun as (groups & records & _ & _ & _ & ->).
    eexists (_ :: _). split; [simpl; by rewrite <- app_assoc|].
    split_and!; [done | done | | done].
    intros _ token [Hin|Hin]%elem_of_cons.
    + pose proof (indexPath_plaintextIndexPath ds token q).
      unfold encodePrefixDocId in *. congruence.
    + by apply Hgroups in Hin.
Qed.

(** A property of the worlds that every iteration keeps is kept by the
    loop over the modes. *)
Lemma run_modes_chain (R : World → World → Prop)
    (f : Mode → M BenchmarkResult) (modes : list Mode) :
  (∀ w, R w w) → (∀ a b c, R a b → R b c → R a c) →
  (∀ m w r w', m ∈ modes → f m w = Ok (r, w') → R w w') →
  ∀ acc w rs w',
    foldM (λ results x, bind (f x) (λ result, ret (results ++ [result])))
      acc modes w = Ok (rs, w') →
    R w w'.
Proof.
  intros Hrefl Htrans. induction modes as [|m modes IH]; intros Hstep.
  - intros acc w rs w' [= <- <-]. apply Hrefl.
  - intros acc w rs w' Hrun. simpl in Hrun.
    inv_bind Hrun. inv_bind Hm. injection Hm as <- <-.
    eapply Htrans.
    + eapply Hstep; [apply elem_of_cons; by left | exact Hm0].
    + eapply IH; [|exact Hrun]. intros m' ? ? ? Hin.
      apply Hstep. apply elem_of_cons. by right.
Qed.

Lemma runBenchmark_chain (R : World → World → Prop) fuel opts :
  (∀ w, R w w) → (∀ a b c, R a b → R b c → R a c) →
  (∀ keys m w r w', m ∈ opt_modes opts →
     runMode E fuel (opt_datasetId opts) (normalize (opt_query opts)) keys
       m w = Ok (r, w') → R w w') →
  ∀ w rs w', runBenchmark E fuel opts w = Ok (rs, w') → R w w'.
Proof.
  intros Hrefl Htrans Hstep w rs w'. unfold runBenchmark.
  destruct (String.eqb _ _).
  - intros [= <- <-]. apply Hrefl.
  - intros Hrun. inv_bind Hrun. apply lift_inv in Hm as [_ ->].
    eapply run_modes_chain; [done | done | | exact Hrun].
    intros m w1 r w2 Hin. by apply Hstep.
Qed.

(** X15. A run touches only the stores of the modes that were selected.
    It appends to the log of Firestore reads; unless Client Cache is
    selected it runs no IndexedDB transaction; unless Plaintext Index is
    selected it reads no document of the plaintext index of the dataset,
    and unless Blind Index is selected, none of the blind index. *)
Theorem modes_keep_to_their_stores fuel (opts : Options) (w : World)
    rs w' :
  runBenchmark E fuel opts w = Ok (rs, w') →
  ∃ reqs,
    requests w' = requests w ++ reqs
    ∧ (clientCache ∉ opt_modes opts →
       idb w' = idb w ∧ idbOps w' = idbOps w)
    ∧ (plaintextIndex ∉ opt_modes opts →
       ∀ docId,
         GetDoc (plaintextIndexPath (opt_datasetId opts) docId) ∉ reqs)
    ∧ (blindIndex ∉ opt_modes opts →
       ∀ token, GetDoc (indexPath (opt_datasetId opts) token) ∉ reqs).
Proof.
  apply (runBenchmark_chain
           (λ w w', ∃ reqs,
              requests w' = requests w ++ reqs
              ∧ (clientCache ∉ opt_modes opts →
                 idb w' = idb w ∧ idbOps w' = idbOps w)
              ∧ (plaintextIndex ∉ opt_modes opts →
                 ∀ docId,
                   GetDoc (plaintextIndexPath (opt_datasetId opts) docId)
                   ∉ reqs)
              ∧ (blindIndex ∉ opt_modes opts →
                 ∀ token,
                   GetDoc (indexPath (opt_datasetId opts) token) ∉ reqs))).
  - intros w0. exists []. rewrite app_nil_r.
    split_and!; [done | done | |]; intros _ ? Hin;
      by apply elem_of_nil in Hin.
  - intros a b c (r1 & Hr1 & Hc1 & Hp1 & Hb1) (r2 & Hr2 & Hc2 & Hp2 & Hb2).
    exists (r1 ++ r2). rewrite Hr2, Hr1, app_assoc. split_and!.
    + done.
    + intros Hno. destruct (Hc1 Hno) as [<- <-]. by apply Hc2.
    + intros Hno docId [Hin|Hin]%elem_of_app;
        [by eapply Hp1 | by eapply Hp2].
    + intros Hno token [Hin|Hin]%elem_of_app;
        [by eapply Hb1 | by eapply Hb2].
  - intros keys m w0 r w1 Hin Hrun.
    apply runMode_effects in Hrun as (reqs & Hreqs & Hc & Hp & Hb & _).
    exists reqs. split_and!; [done | | |]; intros Hno;
      [apply Hc | apply Hp | apply Hb]; by intros ->.
Qed.

(** X16. The snapshots that runs leave in IndexedDB are well formed: each
    is filed under its own dataset id, counts its records and holds no
    more than its cap of them. A run keeps a store like that so. *)
Theorem cache_stays_well_formed fuel (opts : Options) (w : World) rs w' :
  cache_ok (idb w) →
  runBenchmark E fuel opts w = Ok (rs, w') →
  cache_ok (idb w').
Proof.
  intros Hok Hrun. revert Hok.
  apply (runBenchmark_chain
           (λ w w', cache_ok (idb w) → cache_ok (idb w')) fuel opts)
    with (rs := rs); [done | by auto | | done].
  intros keys m w0 r w1 _ Hm.
  by apply runMode_effects in Hm as (_ & _ & _ & _ & _ & ?).
Qed.

(** X17. Client Cache needs IndexedDB. A read that fails is taken for a
    missing snapshot, so the mode fetches and decrypts the records; the
    write that follows is not guarded, so the mode cannot complete when
    that transaction fails too. *)
Theorem clientCache_needs_IndexedDB ds q keys (w : World) :
  idbFails E (idbOps w) = true →
  idbFails E (S (idbOps w)) = true →
  (∃ w1, getCachedDataset E ds w = Ok (None, w1) ∧ idb w1 = idb w)
  ∧ ∀ r w', runClientCache E ds q keys w ≠ Ok (r, w').
Proof.
  intros Hread Hwrite.
  assert (cache_lookup E ds w = None) as Hc
    by (unfold cache_lookup; by rewrite Hread).
  split.
  - rewrite getCachedDataset_eq, Hc. by eexists.
  - intros r w' Hrun. unfold runClientCache in Hrun.
    rewrite (bind_Ok _ _ _ _ _ (now_eq E w)) in Hrun.
    rewrite (bind_Ok _ _ _ _ _ (getCachedDataset_eq E ds _)) in Hrun.
    change (cache_lookup E ds (advance w 1 [])) with (cache_lookup E ds w)
      in Hrun.
    rewrite Hc in Hrun.
    rewrite (bind_Ok _ _ _ _ _ (now_eq E _)) in Hrun.
    inv_bind Hrun. unfold buildCache in Hm.
    rewrite (bind_Ok _ _ _ _ _ (now_eq E _)) in Hm.
    inv_bind Hm. destruct a0 as [docs fetched].
    apply fetchRecordPage_inv in Hm0 as (-> & -> & ->).
    inv_bind Hm. rewrite decryptRecords_eq in Hm0.
    destruct (decryptAll _ _) as [decrypted|]; [|done].
    injection Hm0 as <- <-.
    rewrite (bind_Ok _ _ _ _ _ (now_eq E _)) in Hm.
    inv_bind Hm. injection Hm0 as <- <-.
    inv_bind Hm. unfold setCachedDataset in Hm0. cbn [idbOps advance] in Hm0.
    by rewrite Hwrite in Hm0.
Qed.

(** The run of Decrypt-and-Scan on a project whose reads succeed. *)
Lemma runDecryptScan_full fuel ds q keys w r w' :
  (∀ k r, fsFails E k r = false) →
  ids_ascending (fsCollection E (recordsPath ds)) →
  (length (fsCollection E (recordsPath ds)) < fuel)%nat →
  runDecryptScan E fuel ds q keys w = Ok (r, w') →
  ∃ records,
    decryptAll (fsCollection E (recordsPath ds)) (encKey keys) = Ok records
    ∧ resultCount r = length (List.filter (matchesQuery q) records)
    ∧ hits r = take MAX_HITS (List.filter (matchesQuery q) records).
Proof.
  intros Hup Hasc Hfuel Hrun.
  destruct (fetchAll_loop_complete E ds FULL_SCAN_PAGE_SIZE ltac:(done)
              Hup Hasc fuel None [] (fsCollection E (recordsPath ds))
              (advance w 1 []))
    as (pages & lastPage & _ & _ & _ & Hloop); [done | done | done |].
  assert (∃ reqs, fetchAllRecords E fuel ds FULL_SCAN_PAGE_SIZE w
                  = Ok ((fsCollection E (recordsPath ds),
                         lap E (nowCalls w)), advance w 2 reqs))
    as [reqs Hfetch].
  { eexists. unfold fetchAllRecords.
    rewrite (bind_Ok _ _ _ _ _ (now_eq E w)).
    rewrite (bind_Ok _ _ _ _ _ Hloop).
    rewrite (bind_Ok _ _ _ _ _ (now_eq E _)).
    unfold ret, lap. simpl. rewrite Nat.add_0_r. do 2 f_equal.
    advance_simpl. }
  unfold runDecryptScan in Hrun.
  rewrite (bind_Ok _ _ _ _ _ Hfetch) in Hrun.
  unfold bind at 1 in Hrun. rewrite decryptRecords_eq in Hrun.
  destruct (decryptAll _ _) as [records|]; [|done].
  rewrite (bind_Ok _ _ _ _ _ (scanRecords_eq E _ _ _)) in Hrun.
  injection Hrun as <- _. exists records. simpl. by rewrite slice_0.
Qed.

(** X18. On a dataset that fits under the cap of the cache, a cold run of
    Client Cache finds what Decrypt-and-Scan finds: the same
    [resultCount] and the same hits, for the same query and keys. *)
Theorem cold_cache_agrees_with_scan fuel ds q keys (w1 w2 : World)
    r1 w1' r2 w2' :
  let coll := fsCollection E (recordsPath ds) in
  (∀ k r, fsFails E k r = false) →
  ids_ascending coll →
  (length coll < fuel)%nat →
  Z.of_nat (length coll) ≤ Z.min (getDatasetSize ds) CACHE_CAP →
  cache_lookup E ds w2 = None →
  runMode E fuel ds q keys decryptScan w1 = Ok (r1, w1') →
  runMode E fuel ds q keys clientCache w2 = Ok (r2, w2') →
  resultCount r1 = resultCount r2 ∧ hits r1 = hits r2.
Proof.
  intros coll Hup Hasc Hfuel Hfits Hcold Hscan Hcache. simpl in *.
  apply runDecryptScan_full in Hscan as (records & Hdec & -> & ->);
    [|done..].
  apply (runClientCache_cold E ds q keys w2 r2 w2' Hcold) in Hcache
    as (records' & Hdec' & _ & _ & _ & -> & -> & _).
  unfold page_of in Hdec'. rewrite take_ge in Hdec' by (fold coll; lia).
  rewrite Hdec in Hdec'. by injection Hdec' as <-.
Qed.

End Effects.

(** ** The page: the selection of modes *)

Lemma elem_of_onToggleMode (prev : list Mode) (mode m : Mode) :
  m ∈ onToggleMode prev mode
  ↔ if decide (m = mode) then mode ∉ prev else m ∈ prev.
Proof.
  unfold onToggleMode. case_bool_decide as Hin.
  - rewrite list_elem_of_In, filter_In, <- list_elem_of_In.
    rewrite negb_true_iff, bool_decide_eq_false.
    destruct (decide (m = mode)) as [->|Hne]; intuition congruence.
  - rewrite elem_of_app, list_elem_of_singleton.
    destruct (decide (m = mode)) as [->|Hne]; intuition congruence.
Qed.

Lemma NoDup_onToggleMode (prev : list Mode) (mode : Mode) :
  NoDup prev → NoDup (onToggleMode prev mode).
Proof.
  intros Hnd. unfold onToggleMode. case_bool_decide as Hin.
  - induction Hnd as [|x l Hx Hnd IH]; simpl; [constructor|].
    assert (NoDup (List.filter
                     (λ item, negb (bool_decide (item = mode))) l)) as Hl.
    { clear -Hnd. induction Hnd as [|y l Hy Hnd IH]; simpl; [constructor|].
      destruct (negb _); [|done]. constructor; [|done].
      rewrite list_elem_of_In, filter_In, <- list_elem_of_In. tauto. }
    destruct (negb _); [|done]. constructor; [|done].
    rewrite list_elem_of_In, filter_In, <- list_elem_of_In. tauto.
  - apply NoDup_app. split_and!; [done | | apply NoDup_singleton].
    intros x Hx Hx'%list_elem_of_singleton. by subst.
Qed.

Lemma NoDup_MODE_ORDER : NoDup MODE_ORDER.
Proof. apply (bool_decide_unpack _). by vm_compute. Qed.

Lemma elem_of_MODE_ORDER (m : Mode) : m ∈ MODE_ORDER.
Proof. destruct m; apply (bool_decide_unpack _); by vm_compute. Qed.

Lemma toggles_spec (toggles : list Mode) :
  ∀ prev, NoDup prev →
    NoDup (foldl onToggleMode prev toggles)
    ∧ ∀ m, m ∈ foldl onToggleMode prev toggles
           ↔ (m ∈ prev
              ↔ Nat.even (length (List.filter (λ x, bool_decide (x = m))
                                    toggles)) = true).
Proof.
  induction toggles as [|t toggles IH]; intros prev Hnd; simpl.
  - split; [done|]. intros m. tauto.
  - destruct (IH (onToggleMode prev t) (NoDup_onToggleMode prev t Hnd))
      as [Hnd' Hin].
    split; [done|]. intros m. rewrite Hin, elem_of_onToggleMode.
    destruct (decide (m = t)) as [->|Hne].
    + rewrite bool_decide_eq_true_2 by done. cbn [length].
      rewrite Nat.even_succ, <- Nat.negb_even.
      destruct (Nat.even _); simpl;
        destruct (decide (t ∈ prev)); intuition congruence.
    + rewrite bool_decide_eq_false_2 by done. tauto.
Qed.

(** X19. However the modes are toggled on the page, the selection holds
    no mode twice, and a mode is selected exactly when it was toggled an
    even number of times: the page starts with every mode selected. So
    [runBenchmark] is never asked to run a mode twice. *)
Theorem selection_follows_toggles (toggles : list Mode) :
  let selected := foldl onToggleMode MODE_ORDER toggles in
  NoDup selected
  ∧ (length selected ≤ 4)%nat
  ∧ ∀ m, m ∈ selected
         ↔ Nat.even (length (List.filter (λ x, bool_decide (x = m))
                               toggles)) = true.
Proof.
  intros selected.
  pose proof NoDup_MODE_ORDER as Hnd.
  pose proof elem_of_MODE_ORDER as Hall.
  destruct (toggles_spec toggles MODE_ORDER Hnd) as [Hsel Hin].
  split_and!; [done | |].
  - assert (selected ⊆ MODE_ORDER) as Hsub by (intros m _; apply Hall).
    apply (submseteq_length selected MODE_ORDER).
    by apply NoDup_submseteq.
  - intros m. unfold selected. rewrite (Hin m). pose proof (Hall m). tauto.
Qed.

(** X20. When no mode has two results, which is so for every run started
    from the page, [resultsByMode] shows every result once: it reorders
    the results and drops none. *)
Theorem resultsByMode_shows_every_result (results : list BenchmarkResult) :
  NoDup (map mode results) → resultsByMode results ≡ₚ results.
Proof.
  intros Hnd. apply NoDup_Permutation.
  - apply (NoDup_fmap_1 mode).
    change (NoDup (map mode (resultsByMode results))).
    rewrite resultsByMode_modes.
    pose proof NoDup_MODE_ORDER as Hm.
    clear -Hm. induction Hm as [|x l Hx Hm IH]; simpl; [constructor|].
    destruct (bool_decide _); [|done]. constructor; [|done].
    rewrite list_elem_of_In, filter_In, <- list_elem_of_In. tauto.
  - by apply (NoDup_fmap_1 mode).
  - intros r. unfold resultsByMode. rewrite list_elem_of_omap. split.
    + intros (m & _ & Hlook). pose proof (resultMap_lookup results m) as Hm.
      rewrite Hlook in Hm. tauto.
    + intros Hr. exists (mode r).
      split; [apply elem_of_MODE_ORDER|].
      pose proof (resultMap_lookup results (mode r)) as Hm.
      destruct (resultMap results !! mode r) as [r'|].
      * destruct Hm as [Hmode Hr']. f_equal.
        apply list_elem_of_lookup_1 in Hr as [i Hi].
        apply list_elem_of_lookup_1 in Hr' as [j Hj].
        assert (i = j) as ->.
        { apply (NoDup_lookup (map mode results) i j (mode r)); [done | |].
          - by rewrite list_lookup_fmap, Hi.
          - change (map mode results) with (mode <$> results).
            by rewrite list_lookup_fmap, Hj, <- Hmode. }
        congruence.
      * exfalso. apply Hm. by apply list_elem_of_fmap_2.
Qed.

(** ** The page: the checks before a run *)

Lemma trim_nil_iff (l : list ascii) :
  JS.trim l = [] ↔ Forall (λ c, JS.isWhiteSpace c = true) l.
Proof.
  unfold JS.trim. rewrite rev_eq_nil, trimStart_nil.
  rewrite <- (trimStart_blank l). split; intros Hl.
  - apply Forall_rev in Hl. by rewrite rev_involutive in Hl.
  - by apply Forall_rev.
Qed.

(** X27. The page and the engine agree on what an empty query is: the page
    refuses to start a run, with the message about the search prefix,
    exactly for the queries that [runBenchmark] would answer with no
    result because they normalize to the empty string. A run that the
    page starts has a query that does not, and at least one mode. *)
Theorem page_guard_matches_short_circuit (query : string)
    (selectedModes : list Mode) :
  (runGuard query selectedModes = Some "Enter a search prefix to benchmark."
   ↔ normalize query = "")
  ∧ (runGuard query selectedModes = None
     ↔ normalize query ≠ "" ∧ selectedModes ≠ []).
Proof.
  unfold runGuard. rewrite normalize_empty_iff, <- trim_nil_iff.
  destruct (JS.trim (list_ascii_of_string query)) as [|c l] eqn:Htrim;
    simpl.
  - split; [done|]. split; [done | by intros [? _]].
  - destruct selectedModes as [|m ms]; simpl.
    + split; [split; [discriminate | done]|].
      split; [done | by intros [_ ?]].
    + split; [split; [discriminate | done]|]. done.
Qed.

(** ** The page: the CSV log *)

(** A field can be read back: where its closing quote is, and what text
    it holds, is determined by the characters of the row. *)
Lemma csv_field_inj (s t rest1 rest2 : list ascii) :
  head rest1 ≠ Some quoteChar → head rest2 ≠ Some quoteChar →
  doubleQuotes s ++ quoteChar :: rest1 = doubleQuotes t ++ quoteChar :: rest2 →
  s = t ∧ rest1 = rest2.
Proof.
  intros H1 H2. revert t.
  induction s as [|c s IH]; intros [|d t]; simpl.
  - by intros [= ->].
  - destruct (Ascii.eqb_spec d quoteChar) as [->|Hd]; simpl.
    + intros [= ->]. by simpl in H1.
    + intros [= <-]. done.
  - destruct (Ascii.eqb_spec c quoteChar) as [->|Hc]; simpl.
    + intros [= <-]. by simpl in H2.
    + intros [= ->]. done.
  - destruct (Ascii.eqb_spec c quoteChar) as [->|Hc],
      (Ascii.eqb_spec d quoteChar) as [->|Hd]; simpl.
    + intros [= Heq]. by destruct (IH t Heq) as [-> ->].
    + intros [= <-]. done.
    + intros [= ->]. done.
    + intros [= <- Heq]. by destruct (IH t Heq) as [-> ->].
Qed.

Lemma list_ascii_of_string_app (s t : string) :
  list_ascii_of_string (s +:+ t)
  = list_ascii_of_string s ++ list_ascii_of_string t.
Proof. induction s as [|c s IH]; [done|]. simpl. by rewrite <- IH. Qed.

Lemma csv_row_chars (x : string) (xs : list string) :
  list_ascii_of_string (String.concat "," (x :: xs))
  = list_ascii_of_string x
    ++ match xs with
       | [] => []
       | _ :: _ => ","%char :: list_ascii_of_string (String.concat "," xs)
       end.
Proof.
  destruct xs as [|y xs]; simpl; [by rewrite app_nil_r|].
  by rewrite !list_ascii_of_string_app.
Qed.

Lemma list_ascii_of_string_inj (s t : string) :
  list_ascii_of_string s = list_ascii_of_string t → s = t.
Proof.
  intros Heq. apply (f_equal string_of_list_ascii) in Heq.
  by rewrite !string_of_list_ascii_of_string in Heq.
Qed.

Lemma csv_row_inj (vs vs' : list CsvValue) :
  String.concat "," (map escapeCsv vs) = String.concat "," (map escapeCsv vs') →
  map String_of vs = map String_of vs'.
Proof.
  revert vs'. induction vs as [|v vs IH]; intros [|v' vs'] Heq.
  - done.
  - apply (f_equal list_ascii_of_string) in Heq.
    rewrite map_cons, csv_row_chars in Heq. unfold escapeCsv in Heq.
    rewrite list_ascii_of_string_of_list_ascii in Heq. done.
  - apply (f_equal list_ascii_of_string) in Heq.
    rewrite map_cons, csv_row_chars in Heq. unfold escapeCsv in Heq.
    rewrite list_ascii_of_string_of_list_ascii in Heq. done.
  - apply (f_equal list_ascii_of_string) in Heq.
    rewrite !map_cons, !csv_row_chars in Heq. unfold escapeCsv in Heq.
    rewrite !list_ascii_of_string_of_list_ascii in Heq.
    simpl in Heq. injection Heq as Heq.
    rewrite <- !app_assoc in Heq. simpl in Heq.
    apply csv_field_inj in Heq as [Hfield Hrest].
    + apply list_ascii_of_string_inj in Hfield. simpl. rewrite Hfield.
      f_equal. apply IH.
      destruct vs as [|u vs], vs' as [|u' vs']; simpl in Hrest;
        [done | done | done |].
      injection Hrest as Hrest. by apply list_ascii_of_string_inj.
    + destruct vs; simpl; [done | discriminate].
    + destruct vs'; simpl; [done | discriminate].
Qed.

(** X21. The CSV log loses nothing and mixes nothing up: two arrays of
    values that [escapeCsv] and [join(",")] turn into the same row hold
    the same texts, whatever commas and quotes the texts contain (the
    query is typed by the user). [buildCsvRows] makes one row per result,
    of as many fields as the header has columns, so two logs with the
    same rows report the same field texts, result by result. *)
Theorem csv_rows_are_unambiguous :
  (∀ vs vs' : list CsvValue,
     String.concat "," (map escapeCsv vs)
     = String.concat "," (map escapeCsv vs') →
     map String_of vs = map String_of vs')
  ∧ (∀ meta result,
       length (csvFields meta result) = length CSV_COLUMNS)
  ∧ (∀ meta meta' results results',
       buildCsvRows meta results = buildCsvRows meta' results' →
       Forall2 (λ r r', map String_of (csvFields meta r)
                        = map String_of (csvFields meta' r'))
         results results').
Proof.
  split_and!; [apply csv_row_inj | intros; reflexivity |].
  intros meta meta' results. unfold buildCsvRows.
  induction results as [|r results IH]; intros [|r' results'] Heq;
    [constructor | discriminate | discriminate |].
  rewrite !map_cons in Heq.
  apply (inj2 cons) in Heq as [Hrow Hrows].
  constructor; [by apply csv_row_inj | by apply IH].
Qed.

(** ** [clamp] *)

(** X22. [clamp] never returns more than [max]; when [min <= max] the
    result lies between the two, is [value] itself when [value] does, and
    clamping again changes nothing; when the bounds are crossed the
    result is [max]. *)
Theorem clamp_bounds (value min max : Z) :
  clamp value min max ≤ max
  ∧ (min ≤ max →
     min ≤ clamp value min max
     ∧ (min ≤ value ≤ max → clamp value min max = value)
     ∧ clamp (clamp value min max) min max = clamp value min max)
  ∧ (max < min → clamp value min max = max).
Proof. unfold clamp. lia. Qed.

(** ** The seeding script *)

Section Batches.
Context (SE : SeedEnv).

Lemma queueWrites_inv (items : list Write) :
  ∀ batch log st',
    (length batch < 450)%nat →
    queueWrites SE items (batch, length batch, log) = Ok st' →
    ∃ bs batch',
      st' = (batch', length batch', log ++ bs)
      ∧ concat bs ++ batch' = batch ++ items
      ∧ Forall (λ b, length b = 450%nat) bs
      ∧ (length batch' < 450)%nat.
Proof.
  induction items as [|item items IH]; intros batch log st' Hlen;
    cbn [queueWrites].
  - intros [= <-]. exists [], batch.
    rewrite !app_nil_r. by split_and!.
  - destruct (Nat.leb_spec 450 (length batch + 1)) as [Hfull|Hroom].
    + unfold commitBatch, commit.
      destruct (Nat.eqb_spec (length batch + 1) 0) as [?|_]; [lia|].
      destruct (commitFails SE (length log)); cbn [result_bind]; [done|].
      intros Hrun. apply (IH [] _ _ ltac:(simpl; lia)) in Hrun
        as (bs & batch' & -> & Hcat & Hall & Hlen').
      exists ((batch ++ [item]) :: bs), batch'. split_and!.
      * by rewrite <- app_assoc.
      * simpl in *. rewrite <- !app_assoc. by rewrite Hcat.
      * constructor; [|done]. rewrite length_app. simpl. lia.
      * done.
    + cbn [result_bind]. intros Hrun.
      replace (length batch + 1)%nat with (length (batch ++ [item]))
        in Hrun by (rewrite length_app; simpl; lia).
      apply IH in Hrun
        as (bs & batch' & -> & Hcat & Hall & Hlen');
        [|rewrite length_app; simpl; lia].
      exists bs, batch'. split_and!; [done | | done | done].
      by rewrite Hcat, <- app_assoc.
Qed.

Lemma queueWrites_ok (items : list Write) :
  (∀ k, commitFails SE k = false) →
  ∀ batch opCount log,
    ∃ st', queueWrites SE items (batch, opCount, log) = Ok st'.
Proof.
  intros Hup. induction items as [|item items IH]; intros batch n log;
    cbn [queueWrites].
  - by eexists.
  - destruct (450 <=? n + 1)%nat; cbn [result_bind]; [|apply IH].
    unfold commitBatch, commit. rewrite Hup.
    destruct (n + 1 =? 0)%nat; cbn [result_bind]; apply IH.
Qed.

Lemma flushWrites_inv (items : list Write) (log log' : list (list Write)) :
  flushWrites SE items log = Ok log' →
  ∃ bs, log' = log ++ bs ∧ concat bs = items
        ∧ Forall (λ b, (1 ≤ length b ≤ 450)%nat) bs.
Proof.
  unfold flushWrites.
  destruct (queueWrites SE items ([], 0%nat, log)) as [st|] eqn:Hq; [|done].
  apply (queueWrites_inv items [] log st ltac:(simpl; lia)) in Hq
    as (bs & batch' & -> & Hcat & Hall & Hlen).
  assert (Forall (λ b, (1 ≤ length b ≤ 450)%nat) bs) as Hall'
    by (eapply Forall_impl; [exact Hall|]; simpl; lia).
  simpl. unfold commit.
  destruct (Nat.eqb_spec (length batch') 0) as [Hz|Hnz]; simpl.
  - intros [= <-]. exists bs. split_and!; [done | | done].
    apply nil_length_inv in Hz. subst. by rewrite app_nil_r in Hcat.
  - destruct (commitFails SE _); simpl; [done|]. intros [= <-].
    exists (bs ++ [batch']). split_and!.
    + by rewrite app_assoc.
    + rewrite concat_app. simpl. by rewrite app_nil_r.
    + apply Forall_app. split; [done|]. constructor; [lia | constructor].
Qed.

Lemma flushWrites_ok (items : list Write) (log : list (list Write)) :
  (∀ k, commitFails SE k = false) → ∃ log', flushWrites SE items log = Ok log'.
Proof.
  intros Hup. unfold flushWrites.
  destruct (queueWrites_ok items Hup [] 0%nat log) as [[[b n] l] ->].
  simpl. unfold commit. rewrite Hup. destruct (n =? 0)%nat; by eexists.
Qed.

Lemma flushBatches_inv rw iu pu ds (log log' : list (list Write)) :
  flushBatches SE rw iu pu ds log = Ok log' →
  ∃ bs,
    log' = log ++ bs
    ∧ concat bs
      = map recordWrite rw
        ++ map (indexWrite ds "index" false) iu
        ++ map (indexWrite ds "plaintextIndex" true) pu
    ∧ Forall (λ b, (1 ≤ length b ≤ 450)%nat) bs.
Proof.
  unfold flushBatches, queueIndex.
  destruct (flushWrites SE (map recordWrite rw) log) as [l1|] eqn:H1;
    [|done].
  apply flushWrites_inv in H1 as (b1 & -> & Hc1 & Ha1). simpl.
  destruct (flushWrites SE (map (indexWrite ds "index" false) iu) _)
    as [l2|] eqn:H2; [|done].
  apply flushWrites_inv in H2 as (b2 & -> & Hc2 & Ha2). simpl.
  intros H3. apply flushWrites_inv in H3 as (b3 & -> & Hc3 & Ha3).
  exists (b1 ++ b2 ++ b3). split_and!.
  - by rewrite <- !app_assoc.
  - by rewrite !concat_app, Hc1, Hc2, Hc3.
  - by rewrite !Forall_app.
Qed.

Lemma flushBatches_ok rw iu pu ds (log : list (list Write)) :
  (∀ k, commitFails SE k = false) →
  ∃ log', flushBatches SE rw iu pu ds log = Ok log'.
Proof.
  intros Hup. unfold flushBatches, queueIndex.
  destruct (flushWrites_ok (map recordWrite rw) log Hup) as [l1 ->]. simpl.
  destruct (flushWrites_ok (map (indexWrite ds "index" false) iu) l1 Hup)
    as [l2 ->]. simpl.
  apply flushWrites_ok, Hup.
Qed.

(** X23. [flushBatches] sends every pending write once, in order: the
    records, then the entries of the blind index, then those of the
    plaintext index. No batch that it commits is empty and none holds
    more than 450 writes, which is under the limit of 500 of a Firestore
    batch. It returns when no commit fails. *)
Theorem flushBatches_batches rw iu pu ds (log : list (list Write)) :
  (∀ log',
     flushBatches SE rw iu pu ds log = Ok log' →
     ∃ batches,
       log' = log ++ batches
       ∧ concat batches
         = map recordWrite rw
           ++ map (indexWrite ds "index" false) iu
           ++ map (indexWrite ds "plaintextIndex" true) pu
       ∧ Forall (λ b, (1 ≤ length b ≤ 450)%nat) batches)
  ∧ ((∀ k, commitFails SE k = false) →
     ∃ log', flushBatches SE rw iu pu ds log = Ok log').
Proof.
  split; [apply flushBatches_inv | apply flushBatches_ok].
Qed.

End Batches.

Lemma Map_append_mono map key x k ids :
  (k, ids) ∈ map →
  ∃ ids', (k, ids') ∈ Map_append map key x ∧ ids ⊆ ids'.
Proof.
  induction map as [|[k0 ids0] map IH]; [by intros Hin%elem_of_nil|].
  intros [Heq|Hin]%elem_of_cons; simpl.
  - injection Heq as -> ->. destruct (String.eqb k0 key).
    + exists (ids0 ++ [x]). split; [apply elem_of_cons; by left|].
      intros y Hy. apply elem_of_app. by left.
    + exists ids0. split; [apply elem_of_cons; by left | done].
  - destruct (String.eqb k0 key).
    + exists ids. split; [apply elem_of_cons; by right | done].
    + destruct (IH Hin) as (ids' & Hin' & Hsub).
      exists ids'. split; [apply elem_of_cons; by right | done].
Qed.

Lemma Map_append_new map key x : covered (Map_append map key x) key x.
Proof.
  unfold covered. induction map as [|[k0 ids0] map IH]; simpl.
  - exists [x]. split; apply elem_of_cons; by left.
  - destruct (String.eqb_spec k0 key) as [->|Hne].
    + exists (ids0 ++ [x]). split; [apply elem_of_cons; by left|].
      apply elem_of_app. right. apply elem_of_cons. by left.
    + destruct IH as (ids & Hin & Hx).
      exists ids. split; [apply elem_of_cons; by right | done].
Qed.

Lemma covered_Map_append map key x k y :
  covered map k y → covered (Map_append map key x) k y.
Proof.
  intros (ids & Hin & Hy).
  destruct (Map_append_mono map key x k ids Hin) as (ids' & Hin' & Hsub).
  exists ids'. split; [done | by apply Hsub].
Qed.

Lemma elem_of_foldl_Set_add (l acc : list string) (x : string) :
  x ∈ foldl Set_add acc l ↔ x ∈ acc ∨ x ∈ l.
Proof.
  revert acc. induction l as [|y l IH]; intros acc; simpl.
  - split; [by left | intros [?|Hin]; [done | by apply elem_of_nil in Hin]].
  - rewrite IH, elem_of_Set_add, elem_of_cons. tauto.
Qed.

Section SeedFacts.
Context `{Platform} `{Json PersonRecord} (SE : SeedEnv).

(** The loop over the prefixes of one record. *)
Lemma seed_prefixes_inv (key : CryptoKey) (id : string) (ps : list string) :
  ∀ iu pu updates,
    foldR (λ updates prefix,
             result_bind (computeToken prefix key)
               (λ token, Ok (Map_append (fst updates) token id,
                             Map_append (snd updates) prefix id)))
      (iu, pu) ps = Ok updates →
    (∀ k y, covered iu k y → covered (fst updates) k y)
    ∧ (∀ k y, covered pu k y → covered (snd updates) k y)
    ∧ (∀ p, p ∈ ps →
         covered (snd updates) p id
         ∧ ∃ token, computeToken p key = Ok token
                    ∧ covered (fst updates) token id)
    ∧ (ps = [] → updates = (iu, pu)).
Proof.
  induction ps as [|p ps IH]; intros iu pu updates; simpl.
  - intros [= <-]. split_and!; [done | done | | done].
    by intros p Hp%elem_of_nil.
  - destruct (computeToken p key) as [token|] eqn:Htoken; [|done]. simpl.
    intros Hrun. apply IH in Hrun as (Hiu & Hpu & Hps & _).
    split_and!.
    + intros k y Hc. by apply Hiu, covered_Map_append.
    + intros k y Hc. by apply Hpu, covered_Map_append.
    + intros p' [->|Hp']%elem_of_cons; [|by apply Hps].
      split; [apply Hpu, Map_append_new|].
      exists token. split; [done|]. apply Hiu, Map_append_new.
    + done.
Qed.

Lemma seed_prefixes_ok (key : CryptoKey) (id : string) (ps : list string) :
  (∀ p, ∃ token, computeToken p key = Ok token) →
  ∀ updates0, ∃ updates,
    foldR (λ updates prefix,
             result_bind (computeToken prefix key)
               (λ token, Ok (Map_append (fst updates) token id,
                             Map_append (snd updates) prefix id)))
      updates0 ps = Ok updates.
Proof.
  intros Htok. induction ps as [|p ps IH]; intros updates0; simpl.
  - by eexists.
  - destruct (Htok p) as [token ->]. simpl. apply IH.
Qed.

(** The writes of an index map. *)
Lemma indexes_indexWrite ds coll (b : bool) updates path pfx x :
  indexes (map (indexWrite ds coll b) updates) path pfx x
  ↔ ∃ k, covered updates k x
         ∧ path = "datasets/" +:+ ds +:+ "/" +:+ coll +:+ "/" +:+ k
         ∧ pfx = (if b then Some k else None).
Proof.
  unfold indexes, covered. split.
  - intros (ids & Hin & Hx). apply list_elem_of_fmap in Hin
      as ([k ids'] & Heq & Hin). unfold indexWrite in Heq. simpl in Heq.
    injection Heq as -> -> ->. exists k. split; [by exists ids' | done].
  - intros (k & (ids & Hin & Hx) & -> & ->). exists ids. split; [|done].
    apply list_elem_of_fmap. by exists (k, ids).
Qed.

(** Writes that are there to stay: pending or committed, a later step
    keeps the records and only adds ids to the index documents. *)
Lemma seeded_mono ds keys j (W W' : list Write) :
  (∀ path ct iv, SetRecord path ct iv ∈ W → SetRecord path ct iv ∈ W') →
  (∀ path pfx x, indexes W path pfx x → indexes W' path pfx x) →
  seeded SE ds keys j W → seeded SE ds keys j W'.
Proof.
  intros Hrec Hidx [(data & Hdata & Hin) Hps]. split.
  - exists data. split; [done | by apply Hrec].
  - intros p Hp. destruct (Hps p Hp) as (Hplain & token & Htoken & Hblind).
    split; [by apply Hidx|]. exists token. split; [done | by apply Hidx].
Qed.

Lemma seedRecord_inv ds keys log i st st' :
  seed_invariant SE ds keys log i st →
  seedRecord SE ds keys st i = Ok st' →
  seed_invariant SE ds keys log (S i) st'.
Proof.
  intros (batches & Hlog & Hsize & Hempty & Hseeded). unfold seedRecord.
  destruct (encryptJson _ _ _) as [data|] eqn:Hdata; [|done].
  cbn [result_bind].
  destruct (foldR _ _ _) as [[iu pu]|] eqn:Hfold; [|done].
  cbn [result_bind fst snd].
  apply seed_prefixes_inv in Hfold as (Hiu & Hpu & Hps & _).
  cbn [fst snd] in Hiu, Hpu, Hps.
  set (st1 := {| recordWrites := recordWrites st
                                  ++ [(recordsPath ds +:+ "/" +:+ newId SE i,
                                       data)];
                 indexUpdates := iu; plaintextUpdates := pu;
                 committed := committed st |}).
  assert (seed_invariant SE ds keys log (S i) st1) as Hinv.
  { exists batches. split_and!; [done | done | |].
    - unfold st1. cbn [recordWrites]. intros Hnil.
      by apply app_eq_nil in Hnil as [_ [=]].
    - assert (∀ j, seeded SE ds keys j
                     (concat batches ++ pendingWrites ds st) →
                   seeded SE ds keys j
                     (concat batches ++ pendingWrites ds st1)) as Hmono.
      { intros j. apply seeded_mono.
        - intros path ct iv. unfold pendingWrites, st1.
          cbn [recordWrites indexUpdates plaintextUpdates].
          rewrite !elem_of_app, map_app, elem_of_app.
          intros [?|[?|[Hin|Hin]]]; [tauto | tauto | |];
            apply list_elem_of_fmap in Hin as (? & [=] & _).
        - intros path pfx x. unfold pendingWrites, indexes, st1.
          cbn [recordWrites indexUpdates plaintextUpdates].
          intros (ids & Hin & Hx).
          rewrite !elem_of_app in Hin.
          destruct Hin as [Hin|[Hin|[Hin|Hin]]].
          + exists ids. rewrite !elem_of_app. tauto.
          + apply list_elem_of_fmap in Hin as (? & [=] & _).
          + destruct (proj1 (indexes_indexWrite ds "index" false
                               (indexUpdates st) path pfx x))
              as (k & Hc & -> & ->); [by exists ids|].
            destruct (proj2 (indexes_indexWrite ds "index" false iu
                               ("datasets/" +:+ ds +:+ "/" +:+ "index"
                                +:+ "/" +:+ k) None x))
              as (ids' & Hin' & Hx'); [exists k; by split_and!; auto|].
            exists ids'. rewrite !elem_of_app. tauto.
          + destruct (proj1 (indexes_indexWrite ds "plaintextIndex" true
                               (plaintextUpdates st) path pfx x))
              as (k & Hc & -> & ->); [by exists ids|].
            destruct (proj2 (indexes_indexWrite ds "plaintextIndex" true pu
                               ("datasets/" +:+ ds +:+ "/"
                                +:+ "plaintextIndex" +:+ "/" +:+ k)
                               (Some k) x))
              as (ids' & Hin' & Hx'); [exists k; by split_and!; auto|].
            exists ids'. rewrite !elem_of_app. tauto. }
      intros j Hj. destruct (decide (j = i)) as [->|Hne];
        [|apply Hmono, Hseeded; lia].
      split.
      + exists data. split; [done|]. unfold pendingWrites, st1.
          cbn [recordWrites indexUpdates plaintextUpdates].
        rewrite map_app, !elem_of_app. right. left. right.
        apply elem_of_cons. by left.
      + intros p Hp.
        assert (p ∈ searchPrefixes
                      (personRecord (newId SE i) (createPerson i))) as Hsp.
        { unfold searchPrefixes. apply elem_of_foldl_Set_add. right.
          by apply elem_of_app. }
        destruct (Hps p Hsp) as (Hplain & token & Htoken & Hblind).
        split.
        * destruct (proj2 (indexes_indexWrite ds "plaintextIndex" true pu
                             (plaintextIndexPath ds p) (Some p)
                             (newId SE i)))
            as (ids & Hin & Hx); [by exists p|].
          exists ids. split; [|done]. unfold pendingWrites, st1.
          cbn [recordWrites indexUpdates plaintextUpdates].
          rewrite !elem_of_app. tauto.
        * exists token. split; [done|].
          destruct (proj2 (indexes_indexWrite ds "index" false iu
                             (indexPath ds token) None (newId SE i)))
            as (ids & Hin & Hx); [by exists token|].
          exists ids. split; [|done]. unfold pendingWrites, st1.
          cbn [recordWrites indexUpdates plaintextUpdates].
          rewrite !elem_of_app. tauto. }
  clearbody st1. clear -Hinv. unfold flushIfNeeded.
  destruct (_ && _)%nat; [|by intros [= <-]].
  destruct (flushBatches _ _ _ _ _ _) as [log'|] eqn:Hflush; [|done].
  cbn [result_bind]. intros [= <-].
  destruct Hinv as (batches & Hlog & Hsize & _ & Hseeded).
  apply flushBatches_inv in Hflush as (bs & -> & Hcat & Hbs).
  exists (batches ++ bs). split_and!.
  - cbn [committed]. by rewrite Hlog, app_assoc.
  - by apply Forall_app.
  - done.
  - intros j Hj. unfold pendingWrites at 1.
    cbn [recordWrites indexUpdates plaintextUpdates map app].
    rewrite concat_app, Hcat, app_nil_r. by apply Hseeded.
Qed.

Lemma seedLoop_inv ds keys log (n : nat) :
  ∀ i st st',
    seed_invariant SE ds keys log i st →
    foldR (seedRecord SE ds keys) st (seq i n) = Ok st' →
    seed_invariant SE ds keys log (i + n) st'.
Proof.
  induction n as [|n IH]; intros i st st' Hinv; cbn [seq foldR].
  - intros [= <-]. by rewrite Nat.add_0_r.
  - destruct (seedRecord SE ds keys st i) as [st1|] eqn:Hstep; [|done].
    cbn [result_bind]. intros Hrun.
    apply (seedRecord_inv ds keys log i st st1 Hinv) in Hstep.
    apply (IH _ _ _ Hstep) in Hrun.
    by replace (i + S n)%nat with (S i + n)%nat by lia.
Qed.

Lemma seedLoop_ok ds keys (n : nat) :
  (∀ k, commitFails SE k = false) →
  (∀ iv (P : PersonRecord), ∃ e, encryptJson iv P (encKey keys) = Ok e) →
  (∀ p, ∃ token, computeToken p (indexKey keys) = Ok token) →
  ∀ i st, ∃ st', foldR (seedRecord SE ds keys) st (seq i n) = Ok st'.
Proof.
  intros Hup Henc Htok. induction n as [|n IH]; intros i st;
    cbn [seq foldR].
  - by eexists.
  - assert (∃ st1, seedRecord SE ds keys st i = Ok st1) as [st1 ->].
    { unfold seedRecord.
      destruct (Henc (newIv SE i)
                  (personRecord (newId SE i) (createPerson i))) as [e ->].
      cbn [result_bind].
      destruct (seed_prefixes_ok (indexKey keys) (newId SE i)
                  (searchPrefixes
                     (personRecord (newId SE i) (createPerson i)))
                  Htok (indexUpdates st, plaintextUpdates st))
        as [updates ->].
      cbn [result_bind]. unfold flushIfNeeded.
      destruct (_ && _)%nat; [|by eexists].
      cbn [recordWrites indexUpdates plaintextUpdates committed].
      destruct (flushBatches_ok SE
                  (recordWrites st
                   ++ [(recordsPath ds +:+ "/" +:+ newId SE i, e)])
                  (fst updates) (snd updates) ds (committed st) Hup)
        as [log' ->].
      by eexists. }
    cbn [result_bind]. apply IH.
Qed.

Lemma seedDataset_inv (ds : string) (count : nat)
    (log log' : list (list Write)) :
  seedDataset SE ds count log = Ok log' →
  ∃ keys batches,
    deriveKeys (passphrase SE) (salt SE)
      (if pqMode SE then PQ_KDF else DEFAULT_KDF) = Ok keys
    ∧ log' = log ++ [SetDataset ("datasets/" +:+ ds) ds count] :: batches
    ∧ Forall (λ b, (1 ≤ length b ≤ 450)%nat) batches
    ∧ ∀ i, (i < count)%nat → seeded SE ds keys i (concat batches).
Proof.
  unfold seedDataset, commit.
  destruct (commitFails SE (length log)); [done|]. cbn [result_bind].
  destruct (deriveKeys _ _ _) as [keys|] eqn:Hkeys; [|done].
  cbn [result_bind].
  destruct (foldR _ _ _) as [st|] eqn:Hloop; [|done]. cbn [result_bind].
  apply (seedLoop_inv ds keys
           (log ++ [[SetDataset ("datasets/" +:+ ds) ds count]])
           count 0) in Hloop.
  2:{ exists []. split_and!; [by rewrite app_nil_r | done | done |].
      intros j Hj. lia. }
  destruct Hloop as (batches & Hlog & Hsize & Hempty & Hseeded).
  cbn [Nat.add] in Hseeded.
  destruct (Nat.ltb_spec 0 (length (recordWrites st))) as [Hsome|Hnone].
  - intros Hflush.
    apply flushBatches_inv in Hflush as (bs & -> & Hcat & Hbs).
    exists keys, (batches ++ bs). split_and!.
    + done.
    + rewrite Hlog, <- !app_assoc. done.
    + by apply Forall_app.
    + intros i Hi. rewrite concat_app, Hcat. by apply Hseeded.
  - intros [= <-]. exists keys, batches.
    assert (recordWrites st = []) as Hrw
      by (apply nil_length_inv; lia).
    destruct (Hempty Hrw) as [Hiu Hpu].
    split_and!; [done | by rewrite Hlog, <- app_assoc | done |].
    intros i Hi. specialize (Hseeded i Hi).
    unfold pendingWrites in Hseeded.
    by rewrite Hrw, Hiu, Hpu, app_nil_r in Hseeded.
Qed.

Lemma seedDataset_ok (ds : string) (count : nat) (log : list (list Write)) :
  (∀ k, commitFails SE k = false) →
  ∃ log', seedDataset SE ds count log = Ok log'.
Proof.
  intros Hup. unfold seedDataset, commit. rewrite Hup.
  cbn [result_bind]. rewrite deriveKeys_eq by apply kdf_iterations.
  cbn zeta. cbn [result_bind].
  match goal with
  | |- context [foldR (seedRecord SE ds ?keys) ?st0 _] =>
      destruct (seedLoop_ok ds keys count Hup) with (i := 0%nat) (st := st0)
        as [st ->]
  end.
  - intros iv P. unfold encryptJson. by eexists.
  - intros p. unfold computeToken. by eexists.
  - cbn [result_bind]. destruct (0 <? _)%nat; [|by eexists].
    apply flushBatches_ok, Hup.
Qed.

(** X24. [seedDataset] indexes every record that it writes. When it
    returns, what it committed after the dataset document are batches of
    1 to 450 writes which hold, for each of the [count] records, the
    record encrypted with its document id, that id under every prefix of
    the record's name and email in the plaintext index, and under the
    token of every such prefix in the blind index. It returns whenever no
    commit fails. *)
Theorem seedDataset_indexes_every_record (ds : string) (count : nat)
    (log : list (list Write)) :
  (∀ log',
     seedDataset SE ds count log = Ok log' →
     ∃ keys batches,
       deriveKeys (passphrase SE) (salt SE)
         (if pqMode SE then PQ_KDF else DEFAULT_KDF) = Ok keys
       ∧ log' = log ++ [SetDataset ("datasets/" +:+ ds) ds count] :: batches
       ∧ Forall (λ b, (1 ≤ length b ≤ 450)%nat) batches
       ∧ ∀ i, (i < count)%nat → seeded SE ds keys i (concat batches))
  ∧ ((∀ k, commitFails SE k = false) →
     ∃ log', seedDataset SE ds count log = Ok log').
Proof.
  split; [apply seedDataset_inv | apply seedDataset_ok].
Qed.

Lemma indexes_mono (W W' : list Write) path pfx x :
  W ⊆ W' → indexes W path pfx x → indexes W' path pfx x.
Proof. intros Hsub (ids & Hin & Hx). exists ids. split; [by apply Hsub | done]. Qed.

(** X30. What the seeding script writes is where the searches look. When
    [seedDataset] returns and a record that it wrote matches a query of 1
    to 20 characters, in the sense of the scans, then the writes hold the
    id of the record in the document of the plaintext index that
    Plaintext Index mode reads for the query, and in the document of the
    blind index that Blind Index mode reads for it under the same keys. *)
Theorem seed_serves_search (ds : string) (count : nat)
    (log log' : list (list Write)) :
  seedDataset SE ds count log = Ok log' →
  ∃ keys,
    deriveKeys (passphrase SE) (salt SE)
      (if pqMode SE then PQ_KDF else DEFAULT_KDF) = Ok keys
    ∧ ∀ i q,
        (i < count)%nat → q ≠ "" → (String.length q ≤ 20)%nat →
        matchesQuery q (personRecord (newId SE i) (createPerson i)) = true →
        indexes (concat log')
          (plaintextIndexPath ds (encodePrefixDocId q)) (Some q)
          (newId SE i)
        ∧ ∃ token,
            computeToken q (indexKey keys) = Ok token
            ∧ indexes (concat log') (indexPath ds token) None (newId SE i).
Proof.
  intros Hrun.
  apply seedDataset_inv in Hrun as (keys & batches & Hkeys & -> & _ & Hall).
  exists keys. split; [done|]. intros i q Hi Hne Hlen Hmatch.
  destruct (Hall i Hi) as [_ Hps].
  assert (concat batches
          ⊆ concat (log ++ [SetDataset ("datasets/" +:+ ds) ds count]
                           :: batches)) as Hsub.
  { intros x Hx. rewrite concat_app, concat_cons, !elem_of_app. tauto. }
  unfold matchesQuery in Hmatch. cbv zeta in Hmatch.
  apply orb_true_iff in Hmatch.
  destruct (Hps q) as (Hplain & token & Htoken & Hblind).
  { unfold prefixes_default.
    destruct Hmatch as [Hm|Hm]; [left | right];
      apply elem_of_prefixes; (split_and!; [done | lia | exact Hm]). }
  split; [by apply (indexes_mono _ _ _ _ _ Hsub)|].
  exists token. split; [done | by apply (indexes_mono _ _ _ _ _ Hsub)].
Qed.

End SeedFacts.

(** ** The synthetic people *)

Lemma pick_add {T} (l : list T) (seed k : nat) :
  pick l (seed + k * length l) = pick l seed.
Proof. unfold pick. by rewrite Nat.Div0.mod_add. Qed.

Lemma pick_elem {T} (l : list T) (seed : nat) :
  l ≠ [] → ∃ x, pick l seed = Some x ∧ x ∈ l.
Proof.
  intros Hne. unfold pick.
  assert (seed mod length l < length l)%nat as Hlt
    by (apply Nat.mod_upper_bound; by destruct l).
  apply lookup_lt_is_Some in Hlt as [x Hx].
  exists x. split; [done|]. by eapply list_elem_of_lookup_2.
Qed.

(** X25. The synthetic data repeats. [pick] is never [undefined] on the
    lists of the script, so a name is a first name and a last name of the
    lists; the name of a record comes again 20 records later, its city
    and its company 10 records later. A dataset of [count] records has
    at most 20 names, so a name that occurs at all has about [count / 20]
    matches. *)
Theorem createPerson_repeats (index : nat) :
  p_name (createPerson (index + 20)) = p_name (createPerson index)
  ∧ p_city (createPerson (index + 10)) = p_city (createPerson index)
  ∧ p_company (createPerson (index + 10)) = p_company (createPerson index)
  ∧ (∃ first last,
       first ∈ FIRST_NAMES ∧ last ∈ LAST_NAMES
       ∧ p_name (createPerson index) = first +:+ " " +:+ last)
  ∧ p_city (createPerson index) ∈ CITIES
  ∧ p_company (createPerson index) ∈ COMPANIES.
Proof.
  unfold createPerson. cbn [p_name p_city p_company].
  replace ((index + 20) * 7 + 3)%nat
    with (index * 7 + 3 + 7 * length FIRST_NAMES)%nat by (simpl; lia).
  replace ((index + 20) * 11 + 5)%nat
    with (index * 11 + 5 + 11 * length LAST_NAMES)%nat by (simpl; lia).
  replace ((index + 10) * 13 + 1)%nat
    with (index * 13 + 1 + 13 * length CITIES)%nat by (simpl; lia).
  replace ((index + 10) * 17 + 9)%nat
    with (index * 17 + 9 + 17 * length COMPANIES)%nat by (simpl; lia).
  rewrite !pick_add.
  destruct (pick_elem FIRST_NAMES (index * 7 + 3) ltac:(done))
    as (first & -> & Hfirst).
  destruct (pick_elem LAST_NAMES (index * 11 + 5) ltac:(done))
    as (last & -> & Hlast).
  destruct (pick_elem CITIES (index * 13 + 1) ltac:(done))
    as (city & -> & Hcity).
  destruct (pick_elem COMPANIES (index * 17 + 9) ltac:(done))
    as (company & -> & Hcompany).
  split_and!; try done. by exists first, last.
Qed.

(** ** The earlier copy of the benchmark module *)

Section Part002Facts.
Context `{Platform} `{Json PersonRecord} (E : Env).

Lemma getDatasetSize_cases (ds : string) :
  getDatasetSize ds = 1000 ∨ getDatasetSize ds = 10000
  ∨ getDatasetSize ds = 100000.
Proof.
  unfold getDatasetSize, DATASET_SIZES. cbn [List.find fst snd].
  destruct (String.eqb "people-1k" ds); [by left|].
  destruct (String.eqb "people-10k" ds); [right; by left|].
  destruct (String.eqb "people-100k" ds); [right; by right | by left].
Qed.

(** X26. In the earlier copy of the module, Decrypt-and-Scan samples. For
    a dataset id that is not a name inherited from [Object.prototype], it
    reads one page, of the whole dataset when that has 1000 records and
    of 2000 records when it has more, so it examines at most 2000
    records; and it says so in [sampleNote] exactly when the dataset is
    larger than the sample. *)
Theorem part002_scan_is_sampled ds q keys (w : World) r w' :
  ds ∉ Object_prototype_names →
  Part002.runDecryptScan E ds q keys w = Ok (r, w') →
  let size := getDatasetSize ds in
  let sampleSize := if size <=? 1000 then size else 2000 in
  requests w' = requests w ++ [GetDocsPage (recordsPath ds) None sampleSize]
  ∧ sampleSize ≤ 2000
  ∧ (resultCount r ≤ 2000)%nat
  ∧ (is_Some (sampleNote r) ↔ sampleSize < size).
Proof.
  unfold Part002.runDecryptScan. intros _ Hrun.
  inv_bind Hrun. destruct a as [docs fetchMs].
  apply fetchRecordPage_inv in Hm as (-> & -> & ->).
  inv_bind Hrun. rewrite decryptRecords_eq in Hm.
  destruct (decryptAll _ _) as [records|] eqn:Hdec; [|done].
  injection Hm as <- <-.
  inv_bind Hrun. rewrite scanRecords_eq in Hm. injection Hm as <- <-.
  injection Hrun as <- <-. cbn [resultCount sampleNote requests advance].
  rewrite !app_nil_r.
  apply decryptAll_ids in Hdec. apply (f_equal length) in Hdec.
  rewrite !length_map in Hdec.
  pose proof (filter_length_le (matchesQuery q) records) as Hle.
  unfold page_of in Hdec. rewrite length_take in Hdec.
  match type of Hdec with
  | _ = (Z.to_nat ?s `min` _)%nat =>
      assert (Z.of_nat (length records) ≤ Z.max 0 s) as Hbound by lia
  end.
  clear Hdec. unfold Part002.buildSampleNote.
  destruct (getDatasetSize_cases ds) as [Hsize | [Hsize | Hsize]];
    rewrite Hsize in *; simpl in *;
    (split_and!; [done | lia | lia |]);
    (split; [intros [? ?]; first [done | lia]
            | intros ?; first [exfalso; lia | by eexists]]).
Qed.

End Part002Facts.

(** ** Durations and notes *)

Section Durations.
Context `{Platform} `{Json PersonRecord} (E : Env).

Lemma lap_le_span (n m : nat) :
  clock_monotone E → (n < m)%nat → lap E n ≤ clock E m - clock E n.
Proof.
  intros Hmono Hlt. unfold lap.
  pose proof (Hmono (n + 1)%nat m ltac:(lia)). lia.
Qed.

Lemma runMode_durations fuel ds q keys m w r w' :
  clock_monotone E →
  runMode E fuel ds q keys m w = Ok (r, w') →
  let b := breakdown r in
  0 ≤ indexMs b ∧ 0 ≤ fetchMs b ∧ 0 ≤ decryptMs b ∧ 0 ≤ scanMs b
  ∧ indexMs b ≤ totalMs r ∧ fetchMs b ≤ totalMs r
  ∧ decryptMs b ≤ totalMs r ∧ scanMs b ≤ totalMs r.
Proof.
  intros Hmono.
  assert (∀ n, 0 ≤ lap E n) as Hlap by (intros n; by apply lap_nonneg).
  destruct m; simpl; intros Hrun.
  - apply runBlindIndex_inv in Hrun as (token & _ & Hrun).
    apply fetchBucket_inv in Hrun as (? & ? & _ & _ & -> & _). simpl.
    pose proof (Hlap (nowCalls w)). pose proof (Hlap (nowCalls w + 2)%nat).
    pose proof (Hlap (nowCalls w + 2 + 2)%nat). lia.
  - apply runDecryptScan_inv in Hrun as (? & ? & ? & _ & -> & _). simpl.
    pose proof (Hlap (nowCalls w)). pose proof (Hlap (nowCalls w + 2)%nat).
    pose proof (Hlap (nowCalls w + 4)%nat). lia.
  - destruct (cache_lookup E ds w) as [c|] eqn:Hc.
    + destruct (runClientCache_warm E ds q keys w c Hc)
        as (r0 & Hr0 & _ & Htotal & Hb & _).
      rewrite Hr0 in Hrun. injection Hrun as <- _.
      rewrite Hb, Htotal. simpl.
      pose proof (Hlap (nowCalls w)).
      pose proof (Hlap (nowCalls w + 2)%nat). lia.
    + apply (runClientCache_cold E ds q keys w r w' Hc) in Hrun
        as (records & _ & _ & Htotal & Hb & _).
      rewrite Hb, Htotal. simpl.
      pose proof (Hlap (nowCalls w + 3)%nat).
      pose proof (Hlap (nowCalls w + 5)%nat).
      pose proof (Hlap (nowCalls w + 8)%nat).
      pose proof (Hmono (nowCalls w + 2) (nowCalls w + 3) ltac:(lia))%nat.
      pose proof (Hmono (nowCalls w + 4) (nowCalls w + 5) ltac:(lia))%nat.
      pose proof (Hmono (nowCalls w + 6) (nowCalls w + 7) ltac:(lia))%nat.
      unfold lap in *.
      replace (nowCalls w + 3 + 1)%nat with (nowCalls w + 4)%nat in * by lia.
      replace (nowCalls w + 5 + 1)%nat with (nowCalls w + 6)%nat in * by lia.
      lia.
  - apply runPlaintextIndex_inv in Hrun.
    apply fetchBucket_inv in Hrun as (? & ? & _ & _ & -> & _). simpl.
    pose proof (Hlap (nowCalls w)). pose proof (Hlap (nowCalls w + 2)%nat).
    pose proof (Hlap (nowCalls w + 2 + 2)%nat). lia.
Qed.

(** X28. With a clock that does not go back, no duration that
    [runBenchmark] reports for a phase is negative, and no phase lasts
    longer than the total of its mode. *)
Theorem durations_are_sound fuel (opts : Options) (w : World) rs w' :
  clock_monotone E →
  runBenchmark E fuel opts w = Ok (rs, w') →
  Forall (λ r,
            let b := breakdown r in
            0 ≤ indexMs b ∧ 0 ≤ fetchMs b ∧ 0 ≤ decryptMs b ∧ 0 ≤ scanMs b
            ∧ indexMs b ≤ totalMs r ∧ fetchMs b ≤ totalMs r
            ∧ decryptMs b ≤ totalMs r ∧ scanMs b ≤ totalMs r) rs.
Proof.
  intros Hmono Hrun.
  destruct (decide (normalize (opt_query opts) = "")) as [Hq|Hq].
  - rewrite runBenchmark_empty in Hrun by done.
    injection Hrun as <- _. constructor.
  - apply (runBenchmark_inv E _ _ _ _ _ Hq) in Hrun as (keys & _ & Hall).
    induction Hall as [|m r ms rs (w1 & w2 & Hm) _ IH]; constructor;
      [|done].
    by apply runMode_durations in Hm.
Qed.

(** X29. Client Cache says when its snapshot may miss records. For a
    dataset id that is not a name inherited from [Object.prototype], a
    cold run carries a [sampleNote] exactly when the dataset is larger than
    the cap of the cache; a warm run, exactly when the snapshot counts
    fewer records than the dataset has. *)
Theorem clientCache_notes_truncation ds q keys (w : World) r w' :
  ds ∉ Object_prototype_names →
  runClientCache E ds q keys w = Ok (r, w') →
  match cache_lookup E ds w with
  | Some c =>
      is_Some (sampleNote r)
      ↔ Z.of_nat (cached_recordCount c) < getDatasetSize ds
  | None => is_Some (sampleNote r) ↔ CACHE_CAP < getDatasetSize ds
  end.
Proof.
  intros _ Hrun. unfold runClientCache in Hrun.
  rewrite (bind_Ok _ _ _ _ _ (now_eq E w)) in Hrun.
  rewrite (bind_Ok _ _ _ _ _ (getCachedDataset_eq E ds _)) in Hrun.
  change (cache_lookup E ds (advance w 1 [])) with (cache_lookup E ds w)
    in Hrun.
  destruct (cache_lookup E ds w) as [c|].
  - rewrite (bind_Ok _ _ _ _ _ (now_eq E _)) in Hrun.
    unfold bind at 1 in Hrun. unfold ret at 1 in Hrun.
    rewrite (bind_Ok _ _ _ _ _ (now_eq E _)) in Hrun.
    rewrite (bind_Ok _ _ _ _ _ (now_eq E _)) in Hrun.
    injection Hrun as <- _. cbn [sampleNote].
    destruct (Z.ltb_spec (Z.of_nat (cached_recordCount c))
                (getDatasetSize ds)).
    + split; [done | by eexists].
    + split; [by intros [? ?] | lia].
  - rewrite (bind_Ok _ _ _ _ _ (now_eq E _)) in Hrun.
    inv_bind Hrun.
    destruct a as [[[[cacheBuildMs fetchMs] decryptMs] records] note].
    unfold buildCache in Hm.
    rewrite (bind_Ok _ _ _ _ _ (now_eq E _)) in Hm.
    inv_bind Hm. destruct a as [docs fetched].
    apply fetchRecordPage_inv in Hm0 as (-> & -> & ->).
    inv_bind Hm. rewrite decryptRecords_eq in Hm0.
    destruct (decryptAll _ _) as [decrypted|] eqn:Hdec; [|done].
    injection Hm0 as <- <-.
    rewrite (bind_Ok _ _ _ _ _ (now_eq E _)) in Hm.
    inv_bind Hm. injection Hm0 as <- <-.
    inv_bind Hm. unfold setCachedDataset in Hm0.
    destruct (idbFails _ _); [done|]. injection Hm0 as <- <-.
    injection Hm as <- <- <- <- <- <-.
    rewrite (bind_Ok _ _ _ _ _ (now_eq E _)) in Hrun.
    rewrite (bind_Ok _ _ _ _ _ (now_eq E _)) in Hrun.
    injection Hrun as <- _. cbn [sampleNote].
    destruct (Z.ltb_spec CACHE_CAP (getDatasetSize ds)).
    + split; [done | by eexists].
    + split; [by intros [? ?] | lia].
Qed.

End Durations.

(** ** The further properties at work on the sample project *)

Module Cases.
Import StandIn Sample SampleSeed.

(** The stand-in platform writes RFC 4648 base64. *)
Lemma standin_base64_is_rfc4648 : base64_is_rfc4648 (H := platform).
Proof.
  intros b. unfold bytesToBase64. simpl. unfold bytes_of_binary. f_equal.
  rewrite list_ascii_of_string_of_list_ascii, <- list_fmap_compose.
  rewrite <- (list_fmap_id b) at 2. apply list_fmap_ext.
  intros _ x _. apply byte_of_ascii_of_byte.
Qed.

(** Run [m], which touches no store, and hand its result to [k]. *)
Ltac compute_result m k :=
  let run := eval vm_compute in m in
  lazymatch run with
  | Ok ?a => k a
  end.

(** Run [m] and hand its result and the world after it to [k]. *)
Ltac run_in_world m k :=
  let run := eval vm_compute in m in
  lazymatch run with
  | Ok (?a, ?w) => k a w
  end.

Lemma ids_ascending_docs :
  ids_ascending (fsCollection (env ["r1"; "r2"]) (recordsPath "people-1k")).
Proof.
  split.
  - repeat constructor.
  - repeat constructor; discriminate.
Qed.

(** X3 at work: "an" and then "ann" among the three people. *)
Lemma searchCache_refines_witness :
  searchCache (searchCache people "an") "ann" = searchCache people "ann"
  ∧ searchCache people "ann" ⊆ searchCache people "an"
  ∧ searchCache people "" = people.
Proof. apply (searchCache_refines people "an" "ann"). reflexivity. Defined.

(** X4 at work: the token of "an" under the demo passphrase. *)
Lemma computeToken_url_safe_witness :
  let chars := list_ascii_of_string token_an in
  ("/"%char ∉ chars) ∧ ("+"%char ∉ chars) ∧ last chars ≠ Some "="%char.
Proof.
  apply (computeToken_url_safe "an" (indexKey derived) token_an).
  vm_compute. reflexivity.
Defined.

(** X5 at work: the token of "an" decodes to the 32 bytes of its
    signature. *)
Lemma token_decodes_to_signature_witness :
  ∃ signature,
    subtle_sign (indexKey derived) (textEncode "an") = Ok signature
    ∧ decodeBase64Url token_an = Ok signature.
Proof.
  apply (token_decodes_to_signature "an" (indexKey derived) token_an).
  - exact StandInFacts.platform_laws.
  - exact standin_base64_is_rfc4648.
  - vm_compute. reflexivity.
Defined.

(** X6 at work: the keys of the demo passphrase. *)
Lemma derived_keys_are_separate_witness :
  (∀ q, computeToken q (encKey derived) = Err InvalidAccessError)
  ∧ (∀ T (J : Json T) iv (P : T),
       encryptJson iv P (indexKey derived) = Err InvalidAccessError)
  ∧ (∀ T (J : Json T) ct iv (P : T),
       decryptJson ct iv (indexKey derived) ≠ Ok P).
Proof.
  apply (derived_keys_are_separate "demo-passphrase" (getSalt None)
           DEFAULT_KDF derived).
  vm_compute. reflexivity.
Defined.

(** X7 at work: the index tokens of Ann Adler. *)
Lemma buildBlindIndexTokens_spec_witness :
  ∃ tokens,
    buildBlindIndexTokens
      (person "r1" "Ann Adler" "ann.adler0@example.com") (indexKey derived)
    = Ok tokens
    ∧ NoDup tokens ∧ (length tokens ≤ 40)%nat ∧ token_an ∈ tokens.
Proof.
  compute_result
    (buildBlindIndexTokens
       (person "r1" "Ann Adler" "ann.adler0@example.com") (indexKey derived))
    ltac:(fun tokens =>
      exists tokens;
      assert (buildBlindIndexTokens
                (person "r1" "Ann Adler" "ann.adler0@example.com")
                (indexKey derived) = Ok tokens) as Hrun
        by (vm_compute; reflexivity);
      destruct (buildBlindIndexTokens_spec _ _ _ Hrun)
        as (Hnd & Hin & Hlen)).
  split_and!; [exact Hrun | exact Hnd | exact Hlen |].
  apply Hin. exists "an". split; [|vm_compute; reflexivity].
  left. apply (bool_decide_unpack _). vm_compute. reflexivity.
Defined.

(** X8 at work: Ann Adler matches "an", and the token of "an" is one of
    her index tokens. *)
Lemma blind_index_covers_scan_witness :
  ∃ tokens token,
    buildBlindIndexTokens
      (person "r1" "Ann Adler" "ann.adler0@example.com") (indexKey derived)
    = Ok tokens
    ∧ computeToken "an" (indexKey derived) = Ok token
    ∧ token ∈ tokens.
Proof.
  compute_result
    (buildBlindIndexTokens
       (person "r1" "Ann Adler" "ann.adler0@example.com") (indexKey derived))
    ltac:(fun tokens =>
      exists tokens;
      assert (buildBlindIndexTokens
                (person "r1" "Ann Adler" "ann.adler0@example.com")
                (indexKey derived) = Ok tokens) as Hrun
        by (vm_compute; reflexivity);
      destruct (blind_index_covers_scan _ _ _ "an" Hrun)
        as (token & Htoken & Hin)).
  - discriminate.
  - simpl. lia.
  - vm_compute. reflexivity.
  - exists token. split_and!; [exact Hrun | exact Htoken | exact Hin].
Defined.

(** X9 at work: a snapshot is stored and read back. *)
Lemma cache_put_then_get_witness :
  ∃ w1 w2,
    setCachedDataset (env []) snapshot empty_world = Ok (tt, w1)
    ∧ getCachedDataset (env []) "people-1k" w1 = Ok (Some snapshot, w2).
Proof.
  run_in_world (setCachedDataset (env []) snapshot empty_world)
    ltac:(fun a w1 =>
      exists w1;
      assert (setCachedDataset (env []) snapshot empty_world = Ok (tt, w1))
        as Hset by (vm_compute; reflexivity);
      destruct (cache_put_then_get (env []) snapshot empty_world w1 Hset
                  eq_refl "people-1k") as (w2 & Hget & _)).
  exists w2. split; [exact Hset|]. rewrite Hget.
  rewrite decide_True; reflexivity.
Defined.

(** X10 at work: the snapshot is stored, cleared and gone. *)
Lemma cache_clear_then_get_witness :
  ∃ w1 w2 w3,
    setCachedDataset (env []) snapshot empty_world = Ok (tt, w1)
    ∧ clearCachedDataset (env []) "people-1k" w1 = Ok (tt, w2)
    ∧ getCachedDataset (env []) "people-1k" w2 = Ok (None, w3).
Proof.
  run_in_world (setCachedDataset (env []) snapshot empty_world)
    ltac:(fun a w1 =>
      exists w1;
      assert (setCachedDataset (env []) snapshot empty_world = Ok (tt, w1))
        as Hset by (vm_compute; reflexivity);
      run_in_world (clearCachedDataset (env []) "people-1k" w1)
        ltac:(fun b w2 =>
          exists w2;
          assert (clearCachedDataset (env []) "people-1k" w1 = Ok (tt, w2))
            as Hclear by (vm_compute; reflexivity);
          destruct (cache_clear_then_get (env []) "people-1k" w1 w2 Hclear
                      "people-1k") as (found & w3 & Hget & Hnone & _))).
  exists w3. split_and!; [exact Hset | exact Hclear |].
  rewrite Hget, Hnone; reflexivity.
Defined.

(** X11 at work: two ids are read in one batch. *)
Lemma fetchRecordsByIds_batches_witness :
  ∃ docs ms w',
    fetchRecordsByIds (env []) "people-1k" ["r1"; "r3"] empty_world
    = Ok ((docs, ms), w')
    ∧ requests w' = [GetDocsIn "datasets/people-1k/records" ["r1"; "r3"]]
    ∧ map doc_id docs = ["r1"; "r3"].
Proof.
  run_in_world
    (fetchRecordsByIds (env []) "people-1k" ["r1"; "r3"] empty_world)
    ltac:(fun a w' =>
      exists (fst a), (snd a), w';
      assert (fetchRecordsByIds (env []) "people-1k" ["r1"; "r3"]
                empty_world = Ok (a, w')) as Hrun
        by (vm_compute; reflexivity);
      destruct (fetchRecordsByIds_batches (env []) "people-1k"
                  ["r1"; "r3"] empty_world (fst a) (snd a) w' Hrun)
        as (groups & Hreqs & Hcat & Hall & Hcount & Hdocs)).
  split; [exact Hrun|]. split; [|vm_compute; reflexivity].
  assert ((Z.of_nat (length ["r1"; "r3"]) + 9) / 10 = 1) as Hone
    by reflexivity.
  rewrite Hone in Hcount.
  destruct groups as [|g [|g' groups]];
    [discriminate Hcat | | cbn [length] in Hcount; lia].
  simpl in Hcat. rewrite app_nil_r in Hcat. subst g. exact Hreqs.
Defined.

(** X12 at work: the three documents decrypt to the three people. *)
Lemma decryptRecords_all_or_nothing_witness :
  ∃ ms w', decryptRecords (env []) docs (encKey derived) empty_world
           = Ok ((people, ms), w')
           ∧ map person_id people = map doc_id docs
           ∧ requests w' = [].
Proof.
  run_in_world (decryptRecords (env []) docs (encKey derived) empty_world)
    ltac:(fun a w' =>
      exists (snd a), w';
      assert (decryptRecords (env []) docs (encKey derived) empty_world
              = Ok ((people, snd a), w')) as Hrun
        by (vm_compute; reflexivity);
      destruct (proj1 (decryptRecords_all_or_nothing (env []) docs
                         (encKey derived) empty_world)
                  people (snd a) w' Hrun) as (_ & Hids & Hreqs & _)).
  by split_and!.
Defined.

(** X13 at work: a scan for "an". *)
Lemma hits_are_capped_witness :
  ∃ r w',
    runBenchmark (env []) 5 (options "an" [decryptScan]) empty_world
    = Ok ([r], w')
    ∧ length (hits r) = (20 `min` resultCount r)%nat
    ∧ resultCount r = 2%nat.
Proof.
  run_in_world
    (runBenchmark (env []) 5 (options "an" [decryptScan]) empty_world)
    ltac:(fun rs w' =>
      lazymatch rs with
      | [?r] =>
          exists r, w';
          assert (runBenchmark (env []) 5 (options "an" [decryptScan])
                    empty_world = Ok ([r], w')) as Hrun
            by (vm_compute; reflexivity);
          pose proof (hits_are_capped (env []) 5 _ _ _ _ Hrun) as Hall
      end).
  apply Forall_cons in Hall as [[_ Hscan] _].
  destruct Hscan as (Hlen & _); [left; reflexivity|].
  split_and!; [exact Hrun | exact Hlen | vm_compute; reflexivity].
Defined.

(** X14 at work: a bucket of 75 ids costs six reads. *)
Lemma index_modes_read_at_most_six_witness :
  ∃ r w',
    runMode (env many_ids) 5 "people-1k" "an" derived blindIndex empty_world
    = Ok (r, w')
    ∧ length (requests w') = 6%nat.
Proof.
  run_in_world
    (runMode (env many_ids) 5 "people-1k" "an" derived blindIndex
       empty_world)
    ltac:(fun r w' =>
      exists r, w';
      assert (runMode (env many_ids) 5 "people-1k" "an" derived blindIndex
                empty_world = Ok (r, w')) as Hrun
        by (vm_compute; reflexivity);
      destruct (index_modes_read_at_most_six (env many_ids) 5 "people-1k"
                  "an" derived blindIndex empty_world r w'
                  (or_introl eq_refl) Hrun) as (reqs & Hreqs & Hlen)).
  split; [exact Hrun|]. vm_compute. reflexivity.
Defined.

(** X15 at work: Blind Index and Decrypt-and-Scan leave IndexedDB and the
    plaintext index alone. *)
Lemma modes_keep_to_their_stores_witness :
  ∃ rs w',
    runBenchmark (env ["r1"; "r2"]) 5
      (options "an" [blindIndex; decryptScan]) empty_world = Ok (rs, w')
    ∧ idb w' = ∅ ∧ idbOps w' = 0%nat
    ∧ ∀ docId,
        GetDoc (plaintextIndexPath "people-1k" docId) ∉ requests w'.
Proof.
  run_in_world
    (runBenchmark (env ["r1"; "r2"]) 5
       (options "an" [blindIndex; decryptScan]) empty_world)
    ltac:(fun rs w' =>
      exists rs, w';
      assert (runBenchmark (env ["r1"; "r2"]) 5
                (options "an" [blindIndex; decryptScan]) empty_world
              = Ok (rs, w')) as Hrun
        by (vm_compute; reflexivity);
      destruct (modes_keep_to_their_stores (env ["r1"; "r2"]) 5 _ _ _ _
                  Hrun) as (reqs & Hreqs & Hidb & Hplain & _)).
  split; [exact Hrun|].
  assert (clientCache ∉ [blindIndex; decryptScan]) as Hc
    by (apply (bool_decide_unpack _); by vm_compute).
  assert (plaintextIndex ∉ [blindIndex; decryptScan]) as Hp
    by (apply (bool_decide_unpack _); by vm_compute).
  destruct (Hidb Hc) as [Hdb Hops].
  split_and!; [exact Hdb | exact Hops |].
  intros docId. rewrite Hreqs. simpl. apply (Hplain Hp).
Defined.

Lemma cache_ok_empty : cache_ok (idb empty_world).
Proof.
  intros key c Hlook. simpl in Hlook. by rewrite lookup_empty in Hlook.
Qed.

(** X16 at work: the snapshot that a cold run stores. *)
Lemma cache_stays_well_formed_witness :
  ∃ rs w',
    runBenchmark (env []) 5 (options "an" [clientCache]) empty_world
    = Ok (rs, w')
    ∧ cache_ok (idb w') ∧ is_Some (idb w' !! "people-1k").
Proof.
  run_in_world
    (runBenchmark (env []) 5 (options "an" [clientCache]) empty_world)
    ltac:(fun rs w' =>
      exists rs, w';
      assert (runBenchmark (env []) 5 (options "an" [clientCache])
                empty_world = Ok (rs, w')) as Hrun
        by (vm_compute; reflexivity);
      pose proof (cache_stays_well_formed (env []) 5 _ _ _ _
                    cache_ok_empty Hrun) as Hok).
  split_and!; [exact Hrun | exact Hok |]. vm_compute. by eexists.
Defined.

(** X17 at work: Client Cache on a machine without IndexedDB. *)
Lemma clientCache_needs_IndexedDB_witness :
  (∃ w1, getCachedDataset offline "people-1k" empty_world = Ok (None, w1)
         ∧ idb w1 = idb empty_world)
  ∧ ∀ r w', runClientCache offline "people-1k" "an" derived empty_world
            ≠ Ok (r, w').
Proof.
  apply (clientCache_needs_IndexedDB offline "people-1k" "an" derived
           empty_world); reflexivity.
Defined.

(** X18 at work: the three people, scanned and cached. *)
Lemma cold_cache_agrees_with_scan_witness :
  ∃ r1 w1 r2 w2,
    runMode (env ["r1"; "r2"]) 5 "people-1k" "an" derived decryptScan
      empty_world = Ok (r1, w1)
    ∧ runMode (env ["r1"; "r2"]) 5 "people-1k" "an" derived clientCache
        empty_world = Ok (r2, w2)
    ∧ resultCount r1 = resultCount r2 ∧ hits r1 = hits r2.
Proof.
  run_in_world
    (runMode (env ["r1"; "r2"]) 5 "people-1k" "an" derived decryptScan
       empty_world)
    ltac:(fun r1 w1 =>
      exists r1, w1;
      assert (runMode (env ["r1"; "r2"]) 5 "people-1k" "an" derived
                decryptScan empty_world = Ok (r1, w1)) as Hscan
        by (vm_compute; reflexivity);
      run_in_world
        (runMode (env ["r1"; "r2"]) 5 "people-1k" "an" derived clientCache
           empty_world)
        ltac:(fun r2 w2 =>
          exists r2, w2;
          assert (runMode (env ["r1"; "r2"]) 5 "people-1k" "an" derived
                    clientCache empty_world = Ok (r2, w2)) as Hcache
            by (vm_compute; reflexivity);
          pose proof (cold_cache_agrees_with_scan (env ["r1"; "r2"]) 5
                        "people-1k" "an" derived empty_world empty_world
                        r1 w1 r2 w2) as Hagree)).
  cbv zeta in Hagree. destruct Hagree as [Hcount Hhits].
  - intros k r. reflexivity.
  - exact ids_ascending_docs.
  - simpl. lia.
  - vm_compute. discriminate.
  - reflexivity.
  - exact Hscan.
  - exact Hcache.
  - split_and!; [exact Hscan | exact Hcache | exact Hcount | exact Hhits].
Defined.

(** X20 at work: the results of two modes, selected out of order. *)
Lemma resultsByMode_shows_every_result_witness :
  ∃ rs w',
    runBenchmark (env ["r1"; "r2"]) 5
      (options "an" [plaintextIndex; blindIndex]) empty_world = Ok (rs, w')
    ∧ resultsByMode rs ≡ₚ rs.
Proof.
  run_in_world
    (runBenchmark (env ["r1"; "r2"]) 5
       (options "an" [plaintextIndex; blindIndex]) empty_world)
    ltac:(fun rs w' =>
      exists rs, w';
      assert (runBenchmark (env ["r1"; "r2"]) 5
                (options "an" [plaintextIndex; blindIndex]) empty_world
              = Ok (rs, w')) as Hrun
        by (vm_compute; reflexivity);
      split; [exact Hrun|];
      apply (resultsByMode_shows_every_result rs)).
  apply (bool_decide_unpack _). vm_compute. reflexivity.
Defined.

(** X21 at work: [null] and [undefined] give the same row, and the same
    texts; the second field has a comma in it. *)
Lemma csv_rows_are_unambiguous_witness :
  String.concat ","
    (map escapeCsv [CsvNull; CsvString "an, ann"; CsvNumber 2])
  = String.concat ","
      (map escapeCsv [CsvUndefined; CsvString "an, ann"; CsvNumber 2])
  ∧ map String_of [CsvNull; CsvString "an, ann"; CsvNumber 2]
    = map String_of [CsvUndefined; CsvString "an, ann"; CsvNumber 2].
Proof.
  split; [reflexivity|].
  apply (proj1 csv_rows_are_unambiguous
           [CsvNull; CsvString "an, ann"; CsvNumber 2]
           [CsvUndefined; CsvString "an, ann"; CsvNumber 2]).
  reflexivity.
Defined.

(** X23 at work: 451 record writes go out as a batch of 450 and a batch
    of one. *)
Lemma flushBatches_batches_witness :
  ∃ log',
    flushBatches seedEnv
      (replicate 451 ("ref", {| enc_ct := "ct"; enc_iv := "iv" |}))
      [] [] "people-1k" [] = Ok log'
    ∧ map length log' = [450; 1]%nat.
Proof.
  destruct (proj2 (flushBatches_batches seedEnv
                     (replicate 451
                        ("ref", {| enc_ct := "ct"; enc_iv := "iv" |}))
                     [] [] "people-1k" [])) as [log' Hrun];
    [reflexivity|].
  exists log'. split; [exact Hrun|].
  assert (flushBatches seedEnv
            (replicate 451 ("ref", {| enc_ct := "ct"; enc_iv := "iv" |}))
            [] [] "people-1k" []
          = Ok [replicate 450 (SetRecord "ref" "ct" "iv");
                [SetRecord "ref" "ct" "iv"]]) as Hval
    by (vm_compute; reflexivity).
  rewrite Hval in Hrun. injection Hrun as <-. vm_compute. reflexivity.
Defined.

(** X24 at work: three records are seeded. *)
Lemma seedDataset_indexes_every_record_witness :
  ∃ log' keys batches,
    seedDataset seedEnv "people-1k" 3 [] = Ok log'
    ∧ log' = [SetDataset "datasets/people-1k" "people-1k" 3] :: batches
    ∧ seeded seedEnv "people-1k" keys 0 (concat batches)
    ∧ seeded seedEnv "people-1k" keys 2 (concat batches).
Proof.
  destruct (seedDataset_indexes_every_record seedEnv "people-1k" 3 [])
    as [Hinv Hok].
  destruct (Hok (λ _, eq_refl)) as [log' Hrun].
  destruct (Hinv log' Hrun) as (keys & batches & _ & Hlog & _ & Hseeded).
  exists log', keys, batches.
  split_and!; [exact Hrun | exact Hlog | apply Hseeded; lia
              | apply Hseeded; lia].
Defined.

Lemma people_1k_not_inherited : "people-1k" ∉ Object_prototype_names.
Proof. apply (bool_decide_unpack _). by vm_compute. Qed.

(** X26 at work: the earlier copy scans a sample of the 1k dataset. *)
Lemma part002_scan_is_sampled_witness :
  ∃ r w',
    Part002.runDecryptScan (env []) "people-1k" "an" derived empty_world
    = Ok (r, w')
    ∧ requests w' = [GetDocsPage "datasets/people-1k/records" None 1000]
    ∧ sampleNote r = None.
Proof.
  run_in_world
    (Part002.runDecryptScan (env []) "people-1k" "an" derived empty_world)
    ltac:(fun r w' =>
      exists r, w';
      assert (Part002.runDecryptScan (env []) "people-1k" "an" derived
                empty_world = Ok (r, w')) as Hrun
        by (vm_compute; reflexivity);
      pose proof (part002_scan_is_sampled (env []) "people-1k" "an" derived
                    empty_world r w' people_1k_not_inherited Hrun)
        as Hsampled).
  cbv zeta in Hsampled. destruct Hsampled as (Hreqs & _ & _ & _).
  split_and!; [exact Hrun | exact Hreqs | reflexivity].
Defined.

(** X28 at work: the four modes on the sample project, whose clock ticks
    once a reading. *)
Lemma durations_are_sound_witness :
  ∃ rs w',
    runBenchmark (env ["r1"; "r2"]) 5
      (options "an" [blindIndex; decryptScan; clientCache; plaintextIndex])
      empty_world = Ok (rs, w')
    ∧ length rs = 4%nat
    ∧ Forall (λ r, 0 ≤ fetchMs (breakdown r)
                   ∧ fetchMs (breakdown r) ≤ totalMs r) rs.
Proof.
  assert (clock_monotone (env ["r1"; "r2"])) as Hmono
    by (intros i j Hij; simpl; lia).
  run_in_world
    (runBenchmark (env ["r1"; "r2"]) 5
       (options "an" [blindIndex; decryptScan; clientCache; plaintextIndex])
       empty_world)
    ltac:(fun rs w' =>
      exists rs, w';
      assert (runBenchmark (env ["r1"; "r2"]) 5
                (options "an"
                   [blindIndex; decryptScan; clientCache; plaintextIndex])
                empty_world = Ok (rs, w')) as Hrun
        by (vm_compute; reflexivity);
      pose proof (durations_are_sound (env ["r1"; "r2"]) 5 _ _ _ _
                    Hmono Hrun) as Hall).
  split_and!; [exact Hrun | reflexivity |].
  eapply Forall_impl; [exact Hall|].
  intros r (_ & Hfetch & _ & _ & _ & Hle & _). split; assumption.
Defined.

(** X29 at work: a snapshot of three records of a dataset of a thousand. *)
Lemma clientCache_notes_truncation_witness :
  ∃ r w',
    runClientCache (env []) "people-1k" "an" derived
      {| nowCalls := 0; requests := [];
         idb := {["people-1k" := snapshot]}; idbOps := 0 |} = Ok (r, w')
    ∧ is_Some (sampleNote r).
Proof.
  run_in_world
    (runClientCache (env []) "people-1k" "an" derived
       {| nowCalls := 0; requests := [];
          idb := {["people-1k" := snapshot]}; idbOps := 0 |})
    ltac:(fun r w' =>
      exists r, w';
      assert (runClientCache (env []) "people-1k" "an" derived
                {| nowCalls := 0; requests := [];
                   idb := {["people-1k" := snapshot]}; idbOps := 0 |}
              = Ok (r, w')) as Hrun
        by (vm_compute; reflexivity);
      pose proof (clientCache_notes_truncation (env []) "people-1k" "an"
                    derived _ r w' people_1k_not_inherited Hrun)
        as Hnote).
  split; [exact Hrun|].
  change (cache_lookup (env []) "people-1k" _) with (Some snapshot)
    in Hnote.
  apply Hnote. reflexivity.
Defined.

(** X30 at work: the first seeded record, Dakota Fletcher, is found under
    "dak". *)
Lemma seed_serves_search_witness :
  ∃ log',
    seedDataset seedEnv "people-1k" 3 [] = Ok log'
    ∧ indexes (concat log') "datasets/people-1k/plaintextIndex/dak"
        (Some "dak") "s0".
Proof.
  destruct (seedDataset_ok seedEnv "people-1k" 3 [] (λ _, eq_refl))
    as [log' Hrun].
  exists log'. split; [exact Hrun|].
  destruct (seed_serves_search seedEnv "people-1k" 3 [] log' Hrun)
    as (keys & _ & Hall).
  destruct (Hall 0%nat "dak") as [Hplain _].
  - lia.
  - discriminate.
  - vm_compute. lia.
  - vm_compute. reflexivity.
  - exact Hplain.
Defined.

End Cases.
